(** * The cproto client connection: sequence slots, deadlines, reader, failure

    A shallow embedding of the Go client connection of the cproto binary RPC
    transport (package [cproto]: [connection], [rpcCall], [readReply],
    [deadlineTicker], [onError], [newConnection]) and the properties its
    specification states about it.

    Conventions.
    - [uint32] values are [Z] with the wrap-around written out ([u32]).
    - A buffered channel is the list of its queued elements; an unbuffered
      channel is a rendezvous, modelled as one joint step of sender and
      receiver; a channel that is only ever closed is a [bool].
    - The socket's inbound side is the list of bytes the peer still delivers
      before end of stream.
    - Goroutines interleave at their blocking points (channel operations);
      the straight-line code between two blocking points is one step.  Two
      places are split further, because another goroutine's step between
      them changes what follows: the two loads of the clock in
      [newConnection], and the append and the kick of [write] as the writer
      sees them. *)

From Stdlib Require Import ZArith Lia Bool.
From stdpp Require Import base numbers list strings.

Open Scope Z_scope.

(** ** Constants *)

Definition bufsCap : Z := 16 * 1024.
Definition queueSize : Z := 40.
Definition maxSeqNum : Z := queueSize * 10000000.

Definition cprotoMagic : Z := 0xEEDD1132.
Definition cprotoVersion : Z := 0x102.
Definition cprotoMinCompatVersion : Z := 0x101.
Definition cprotoHdrLen : Z := 16.
Definition deadlineCheckPeriodSec : Z := 1.

Definition cmdPing : Z := 0.
Definition cmdLogin : Z := 1.

(** [uint32] arithmetic wraps modulo 2^32. *)
Definition u32 (z : Z) : Z := z mod 2 ^ 32.

(** ** Errors *)

(** Error codes of the [bindings] package that this file raises. *)
Inductive errcode := ErrTimeout | ErrCanceled | ErrOther (code : Z).

(** A Go [error] value: [bindings.NewError], the [fmt.Errorf] values of
    [readReply] (format string with its argument), and the errors of the
    [io] and [net] packages. *)
Inductive error :=
| BindingsError (msg : string) (code : errcode)
| InvalidMagic (magic : Z)
| UnsupportedVersion (version : Z)
| InvalidSeqNum (rseq : Z)
| IoEOF
| IoErrUnexpectedEOF
| NetError (timeout : bool) (desc : string).

Definition errcode_eqb (a b : errcode) : bool :=
  match a, b with
  | ErrTimeout, ErrTimeout => true
  | ErrCanceled, ErrCanceled => true
  | ErrOther x, ErrOther y => x =? y
  | _, _ => false
  end.

(** [rdxError, ok := err.(bindings.Error); ok && rdxError.Code() == code] *)
Definition hasCode (e : error) (code : errcode) : bool :=
  match e with
  | BindingsError _ c => errcode_eqb c code
  | _ => false
  end.

(** The errors [readReply] raises on a header it rejects. *)
Definition isProtocolError (e : error) : bool :=
  match e with
  | InvalidMagic _ | UnsupportedVersion _ | InvalidSeqNum _ => true
  | _ => false
  end.

(** ** Data *)

Definition byte : Type := Byte.byte.

(** A reply buffer ([NetBuffer]): the payload bytes read for one frame. *)
Record NetBuffer := { buf : list byte }.

Record bufPtr := { rseq : Z; bufp : NetBuffer }.

(** One pipeline slot.  Its two channels [repl] and [timeoutCh] are
    unbuffered and never replaced: they are identified with the slot's index,
    and their traffic is the rendezvous steps of the step relation below. *)
Record requestInfo := { seqNum : Z; deadline : Z }.

(** [net.Conn]: the number of [Close] calls made on it. *)
Record netConn := { closeCalls : nat }.

(** The connection.  Left out: [owner] (passed where it is read), [lock]
    (every locked region is inside one step) and [lastReadStamp] (wall-clock
    time, read by no code here). *)

Record connection := {
  conn : option netConn;        (* nil until the dial succeeds *)
  wrBuf : list byte;
  wrBuf2 : list byte;
  wrKick : bool;                (* chan struct{} of capacity 1: full? *)
  rdBuf : list byte;            (* inbound bytes still to come *)
  seqs : list Z;                (* chan uint32 of capacity queueSize *)
  err : option error;
  errCh : bool;                 (* closed? *)
  now : Z;
  termCh : bool;                (* closed? *)
  requests : list requestInfo   (* [queueSize]requestInfo *)
}.

Definition set_conn (c : connection) (v : option netConn) : connection :=
  {| conn := v; wrBuf := wrBuf c; wrBuf2 := wrBuf2 c; wrKick := wrKick c;
     rdBuf := rdBuf c; seqs := seqs c; err := err c; errCh := errCh c;
     now := now c; termCh := termCh c; requests := requests c |}.

Definition set_wr (c : connection) (b : list byte) (kick : bool) : connection :=
  {| conn := conn c; wrBuf := b; wrBuf2 := wrBuf2 c; wrKick := kick;
     rdBuf := rdBuf c; seqs := seqs c; err := err c; errCh := errCh c;
     now := now c; termCh := termCh c; requests := requests c |}.

Definition set_rdBuf (c : connection) (v : list byte) : connection :=
  {| conn := conn c; wrBuf := wrBuf c; wrBuf2 := wrBuf2 c; wrKick := wrKick c;
     rdBuf := v; seqs := seqs c; err := err c; errCh := errCh c;
     now := now c; termCh := termCh c; requests := requests c |}.

Definition set_seqs (c : connection) (v : list Z) : connection :=
  {| conn := conn c; wrBuf := wrBuf c; wrBuf2 := wrBuf2 c; wrKick := wrKick c;
     rdBuf := rdBuf c; seqs := v; err := err c; errCh := errCh c;
     now := now c; termCh := termCh c; requests := requests c |}.

Definition set_err (c : connection) (v : option error) : connection :=
  {| conn := conn c; wrBuf := wrBuf c; wrBuf2 := wrBuf2 c; wrKick := wrKick c;
     rdBuf := rdBuf c; seqs := seqs c; err := v; errCh := errCh c;
     now := now c; termCh := termCh c; requests := requests c |}.

Definition set_errCh (c : connection) (v : bool) : connection :=
  {| conn := conn c; wrBuf := wrBuf c; wrBuf2 := wrBuf2 c; wrKick := wrKick c;
     rdBuf := rdBuf c; seqs := seqs c; err := err c; errCh := v;
     now := now c; termCh := termCh c; requests := requests c |}.

Definition set_now (c : connection) (v : Z) : connection :=
  {| conn := conn c; wrBuf := wrBuf c; wrBuf2 := wrBuf2 c; wrKick := wrKick c;
     rdBuf := rdBuf c; seqs := seqs c; err := err c; errCh := errCh c;
     now := v; termCh := termCh c; requests := requests c |}.

Definition set_termCh (c : connection) (v : bool) : connection :=
  {| conn := conn c; wrBuf := wrBuf c; wrBuf2 := wrBuf2 c; wrKick := wrKick c;
     rdBuf := rdBuf c; seqs := seqs c; err := err c; errCh := errCh c;
     now := now c; termCh := v; requests := requests c |}.

Definition set_requests (c : connection) (v : list requestInfo) : connection :=
  {| conn := conn c; wrBuf := wrBuf c; wrBuf2 := wrBuf2 c; wrKick := wrKick c;
     rdBuf := rdBuf c; seqs := seqs c; err := err c; errCh := errCh c;
     now := now c; termCh := termCh c; requests := v |}.

(** The slot index of a sequence number: [seq % queueSize]. *)
Definition slotOf (seq : Z) : nat := Z.to_nat (seq mod queueSize).

(** [atomic.LoadUint32(&c.requests[i].seqNum)]; the array has [queueSize]
    elements and every index used is below [queueSize]. *)
Definition loadSeqNum (c : connection) (i : nat) : Z :=
  match requests c !! i with Some r => seqNum r | None => 0 end.

Definition loadDeadline (c : connection) (i : nat) : Z :=
  match requests c !! i with Some r => deadline r | None => 0 end.

(** [atomic.StoreUint32(&c.requests[i].seqNum, v)] *)
Definition storeSeqNum (c : connection) (i : nat) (v : Z) : connection :=
  set_requests c
    (<[i := {| seqNum := v; deadline := loadDeadline c i |}]> (requests c)).

(** [atomic.StoreUint32(&c.requests[i].deadline, v)] *)
Definition storeDeadline (c : connection) (i : nat) (v : Z) : connection :=
  set_requests c
    (<[i := {| seqNum := loadSeqNum c i; deadline := v |}]> (requests c)).

(** ** Sequence numbers *)

Definition seqNumIsValid (seqNum : Z) : bool :=
  if seqNum <? maxSeqNum then true else false.

Definition nextSeqNum (seqNum : Z) : Z :=
  let seqNum := u32 (seqNum + queueSize) in
  if seqNum <? maxSeqNum then seqNum else u32 (seqNum - maxSeqNum).

(** ** The failure transition *)

Definition closeConn (c : connection) : connection :=
  match conn c with
  | Some k => set_conn c (Some {| closeCalls := S (closeCalls k) |})
  | None => c
  end.

Definition onError (c : connection) (e : error) : connection :=
  match err c with
  | None =>
      let c := set_err c (Some e) in
      let c := closeConn c in
      if errCh c then c else set_errCh c true
  | Some _ => c
  end.

Definition hasError (c : connection) : bool :=
  match err c with Some _ => true | None => false end.

(** [Finalize] closes [termCh].  Go's [close] of a channel that is already
    closed panics: a second [Finalize] has no result. *)
Definition Finalize (c : connection) : option connection :=
  if termCh c then None else Some (set_termCh c true).

(** ** The reader *)

Definition byteZ (b : byte) : Z := Z.of_N (Byte.to_N b).

(** Modelled from the spec: the [cjson] serializer's fixed-width readers are
    outside the included sources; the frame header's fields are little-endian
    ("magic (u32, little-endian)" and so on).  A read past the end of the
    buffer yields the bytes that are there. *)
Fixpoint getLE (bs : list byte) : Z :=
  match bs with
  | [] => 0
  | b :: bs => Z.lor (byteZ b) (Z.shiftl (getLE bs) 8)
  end.

Definition GetUInt32 (ser : list byte) : Z * list byte :=
  (getLE (take 4 ser), drop 4 ser).

Definition GetUInt16 (ser : list byte) : Z * list byte :=
  (getLE (take 2 ser), drop 2 ser).

(** [io.ReadFull(r, buf)] with [len(buf) = n] on a stream [r] that ends after
    its last byte: the bytes read, the rest of the stream, and the error
    ([io.EOF] when nothing could be read, [io.ErrUnexpectedEOF] when the
    stream ended part-way). *)
Definition ReadFull (r : list byte) (n : nat) : list byte * list byte * option error :=
  if (n <=? length r)%nat then (take n r, drop n r, None)
  else (r, [], Some (match r with [] => IoEOF | _ => IoErrUnexpectedEOF end)).

(** [io.CopyN(ioutil.Discard, r, n)]: what is left of the stream.  The
    caller drops the call's results. *)
Definition CopyN_Discard (r : list byte) (n : Z) : list byte :=
  drop (Z.to_nat n) r.

(** How one [readReply] call ends. *)
Inductive replyAction :=
| ReplyErr (e : error)                    (* return err *)
| ReplyDiscarded                          (* payload drained; return nil *)
| ReplySend (reqID : nat) (b : bufPtr).   (* repCh <- bufPtr{rseq, answ}; return nil *)

(** The four header fields in the order [readReply] reads them. *)
Definition decodeHdr (hdr : list byte) : Z * Z * Z * Z :=
  let '(magic, ser) := GetUInt32 hdr in
  let '(version, ser) := GetUInt16 ser in
  let '(_, ser) := GetUInt16 ser in
  let '(size, ser) := GetUInt32 ser in
  let '(rseq, _) := GetUInt32 ser in
  (magic, version, size, rseq).

(** [readReply].  Every slot's [repl] channel is created in [newConnection]
    and never cleared, so the [repCh != nil] test always holds and its
    [else] branch is left out. *)
Definition readReply (c : connection) : connection * replyAction :=
  let '(hdr, rest, e) := ReadFull (rdBuf c) (Z.to_nat cprotoHdrLen) in
  let c := set_rdBuf c rest in
  match e with
  | Some e => (c, ReplyErr e)
  | None =>
      let '(magic, ser) := GetUInt32 hdr in
      if negb (magic =? cprotoMagic) then (c, ReplyErr (InvalidMagic magic))
      else
        let '(version, ser) := GetUInt16 ser in
        let '(_, ser) := GetUInt16 ser in
        let '(size, ser) := GetUInt32 ser in
        let '(rseq, _) := GetUInt32 ser in
        if version <? cprotoMinCompatVersion
        then (c, ReplyErr (UnsupportedVersion version))
        else if negb (seqNumIsValid rseq)
        then (c, ReplyErr (InvalidSeqNum rseq))
        else
          let reqID := slotOf rseq in
          if negb (loadSeqNum c reqID =? rseq)
          then (set_rdBuf c (CopyN_Discard (rdBuf c) size), ReplyDiscarded)
          else
            let '(answ, rest, e) := ReadFull (rdBuf c) (Z.to_nat size) in
            let c := set_rdBuf c rest in
            match e with
            | Some e => (c, ReplyErr e)
            | None =>
                (c, ReplySend reqID {| rseq := rseq; bufp := {| buf := answ |} |})
            end
  end.

(** The reader goroutine: running, blocked in [repCh <- bufPtr] on a slot's
    reply channel, or returned. *)
Inductive readerPc :=
| RRun
| RSend (reqID : nat) (b : bufPtr)
| RExit.

(** One iteration of [readLoop] up to its next blocking point. *)
Definition readLoop_iter (c : connection) : connection * readerPc :=
  match readReply c with
  | (c, ReplyErr e) => (onError c e, RExit)
  | (c, ReplyDiscarded) => (c, RRun)
  | (c, ReplySend reqID b) => (c, RSend reqID b)
  end.

(** ** The encoder interface *)

(** The dynamic type of an [interface{}] argument of [rpcCall]: the seven
    types its type switch names, and any other Go type. *)
Inductive arg :=
| ArgBool (t : bool)
| ArgInt (t : Z)
| ArgInt32 (t : Z)
| ArgInt64 (t : Z)
| ArgString (t : string)
| ArgBytes (t : list byte)
| ArgInt32Arr (t : list Z)
| ArgOther (goType : string).

Definition argSupported (a : arg) : bool :=
  match a with ArgOther _ => false | _ => true end.

(** How [rpcCall] ends: it returns [(buf, err)], or it calls [parseArgs] on
    the nil buffer it holds when the failure channel is closed while [c.err]
    is nil (a state [onError] never produces). *)
Inductive rpcResult :=
| Return (buf : option NetBuffer) (err : option error)
| NilBuffer.

(** [rpcEncoder] with its methods, and [NetBuffer.parseArgs]: declared in
    files outside the included sources, taken as an interface.  A method that
    appends to the encoder's serializer returns the encoder after the call. *)
Class RPCCodec := {
  rpcEncoder : Type;
  newRPCEncoder : Z -> Z -> rpcEncoder;
  boolArg : rpcEncoder -> bool -> rpcEncoder;
  intArg : rpcEncoder -> Z -> rpcEncoder;
  int64Arg : rpcEncoder -> Z -> rpcEncoder;
  stringArg : rpcEncoder -> string -> rpcEncoder;
  bytesArg : rpcEncoder -> list byte -> rpcEncoder;
  int32ArrArg : rpcEncoder -> list Z -> rpcEncoder;
  startArgsChunck : rpcEncoder -> rpcEncoder;
  serBytes : rpcEncoder -> list byte;
  parseArgs : NetBuffer -> option error
}.

(** One pass of the loop [for _, a := range args] with its type switch,
    which has no [default] case. *)
Definition encodeArg `{RPCCodec} (in_ : rpcEncoder) (a : arg) : rpcEncoder :=
  match a with
  | ArgBool t => boolArg in_ t
  | ArgInt t => intArg in_ t
  | ArgInt32 t => intArg in_ t
  | ArgInt64 t => int64Arg in_ t
  | ArgString t => stringArg in_ t
  | ArgBytes t => bytesArg in_ t
  | ArgInt32Arr t => int32ArrArg in_ t
  | ArgOther _ => in_
  end.

Definition encodeArgs `{RPCCodec} (in_ : rpcEncoder) (args : list arg) : rpcEncoder :=
  fold_left encodeArg args in_.

(** The frame [rpcCall] builds for [(cmd, seq, args, execTimeout)]. *)
Definition encodeFrame `{RPCCodec} (cmd seq : Z) (args : list arg) (execTimeout : Z)
  : list byte :=
  let in_ := newRPCEncoder cmd seq in
  let in_ := encodeArgs in_ args in
  let in_ := startArgsChunck in_ in
  let in_ := int64Arg in_ execTimeout in
  serBytes in_.

(** ** The writer's entry point *)

(** [write] as its caller runs it: append under the lock, then assert the
    kick without blocking. *)
Definition write (c : connection) (b : list byte) : connection :=
  set_wr c (wrBuf c ++ b) true.

(** ** rpcCall *)

(** A caller inside [rpcCall]: in the [select] of [for_loop], at the send
    [c.seqs <- nextSeqNum(seq)] after the loop, or returned. *)
Inductive callerPc :=
| CWait (seq : Z)
| CPush (seq : Z) (buf : option NetBuffer) (err : option error)
| CDone (r : rpcResult).

Definition millisecond : Z := 1000000.
Definition second : Z := 1000000000.

(** [rpcCall] from its entry to the [select]: [ctx] is [None] for a context
    without deadline, else the duration in nanoseconds
    [execDeadline.Sub(time.Now())].  [None] as result: the caller is blocked
    in [<-c.seqs]. *)
Definition rpcCall_submit `{RPCCodec} (c : connection) (ctx : option Z) (cmd : Z)
    (netTimeout : Z) (args : list arg) : option (connection * callerPc) :=
  match seqs c with
  | [] => None
  | seq :: rest =>
      let c := set_seqs c rest in
      let reqID := slotOf seq in
      let execTimeout :=
        match ctx with Some d => Z.quot d millisecond | None => 0 end in
      if match ctx with Some _ => execTimeout <=? 0 | None => false end
      then Some (c, CDone (Return None
                   (Some (BindingsError "Request was canceled" ErrCanceled))))
      else
        let c := if negb (netTimeout =? 0)
                 then storeDeadline c reqID (u32 (now c + netTimeout))
                 else c in
        let c := storeSeqNum c reqID seq in
        let c := write c (encodeFrame cmd seq args execTimeout) in
        Some (c, CWait seq)
  end.

(** What a caller can receive in its [select]. *)
Inductive selectEvent :=
| RecvReply (b : bufPtr)
| RecvErrCh
| RecvTimeout (timeoutSeq : Z).

(** One pass of [for_loop]: [Some (buf, err)] when the case taken breaks out
    of the loop, [None] when the loop goes round again. *)
Definition select_case (c : connection) (seq : Z) (ev : selectEvent)
  : option (option NetBuffer * option error) :=
  match ev with
  | RecvReply b =>
      if rseq b =? seq then Some (Some (bufp b), None) else None
  | RecvErrCh => Some (None, err c)
  | RecvTimeout timeoutSeq =>
      if timeoutSeq =? seq
      then Some (None, Some (BindingsError "Request timeout" ErrTimeout))
      else None
  end.

(** The whole loop over the events a waiter receives, in order: the result
    of the first pass that breaks and the events not consumed, or [None]
    when the waiter is still in the loop after all of them. *)
Fixpoint for_loop (c : connection) (seq : Z) (evs : list selectEvent)
  : option (option NetBuffer * option error * list selectEvent) :=
  match evs with
  | [] => None
  | ev :: evs =>
      match select_case c seq ev with
      | Some r => Some (r, evs)
      | None => for_loop c seq evs
      end
  end.

(** A pass of the loop and, when it breaks, the store of the idle sentinel
    into the slot, up to the send on [c.seqs]. *)
Definition rpcCall_wait (c : connection) (seq : Z) (ev : selectEvent)
  : connection * callerPc :=
  match select_case c seq ev with
  | None => (c, CWait seq)
  | Some (buf, err) => (storeSeqNum c (slotOf seq) maxSeqNum, CPush seq buf err)
  end.

(** The send [c.seqs <- nextSeqNum(seq)] and the return.  [None]: the
    channel is full and the send blocks. *)
Definition rpcCall_finish `{RPCCodec} (c : connection) (seq : Z)
    (buf : option NetBuffer) (err : option error) : option (connection * rpcResult) :=
  if (length (seqs c) <? Z.to_nat queueSize)%nat
  then
    let c := set_seqs c (seqs c ++ [nextSeqNum seq]) in
    match err, buf with
    | Some e, _ => Some (c, Return buf (Some e))
    | None, Some b => Some (c, Return buf (parseArgs b))
    | None, None => Some (c, NilBuffer)
    end
  else None.

(** ** The deadline ticker *)

(** The ticker goroutine: waiting for the next tick, blocked in
    [timeoutCh <- seqNum] on slot [i] (with its local [now]), or returned. *)
Inductive tickerPc :=
| TSleep
| TSend (i : nat) (seqNum : Z) (now : Z)
| TExit.

(** The scan [for i := range c.requests] from slot [i] on, [n] slots left,
    up to the first send. *)
Fixpoint tickerScan (n : nat) (i : nat) (now : Z) (c : connection)
  : connection * tickerPc :=
  match n with
  | O => (c, TSleep)
  | S n =>
      let seqNum := loadSeqNum c i in
      if negb (seqNumIsValid seqNum) then tickerScan n (S i) now c
      else
        let deadline := loadDeadline c i in
        if negb (deadline =? 0) && (now >=? deadline)
        then (storeDeadline c i 0, TSend i seqNum now)
        else tickerScan n (S i) now c
  end.

(** One tick: the exit checks, the increment of [c.now], the scan. *)
Definition tickerTick (c : connection) : connection * tickerPc :=
  if errCh c || termCh c then (c, TExit)
  else
    let now := u32 (now c + deadlineCheckPeriodSec) in
    let c := set_now c now in
    tickerScan (length (requests c)) 0 now c.

(** The scan goes on after the send on slot [i] was received. *)
Definition tickerResume (c : connection) (i : nat) (now : Z) : connection * tickerPc :=
  tickerScan (length (requests c) - S i) (S i) now c.

(** ** Connection establishment *)

(** The owner's fields [newConnection] and [login] read. *)
Record NetCProto := {
  urlHost : string;
  urlUser : option (string * string);   (* username, password *)
  urlPath : string;
  LoginTimeout : Z                      (* a time.Duration, in nanoseconds *)
}.

(** The connection literal of [newConnection] after its loop: the queue
    holds [0 .. queueSize-1], the slots hold Go's zero values. *)
Definition emptyConnection : connection :=
  {| conn := None; wrBuf := []; wrBuf2 := []; wrKick := false; rdBuf := [];
     seqs := map Z.of_nat (seq 0 (Z.to_nat queueSize));
     err := None; errCh := false; now := 0; termCh := false;
     requests := replicate (Z.to_nat queueSize) {| seqNum := 0; deadline := 0 |} |}.

(** Which dial [connect] makes, and what the network answers: a socket with
    the bytes the peer will send, or an error. *)
Inductive dialCall := Dial | DialTimeout (seconds : Z).
Inductive dialResult := DialOk (inbound : list byte) | DialFail (e : error).

(** The network and the scheduler as [newConnection] meets them: the answer
    to the dial; the number of ticks of the deadline ticker (started before
    the dial) that have passed when [newConnection] first loads [c.now]; and
    the number of ticks that pass between that load and the second one. *)
Record network := {
  dial : dialCall -> dialResult;
  dialTicks : nat;
  loadTicks : nat
}.

(** [net.Dial] for timeout 0, else [net.DialTimeout] with the timeout in
    seconds. *)
Definition dialCallOf (timeout : Z) : dialCall :=
  if timeout =? 0 then Dial else DialTimeout timeout.

Definition connect (c : connection) (timeout : Z) (net : network)
  : connection * option error :=
  let c := Nat.iter (dialTicks net) (fun c => fst (tickerTick c)) c in
  match dial net (dialCallOf timeout) with
  | DialFail e =>
      (c, Some (match e with
                | NetError true _ => BindingsError "Connect timeout" ErrTimeout
                | _ => e
                end))
  | DialOk inbound =>
      (set_rdBuf (set_conn c (Some {| closeCalls := 0 |})) inbound, None)
  end.

(** Where [newConnection] stands when it first blocks or returns: it has
    returned [(c, err)], or it is at the call [c.login(owner, timeout)]. *)
Inductive ncStage :=
| NCReturn (c : connection) (err : option error)
| NCLogin (c : connection) (timeout : Z).

(** [newConnection] up to the login.  The comparison [loginTimeout > now]
    and the subtraction [loginTimeout - now] each load [c.now], and the
    ticker runs between the two loads: the subtraction reads the clock
    [loadTicks] ticks after the comparison did. *)
Definition newConnection (owner : NetCProto) (net : network) : ncStage :=
  let c := emptyConnection in
  let loginTimeout := u32 (Z.quot (LoginTimeout owner) second) in
  match connect c loginTimeout net with
  | (c, Some e) => NCReturn (onError c e) (Some e)
  | (c, None) =>
      if negb (loginTimeout =? 0)
      then
        if loginTimeout >? now c
        then
          let c := Nat.iter (loadTicks net) (fun c => fst (tickerTick c)) c in
          NCLogin c (u32 (loginTimeout - now c))
        else NCReturn
               (onError c (BindingsError "Connect timeout" ErrTimeout)) None
      else NCLogin c loginTimeout
  end.

Definition stripSlash (path : string) : string :=
  match path with
  | String (Ascii.Ascii true true true true false true false false) rest =>
      rest                                                  (* path[0] == '/' *)
  | _ => path
  end.

Definition loginArgs (owner : NetCProto) : list arg :=
  let '(username, password) :=
    match urlUser owner with Some up => up | None => (""%string, ""%string) end in
  [ArgString username; ArgString password; ArgString (stripSlash (urlPath owner))].

(** [login] up to the [select] of its [rpcCall]. *)
Definition login_submit `{RPCCodec} (c : connection) (owner : NetCProto) (timeout : Z)
  : option (connection * callerPc) :=
  rpcCall_submit c None cmdLogin timeout (loginArgs owner).

(** [login] after its [rpcCall] returned [err]. *)
Definition login_return (c : connection) (err : option error)
  : connection * option error :=
  match err with
  | Some e =>
      (set_err c (Some (if hasCode e ErrTimeout
                        then BindingsError "Login timeout" ErrTimeout
                        else e)),
       Some e)
  | None => (c, None)
  end.

(** [newConnection] after [login] returned. *)
Definition newConnection_return (c : connection) (err : option error)
  : connection * option error :=
  match err with
  | Some e => (onError c e, Some e)
  | None => (c, None)
  end.

(** ** The step relation of one connection *)

Record caller := { netTimeoutOf : Z; pc : callerPc }.

Record world := {
  w_conn : connection;
  w_reader : readerPc;
  w_ticker : tickerPc;
  w_callers : list caller
}.

(** The steps: a goroutine enters [rpcCall]; the reader runs [readReply];
    the reader's send on a slot's reply channel meets the receive of caller
    [cid]; the ticker ticks; the ticker's send on a slot's timeout channel
    meets the receive of caller [cid]; caller [cid] receives from the closed
    failure channel; caller [cid] returns its slot and leaves; a goroutine
    outside this model (the writer, on a socket write error) calls
    [onError]; [Finalize]; [login], whose [rpcCall] was caller [cid] and
    returned an error, stores that error in [c.err] (without the lock and
    without looking at what is stored).

    [rpcCall] from its receive on the queue to its [select] is one step
    ([LCall]), and so is one tick of the ticker up to its first send: a tick
    that falls between two stores of one submission is not a run of this
    relation. *)
Inductive label :=
| LCall (ctx : option Z) (cmd netTimeout : Z) (args : list arg)
| LRead
| LReply (cid : nat)
| LTick
| LTimeout (cid : nat)
| LErrCh (cid : nat)
| LPush (cid : nat)
| LOnError (e : error)
| LFinalize
| LLoginErr (cid : nat).

Definition setCaller (w : world) (cid : nat) (p : callerPc) : list caller :=
  match w_callers w !! cid with
  | Some k => <[cid := {| netTimeoutOf := netTimeoutOf k; pc := p |}]> (w_callers w)
  | None => w_callers w
  end.

(** The sequence caller [cid] waits on, when it is in its [select]. *)
Definition waitingOn (w : world) (cid : nat) : option Z :=
  match w_callers w !! cid with
  | Some {| pc := CWait seq |} => Some seq
  | _ => None
  end.

Definition step `{RPCCodec} (l : label) (w : world) : option world :=
  match l with
  | LCall ctx cmd netTimeout args =>
      match rpcCall_submit (w_conn w) ctx cmd netTimeout args with
      | Some (c, p) =>
          Some {| w_conn := c; w_reader := w_reader w; w_ticker := w_ticker w;
                  w_callers := w_callers w ++
                                 [{| netTimeoutOf := netTimeout; pc := p |}] |}
      | None => None
      end
  | LRead =>
      match w_reader w with
      | RRun =>
          let '(c, r) := readLoop_iter (w_conn w) in
          Some {| w_conn := c; w_reader := r; w_ticker := w_ticker w;
                  w_callers := w_callers w |}
      | _ => None
      end
  | LReply cid =>
      match w_reader w, waitingOn w cid with
      | RSend reqID b, Some seq =>
          if bool_decide (reqID = slotOf seq)
          then
            let '(c, p) := rpcCall_wait (w_conn w) seq (RecvReply b) in
            Some {| w_conn := c; w_reader := RRun; w_ticker := w_ticker w;
                    w_callers := setCaller w cid p |}
          else None
      | _, _ => None
      end
  | LTick =>
      match w_ticker w with
      | TSleep =>
          let '(c, t) := tickerTick (w_conn w) in
          Some {| w_conn := c; w_reader := w_reader w; w_ticker := t;
                  w_callers := w_callers w |}
      | _ => None
      end
  | LTimeout cid =>
      match w_ticker w, waitingOn w cid with
      | TSend i seqNum now, Some seq =>
          if bool_decide (i = slotOf seq)
          then
            let '(c, p) := rpcCall_wait (w_conn w) seq (RecvTimeout seqNum) in
            let '(c, t) := tickerResume c i now in
            Some {| w_conn := c; w_reader := w_reader w; w_ticker := t;
                    w_callers := setCaller w cid p |}
          else None
      | _, _ => None
      end
  | LErrCh cid =>
      match errCh (w_conn w), waitingOn w cid with
      | true, Some seq =>
          let '(c, p) := rpcCall_wait (w_conn w) seq RecvErrCh in
          Some {| w_conn := c; w_reader := w_reader w; w_ticker := w_ticker w;
                  w_callers := setCaller w cid p |}
      | _, _ => None
      end
  | LPush cid =>
      match w_callers w !! cid with
      | Some {| pc := CPush seq buf err |} =>
          match rpcCall_finish (w_conn w) seq buf err with
          | Some (c, r) =>
              Some {| w_conn := c; w_reader := w_reader w; w_ticker := w_ticker w;
                      w_callers := setCaller w cid (CDone r) |}
          | None => None
          end
      | _ => None
      end
  | LOnError e =>
      Some {| w_conn := onError (w_conn w) e; w_reader := w_reader w;
              w_ticker := w_ticker w; w_callers := w_callers w |}
  | LFinalize =>
      match Finalize (w_conn w) with
      | Some c =>
          Some {| w_conn := c; w_reader := w_reader w;
                  w_ticker := w_ticker w; w_callers := w_callers w |}
      | None => None
      end
  | LLoginErr cid =>
      match w_callers w !! cid with
      | Some {| pc := CDone (Return _ (Some e)) |} =>
          Some {| w_conn := (login_return (w_conn w) (Some e)).1;
                  w_reader := w_reader w; w_ticker := w_ticker w;
                  w_callers := w_callers w |}
      | _ => None
      end
  end.

(** A run: the steps taken one after the other. *)
Fixpoint run `{RPCCodec} (ls : list label) (w : world) : option world :=
  match ls with
  | [] => Some w
  | l :: ls =>
      match step l w with
      | Some w => run ls w
      | None => None
      end
  end.

(** A connection after a successful dial, before any call: reader and
    ticker started, [inbound] the bytes the server will send. *)
Definition connected (inbound : list byte) : world :=
  {| w_conn := set_rdBuf (set_conn emptyConnection (Some {| closeCalls := 0 |})) inbound;
     w_reader := RRun; w_ticker := TSleep; w_callers := [] |}.

Definition reachable `{RPCCodec} (w : world) : Prop :=
  exists inbound ls, run ls (connected inbound) = Some w.

(** ** A concrete codec *)

Definition byteOfZ (z : Z) : byte :=
  default Byte.x00 (Byte.of_N (Z.to_N (z mod 256))).

(** [n] bytes of [z], least significant first. *)
Fixpoint putLE (n : nat) (z : Z) : list byte :=
  match n with
  | O => []
  | S n => byteOfZ z :: putLE n (z / 256)
  end.

(** The 16-byte frame header of the spec's data model: magic, version,
    reserved, payload size, sequence. *)
Definition frameHeader (version size seq : Z) : list byte :=
  putLE 4 cprotoMagic ++ putLE 2 version ++ putLE 2 0 ++ putLE 4 size ++ putLE 4 seq.

(** A reply frame as a server sends it. *)
Definition replyFrame (seq : Z) (payload : list byte) : list byte :=
  frameHeader cprotoVersion (Z.of_nat (length payload)) seq ++ payload.

(** Modelled from the spec: the encoder behind [newRPCEncoder] and
    [parseArgs] are outside the included sources.  The header is the spec's
    (section 3: little-endian, reserved zero on send); the spec names the
    kinds of tagged values but not their bytes, so the command code, the tags
    and the widths below are a stand-in layout, and [parseArgs] accepts every
    payload.  No theorem below depends on the layout past the header. *)
#[export] Instance specCodec : RPCCodec := {|
  rpcEncoder := list byte;
  newRPCEncoder := fun cmd seq => frameHeader cprotoVersion 0 seq ++ putLE 2 cmd;
  boolArg := fun ser t => ser ++ [Byte.x03; if t then Byte.x01 else Byte.x00];
  intArg := fun ser t => ser ++ Byte.x00 :: putLE 4 t;
  int64Arg := fun ser t => ser ++ Byte.x01 :: putLE 8 t;
  stringArg := fun ser t =>
    ser ++ Byte.x04 :: putLE 4 (Z.of_nat (String.length t))
        ++ String.list_byte_of_string t;
  bytesArg := fun ser t => ser ++ Byte.x04 :: putLE 4 (Z.of_nat (length t)) ++ t;
  int32ArrArg := fun ser t =>
    ser ++ Byte.x06 :: putLE 4 (Z.of_nat (length t)) ++ concat (map (putLE 4) t);
  startArgsChunck := fun ser => ser ++ [Byte.xff];
  serBytes := fun ser => ser;
  parseArgs := fun _ => None
|}.


(** ** Statements and scenarios used below *)

(** A header that passes the reader's three checks. *)
Definition headerAccepted (magic version rseq : Z) : Prop :=
  magic = cprotoMagic /\ cprotoMinCompatVersion <= version /\ 0 <= rseq < maxSeqNum.

(** "A stale reply has exactly its payload size drained": after an accepted
    header whose sequence is not the slot's, [readReply] returns no error,
    sends nothing, and has taken exactly [size] bytes off the stream. *)
Definition stale_reply_drains_exactly : Prop :=
  forall (c : connection) (hdr rest : list byte) (magic version size rseq : Z),
    rdBuf c = hdr ++ rest -> length hdr = Z.to_nat cprotoHdrLen ->
    decodeHdr hdr = (magic, version, size, rseq) ->
    headerAccepted magic version rseq ->
    loadSeqNum c (slotOf rseq) <> rseq ->
    exists payload rest',
      rest = payload ++ rest' /\ Z.of_nat (length payload) = size
      /\ readReply c = (set_rdBuf c rest', ReplyDiscarded).

(** "An argument of an unsupported kind fails the call before any byte
    reaches the writer": the call returns an error and the write buffer is
    as it was. *)
Definition unsupported_arg_rejected `{RPCCodec} : Prop :=
  forall (c c' : connection) (ctx : option Z) (cmd netTimeout : Z)
         (args : list arg) (p : callerPc),
    existsb (fun a => negb (argSupported a)) args = true ->
    rpcCall_submit c ctx cmd netTimeout args = Some (c', p) ->
    (exists e, p = CDone (Return None (Some e))) /\ wrBuf c' = wrBuf c.

(** A context whose deadline passed [ns] nanoseconds ago. *)
Definition expiredCtx (ns : Z) : option Z := Some (- ns).

(** [n] calls of [ping] without arguments, each with a context whose
    deadline has passed. *)
Definition canceledCalls (n : nat) : list label :=
  replicate n (LCall (expiredCtx 1) cmdPing 0 []).

(** A request with a 5 second deadline is answered at once; 39 requests
    without deadline take the other slots; a request without deadline then
    takes the first slot again; the ticker ticks five times, its send is
    received, and the caller leaves. *)
Definition staleDeadlineRun : list label :=
  [LCall None cmdPing 5 []; LRead; LReply 0; LPush 0]
  ++ replicate 39 (LCall None cmdPing 0 [])
  ++ [LCall None cmdPing 0 []]
  ++ replicate 5 LTick
  ++ [LTimeout 40; LPush 40].

(** ** Ownership of sequences *)

(** The sequence a caller holds: from its acquisition to its release. *)
Definition heldSeq (k : caller) : option Z :=
  match pc k with
  | CWait s | CPush s _ _ => Some s
  | CDone _ => None
  end.

(** The sequences in the queue and in callers' hands. *)
Definition owned (c : connection) (ks : list caller) : list Z :=
  seqs c ++ omap heldSeq ks.

(** The slot table is consistent: it has [queueSize] slots; every sequence
    in the queue or in a caller's hands is in [[0, MAX)]; no two of them
    share a slot; and a caller in its wait loop has its sequence published
    in its slot. *)
Definition consistent (c : connection) (ks : list caller) : Prop :=
  length (requests c) = Z.to_nat queueSize
  /\ Forall (fun s => 0 <= s < maxSeqNum) (owned c ks)
  /\ NoDup (slotOf <$> owned c ks)
  /\ (forall cid k seq, ks !! cid = Some k -> pc k = CWait seq ->
        loadSeqNum c (slotOf seq) = seq).

(** The first 44 steps of [staleDeadlineRun]: up to the second call on the
    first slot. *)
Definition staleDeadlineSetup : list label := take 44 staleDeadlineRun.

(** An owner with a 5 second login timeout; a network whose dial takes
    two ticks and then succeeds; and one whose dial takes four ticks, with a
    fifth tick between the two loads of the clock. *)
Definition owner5s : NetCProto :=
  {| urlHost := "localhost:6534"; urlUser := Some ("user"%string, "pass"%string);
     urlPath := "/db"; LoginTimeout := 5 * second |}.

Definition slowNet : network :=
  {| dial := fun _ => DialOk []; dialTicks := 2; loadTicks := 0 |}.

Definition racedNet : network :=
  {| dial := fun _ => DialOk []; dialTicks := 4; loadTicks := 1 |}.

(** The caller of a call that returned Canceled at submission. *)
Definition canceledCaller : caller :=
  {| netTimeoutOf := 0;
     pc := CDone (Return None
             (Some (BindingsError "Request was canceled" ErrCanceled))) |}.

(** A fresh connection after [n] calls that were canceled at submission,
    [q] the queue that is left. *)
Definition afterCanceled (inbound : list byte) (n : nat) (q : list Z) : world :=
  {| w_conn := set_seqs (w_conn (connected inbound)) q;
     w_reader := RRun; w_ticker := TSleep;
     w_callers := replicate n canceledCaller |}.

(** A request on the first slot that has been answered and has reset its
    slot, before it returns its sequence. *)
Definition answeredRun : list label := [LCall None cmdPing 5 []; LRead; LReply 0].

(** ** The writer goroutine *)

(** [c.wrBuf, c.wrBuf2 = c.wrBuf2, c.wrBuf] *)
Definition swapBufs (c : connection) : connection :=
  {| conn := conn c; wrBuf := wrBuf2 c; wrBuf2 := wrBuf c; wrKick := wrKick c;
     rdBuf := rdBuf c; seqs := seqs c; err := err c; errCh := errCh c;
     now := now c; termCh := termCh c; requests := requests c |}.

Definition set_wrBuf2 (c : connection) (v : list byte) : connection :=
  {| conn := conn c; wrBuf := wrBuf c; wrBuf2 := v; wrKick := wrKick c;
     rdBuf := rdBuf c; seqs := seqs c; err := err c; errCh := errCh c;
     now := now c; termCh := termCh c; requests := requests c |}.

(** The two halves of [write], which another goroutine can run between:
    the append under the lock, and the send on [wrKick] that never blocks
    (the channel holds one element; [default] when it is full). *)
Definition appendBuf (c : connection) (b : list byte) : connection :=
  set_wr c (wrBuf c ++ b) (wrKick c).

Definition kickSend (c : connection) : connection :=
  set_wr c (wrBuf c) true.

(** The writer: at the [select] at the head of its loop, at [c.lock.Lock()]
    after it received from [wrKick], at [c.wrBuf2.WriteTo(c.conn)] after the
    swap, or returned. *)
Inductive writerPc := WSelect | WLock | WWriteTo | WExit.

(** The case the writer's [select] takes. *)
Inductive writerWake := WakeErrCh | WakeKick.

(** The [select] of [writeLoop].  [None]: the case is not ready. *)
Definition writeLoop_select (c : connection) (wake : writerWake)
  : option (connection * writerPc) :=
  match wake with
  | WakeErrCh => if errCh c then Some (c, WExit) else None
  | WakeKick => if wrKick c then Some (set_wr c (wrBuf c) false, WLock) else None
  end.

(** [writeLoop] under the lock: with nothing to write it goes back to the
    [select], or returns when an error is stored; else it swaps the
    buffers. *)
Definition writeLoop_locked (c : connection) : connection * writerPc :=
  match wrBuf c with
  | [] =>
      match err c with
      | None => (c, WSelect)
      | Some _ => (c, WExit)
      end
  | _ :: _ => (swapBufs c, WWriteTo)
  end.

(** What the socket does with a write: it takes everything, or it takes
    [n] bytes and fails. *)
Inductive sockWrite := WriteOk | WriteFail (n : nat) (e : error).

(** [c.wrBuf2.WriteTo(c.conn)] and what follows: the connection, the bytes
    that reached the socket, and where the writer goes.  [bytes.Buffer]'s
    [WriteTo] leaves the buffer empty on success and advanced by the bytes
    written on failure. *)
Definition writeLoop_writeTo (c : connection) (res : sockWrite)
  : connection * list byte * writerPc :=
  match res with
  | WriteOk => (set_wrBuf2 c [], wrBuf2 c, WSelect)
  | WriteFail n e =>
      (onError (set_wrBuf2 c (drop n (wrBuf2 c))) e, take n (wrBuf2 c), WExit)
  end.

(** The outbound side of a connection: the connection, the writer, the
    bytes that have reached the socket, and the number of goroutines inside
    [write] that have appended and not yet kicked. *)
Record outbound := {
  o_conn : connection;
  o_writer : writerPc;
  o_sent : list byte;
  o_kicking : nat
}.

(** Its steps: some goroutine enters [write] and appends; a goroutine that
    has appended kicks; the writer's [select] takes a case; the writer takes
    the lock; the socket write ends; some goroutine calls [onError]. *)
Inductive wlabel :=
| WAppend (b : list byte)
| WKick
| WWake (wake : writerWake)
| WLocked
| WSock (res : sockWrite)
| WOnError (e : error).

Definition wstep (l : wlabel) (o : outbound) : option outbound :=
  match l with
  | WAppend b =>
      Some {| o_conn := appendBuf (o_conn o) b; o_writer := o_writer o;
              o_sent := o_sent o; o_kicking := S (o_kicking o) |}
  | WKick =>
      match o_kicking o with
      | S n =>
          Some {| o_conn := kickSend (o_conn o); o_writer := o_writer o;
                  o_sent := o_sent o; o_kicking := n |}
      | O => None
      end
  | WWake wake =>
      match o_writer o with
      | WSelect =>
          match writeLoop_select (o_conn o) wake with
          | Some (c, p) =>
              Some {| o_conn := c; o_writer := p; o_sent := o_sent o;
                      o_kicking := o_kicking o |}
          | None => None
          end
      | _ => None
      end
  | WLocked =>
      match o_writer o with
      | WLock =>
          let '(c, p) := writeLoop_locked (o_conn o) in
          Some {| o_conn := c; o_writer := p; o_sent := o_sent o;
                  o_kicking := o_kicking o |}
      | _ => None
      end
  | WSock res =>
      match o_writer o with
      | WWriteTo =>
          let '(c, out, p) := writeLoop_writeTo (o_conn o) res in
          Some {| o_conn := c; o_writer := p; o_sent := o_sent o ++ out;
                  o_kicking := o_kicking o |}
      | _ => None
      end
  | WOnError e =>
      Some {| o_conn := onError (o_conn o) e; o_writer := o_writer o;
              o_sent := o_sent o; o_kicking := o_kicking o |}
  end.

Fixpoint wrun (ls : list wlabel) (o : outbound) : option outbound :=
  match ls with
  | [] => Some o
  | l :: ls =>
      match wstep l o with
      | Some o => wrun ls o
      | None => None
      end
  end.

(** The bytes handed to [write] along a run, in order. *)
Definition written (ls : list wlabel) : list byte :=
  concat (omap (fun l => match l with WAppend b => Some b | _ => None end) ls).

(** The outbound side when [connect] starts the writer. *)
Definition outboundStart (inbound : list byte) : outbound :=
  {| o_conn := w_conn (connected inbound); o_writer := WSelect; o_sent := [];
     o_kicking := 0 |}.

(** ** The ticker's view of a slot *)

(** Slot [i] is due at [now]: its sequence is valid, its deadline is set
    and has been reached. *)
Definition overdue (c : connection) (now : Z) (i : nat) : bool :=
  seqNumIsValid (loadSeqNum c i)
  && negb (loadDeadline c i =? 0) && (now >=? loadDeadline c i).

(** A caller's result, once it has returned. *)
Definition resultOf (k : caller) : option rpcResult :=
  match pc k with CDone r => Some r | _ => None end.

(** The rank of a caller's position in [rpcCall]. *)
Definition pcRank (p : callerPc) : nat :=
  match p with CWait _ => 0 | CPush _ _ _ => 1 | CDone _ => 2 end.

(** The login is submitted with a one second timeout; the tick finds it
    due; some goroutine reports a socket error. *)
Definition failedLoginRun : list label :=
  [LCall None cmdLogin 1 (loginArgs owner5s); LTick; LOnError IoEOF].

(** The login's call then takes the ticker's signal, returns Timeout, and
    [login] stores its error. *)
Definition lateLoginRun : list label := [LTimeout 0; LPush 0; LLoginErr 0].

(** One call without deadline on a fresh connection. *)
Definition pingRun : list label := [LCall None cmdPing 0 []].

(** One call with a one second deadline on a fresh connection. *)
Definition deadlineRun : list label := [LCall None cmdPing 1 []].

(** The outbound side accounts for [log], the bytes handed to [write] so
    far: they are, in order, the bytes on the socket, the bytes of the buffer
    being flushed and the bytes of the buffer being filled; the flush buffer
    is empty while the writer is at its [select] or at the lock; and while
    the writer is at its [select] or in the socket write, pending bytes come
    with a kick that is asserted or still to be made by a goroutine that has
    appended. *)
Definition outboundOk (o : outbound) (log : list byte) : Prop :=
  o_sent o ++ wrBuf2 (o_conn o) ++ wrBuf (o_conn o) = log
  /\ (o_writer o = WSelect \/ o_writer o = WLock -> wrBuf2 (o_conn o) = [])
  /\ (o_writer o = WSelect \/ o_writer o = WWriteTo ->
      wrBuf (o_conn o) <> [] ->
      wrKick (o_conn o) = true \/ (0 < o_kicking o)%nat).

(** A frame is appended and the kick made, the writer wakes and swaps, the
    socket takes the frame. *)
Definition flushRun : list wlabel :=
  [WAppend [Byte.x01; Byte.x02]; WKick; WWake WakeKick; WLocked; WSock WriteOk].

(** A frame is appended; its kick is still to be made. *)
Definition appendedRun : list wlabel := [WAppend [Byte.x01; Byte.x02]].

(** A network whose dial times out after three ticks. *)
Definition deadNet : network :=
  {| dial := fun _ => DialFail (NetError true "i/o timeout"); dialTicks := 3;
     loadTicks := 0 |}.

(** A call with a one second deadline, then the tick that finds it due. *)
Definition blockedRun : list label := [LCall None cmdPing 1 []; LTick].
(** * Properties *)

(** ** Sequence numbers *)

Lemma seqNumIsValid_lt (s : Z) : seqNumIsValid s = true <-> s < maxSeqNum.
Proof.
  unfold seqNumIsValid. destruct (Z.ltb_spec s maxSeqNum); split; intros; try done; lia.
Qed.

Lemma nextSeqNum_cases (s : Z) :
  0 <= s < maxSeqNum ->
  (s + queueSize < maxSeqNum /\ nextSeqNum s = s + queueSize) \/
  (maxSeqNum <= s + queueSize /\ nextSeqNum s = s + queueSize - maxSeqNum).
Proof.
  intros Hs. unfold nextSeqNum, u32, maxSeqNum, queueSize in *.
  rewrite (Z.mod_small (s + 40)) by lia.
  destruct (Z.ltb_spec (s + 40) (40 * 10000000)); [left | right]; split; try lia.
  rewrite Z.mod_small by lia. reflexivity.
Qed.

Lemma nextSeqNum_range (s : Z) :
  0 <= s < maxSeqNum -> 0 <= nextSeqNum s < maxSeqNum.
Proof.
  intros Hs. destruct (nextSeqNum_cases s Hs) as [[? ->] | [? ->]];
    unfold maxSeqNum, queueSize in *; lia.
Qed.

Lemma nextSeqNum_slot (s : Z) :
  0 <= s < maxSeqNum -> slotOf (nextSeqNum s) = slotOf s.
Proof.
  intros Hs. unfold slotOf. f_equal.
  destruct (nextSeqNum_cases s Hs) as [[? ->] | [? ->]]; unfold maxSeqNum, queueSize.
  - replace (s + 40) with (s + 1 * 40) by lia. apply Z.mod_add. lia.
  - replace (s + 40 - 40 * 10000000) with (s + (-9999999) * 40) by lia.
    apply Z.mod_add. lia.
Qed.

(** C4. For every sequence [s] in [[0, MAX)] the successor computed on
    release is [(s + pipeline_depth) mod MAX]; it lies in [[0, MAX)], maps to
    the slot of [s], and differs from [s]; and the release of a request on
    [s] (the send after the wait loop, in [rpcCall_finish] and as the step
    [LPush]) appends exactly this value to the queue of available sequences,
    which it can always do when the queue has room. *)
Theorem nextSeqNum_release `{RPCCodec} (s : Z) :
  0 <= s < maxSeqNum ->
  nextSeqNum s = (s + queueSize) mod maxSeqNum
  /\ 0 <= nextSeqNum s < maxSeqNum
  /\ nextSeqNum s mod queueSize = s mod queueSize
  /\ nextSeqNum s <> s
  /\ (forall c ev buf err,
        select_case c s ev = Some (buf, err) ->
        rpcCall_wait c s ev = (storeSeqNum c (slotOf s) maxSeqNum, CPush s buf err))
  /\ (forall c buf err,
        (length (seqs c) < Z.to_nat queueSize)%nat ->
        exists r, rpcCall_finish c s buf err
                  = Some (set_seqs c (seqs c ++ [nextSeqNum s]), r))
  /\ (forall w cid k buf err w',
        w_callers w !! cid = Some k -> pc k = CPush s buf err ->
        step (LPush cid) w = Some w' ->
        seqs (w_conn w') = seqs (w_conn w) ++ [nextSeqNum s]).
Proof.
  intros Hs.
  assert (Hslot := nextSeqNum_slot s Hs).
  assert (Hrange := nextSeqNum_range s Hs).
  repeat split; try apply Hrange.
  - destruct (nextSeqNum_cases s Hs) as [[? ->] | [? ->]].
    + rewrite Z.mod_small; [reflexivity | unfold maxSeqNum, queueSize in *; lia].
    + unfold maxSeqNum, queueSize in *.
      replace (s + 40) with (s + 40 - 40 * 10000000 + 1 * (40 * 10000000)) at 2 by lia.
      rewrite Z.mod_add by lia. rewrite Z.mod_small by lia. reflexivity.
  - unfold slotOf in Hslot. apply Z2Nat.inj in Hslot; [exact Hslot | |];
      apply Z.mod_pos_bound; unfold queueSize; lia.
  - destruct (nextSeqNum_cases s Hs) as [[? E] | [? E]]; rewrite E;
      unfold maxSeqNum, queueSize; lia.
  - intros c ev buf err Hsel. unfold rpcCall_wait.
    rewrite Hsel. reflexivity.
  - intros c buf err Hlen. unfold rpcCall_finish.
    apply Nat.ltb_lt in Hlen. rewrite Hlen.
    destruct err, buf; eauto.
  - intros w cid [nt p] buf err w' Hk Hp Hstep. simpl in Hp. subst p.
    simpl in Hstep. rewrite Hk in Hstep.
    unfold rpcCall_finish in Hstep.
    destruct (length (seqs (w_conn w)) <? Z.to_nat queueSize)%nat; [| done].
    destruct err, buf; inversion Hstep; reflexivity.
Qed.

Lemma nextSeqNum_release_wraps :
  0 <= 399999975 < maxSeqNum
  /\ nextSeqNum 399999975 = (399999975 + queueSize) mod maxSeqNum
  /\ nextSeqNum 399999975 = 15.
Proof.
  assert (Hs : 0 <= 399999975 < maxSeqNum) by (unfold maxSeqNum, queueSize; lia).
  split; [exact Hs |].
  split; [exact (proj1 (@nextSeqNum_release specCodec 399999975 Hs)) | reflexivity].
Defined.

(** ** The failure transition *)

Lemma onError_first (c : connection) (e : error) :
  err c = None ->
  onError c e =
    {| conn := (fun k => {| closeCalls := S (closeCalls k) |}) <$> conn c;
       wrBuf := wrBuf c; wrBuf2 := wrBuf2 c; wrKick := wrKick c;
       rdBuf := rdBuf c; seqs := seqs c; err := Some e; errCh := true;
       now := now c; termCh := termCh c; requests := requests c |}.
Proof.
  destruct c as [cn wb wb2 wk rb sq er ech nw tch rq]. simpl. intros ->.
  unfold onError, closeConn. simpl. destruct cn as [k |]; simpl; destruct ech; reflexivity.
Qed.

Lemma onError_failed (c : connection) (e : error) :
  err c <> None -> onError c e = c.
Proof. unfold onError. destruct (err c); done. Qed.

Lemma onError_hasError (c : connection) (e : error) : hasError (onError c e) = true.
Proof.
  unfold hasError. destruct (err c) as [e0 |] eqn:Herr.
  - rewrite onError_failed by congruence. rewrite Herr. reflexivity.
  - rewrite onError_first by exact Herr. reflexivity.
Qed.

(** C9. [onError] is one-shot: on a connection without stored error it
    stores the error, calls [Close] on the socket once (when there is one),
    and leaves the failure channel closed, touching nothing else; on a
    connection that already stores an error it changes nothing, whatever the
    error; so a second [onError] after a first is the identity. *)
Theorem onError_one_shot (c : connection) (e e' : error) :
  (err c = None ->
     onError c e =
       {| conn := (fun k => {| closeCalls := S (closeCalls k) |}) <$> conn c;
          wrBuf := wrBuf c; wrBuf2 := wrBuf2 c; wrKick := wrKick c;
          rdBuf := rdBuf c; seqs := seqs c; err := Some e; errCh := true;
          now := now c; termCh := termCh c; requests := requests c |})
  /\ (err c <> None -> onError c e' = c)
  /\ onError (onError c e) e' = onError c e
  /\ hasError (onError c e) = true.
Proof.
  split; [apply onError_first |]. split; [apply onError_failed |].
  split; [| apply onError_hasError].
  apply onError_failed. pose proof (onError_hasError c e) as Hh.
  unfold hasError in Hh. destruct (err (onError c e)); done.
Qed.

(** ** The waiter's loop *)

Lemma waitingOn_pc (w : world) (cid : nat) (seq : Z) :
  waitingOn w cid = Some seq <->
  exists k, w_callers w !! cid = Some k /\ pc k = CWait seq.
Proof.
  unfold waitingOn. destruct (w_callers w !! cid) as [[nt p] |]; simpl.
  - destruct p; split; try done.
    + intros [= ->]. eauto.
    + intros (k & [= <-] & Hp). simpl in Hp. congruence.
    + intros (k & [= <-] & Hp). simpl in Hp. congruence.
    + intros (k & [= <-] & Hp). simpl in Hp. congruence.
  - split; [done | intros (k & ? & _); done].
Qed.

Lemma setCaller_lookup (w : world) (cid cid' : nat) (p : callerPc) :
  setCaller w cid' p !! cid =
    if decide (cid = cid')
    then (fun k => {| netTimeoutOf := netTimeoutOf k; pc := p |}) <$> w_callers w !! cid
    else w_callers w !! cid.
Proof.
  unfold setCaller. destruct (decide (cid = cid')) as [-> | NE].
  - destruct (w_callers w !! cid') as [k |] eqn:Hk; simpl.
    + apply list_lookup_insert_eq. eapply lookup_lt_Some; eauto.
    + exact Hk.
  - destruct (w_callers w !! cid') as [k |]; [| reflexivity].
    apply list_lookup_insert_ne. congruence.
Qed.

Lemma waitingOn_callers (w w' : world) (cid : nat) :
  w_callers w' !! cid = w_callers w !! cid -> waitingOn w' cid = waitingOn w cid.
Proof. unfold waitingOn. intros ->. reflexivity. Qed.

(** What [Finalize] and [login]'s store of its error do to the state. *)
Lemma step_LFinalize `{RPCCodec} (w w' : world) :
  step LFinalize w = Some w' ->
  termCh (w_conn w) = false
  /\ w' = {| w_conn := set_termCh (w_conn w) true; w_reader := w_reader w;
             w_ticker := w_ticker w; w_callers := w_callers w |}.
Proof.
  simpl. unfold Finalize. destruct (termCh (w_conn w)); [done |].
  intros [= <-]. done.
Qed.

Lemma step_LLoginErr `{RPCCodec} (cid : nat) (w w' : world) :
  step (LLoginErr cid) w = Some w' ->
  exists k buf e,
    w_callers w !! cid = Some k /\ pc k = CDone (Return buf (Some e))
    /\ w' = {| w_conn := set_err (w_conn w)
                           (Some (if hasCode e ErrTimeout
                                  then BindingsError "Login timeout" ErrTimeout
                                  else e));
               w_reader := w_reader w; w_ticker := w_ticker w;
               w_callers := w_callers w |}.
Proof.
  simpl. destruct (w_callers w !! cid) as [[nt p] |]; [| done].
  destruct p as [| | [buf [e |] |]]; try done.
  intros [= <-]. exists {| netTimeoutOf := nt; pc := CDone (Return buf (Some e)) |}, buf, e.
  done.
Qed.

(** A step of another caller, or a step that resolves nobody, leaves a
    waiter where it is; a step that takes caller [cid] out of its loop on
    [seq] puts it at the release with the loop's result. *)
Lemma step_waiter `{RPCCodec} (l : label) (w w' : world) (cid : nat) (seq : Z) :
  waitingOn w cid = Some seq -> step l w = Some w' ->
  waitingOn w' cid = Some seq
  \/ exists ev buf err k',
       select_case (w_conn w) seq ev = Some (buf, err)
       /\ w_callers w' !! cid = Some k' /\ pc k' = CPush seq buf err
       /\ ((exists i b, l = LReply cid /\ w_reader w = RSend i b /\ ev = RecvReply b)
           \/ (l = LErrCh cid /\ errCh (w_conn w) = true /\ ev = RecvErrCh)
           \/ (exists i t nw, l = LTimeout cid /\ w_ticker w = TSend i t nw
                              /\ ev = RecvTimeout t)).
Proof.
  intros Hwo Hstep.
  destruct (proj1 (waitingOn_pc w cid seq) Hwo) as (k & Hk & Hp).
  assert (Hother : forall cid' p r t c,
            cid' <> cid ->
            waitingOn {| w_conn := c; w_reader := r; w_ticker := t;
                         w_callers := setCaller w cid' p |} cid = Some seq).
  { intros cid' p r t c NE. rewrite <- Hwo. apply waitingOn_callers. simpl.
    rewrite setCaller_lookup. destruct (decide (cid = cid')); [congruence | done]. }
  assert (Hself : forall ev c c' p r t,
            rpcCall_wait (w_conn w) seq ev = (c, p) ->
            let w1 := {| w_conn := c'; w_reader := r; w_ticker := t;
                         w_callers := setCaller w cid p |} in
            waitingOn w1 cid = Some seq
            \/ exists buf err k',
                 select_case (w_conn w) seq ev = Some (buf, err)
                 /\ w_callers w1 !! cid = Some k' /\ pc k' = CPush seq buf err).
  { intros ev c c' p r t Hwait w1. unfold rpcCall_wait in Hwait.
    destruct (select_case (w_conn w) seq ev) as [[buf err] |];
      injection Hwait as <- <-.
    - right. exists buf, err. eexists. split; [reflexivity |]. unfold w1. simpl.
      rewrite setCaller_lookup, Hk. destruct (decide (cid = cid)); [| done].
      simpl. done.
    - left. apply waitingOn_pc. unfold w1. simpl.
      rewrite setCaller_lookup, Hk. destruct (decide (cid = cid)); [| done].
      simpl. eauto. }
  destruct l as [ctx cmd nt args | | cid' | | cid' | cid' | cid' | e | | cid'];
    [simpl in Hstep .. | |].
  - left. destruct (rpcCall_submit _ _ _ _ _) as [[c p] |]; [| done].
    injection Hstep as <-. rewrite <- Hwo. apply waitingOn_callers. simpl.
    apply lookup_app_l. eapply lookup_lt_Some; eauto.
  - left. destruct (w_reader w); try done.
    destruct (readLoop_iter (w_conn w)) as [c r]. injection Hstep as <-. exact Hwo.
  - destruct (waitingOn w cid') as [seq' |] eqn:Hwo';
      destruct (w_reader w) as [| i b |]; try done.
    case_bool_decide; [| done].
    destruct (rpcCall_wait (w_conn w) seq' (RecvReply b)) as [c p] eqn:E.
    injection Hstep as <-.
    destruct (decide (cid' = cid)) as [-> | NE]; [| left; apply Hother; exact NE].
    rewrite Hwo in Hwo'. injection Hwo' as <-.
    destruct (Hself (RecvReply b) c c p RRun (w_ticker w) E) as [? | (buf & err & k' & ? & ? & ?)];
      [left; done |].
    right. exists (RecvReply b), buf, err, k'. repeat split; try done. left. eauto.
  - left. destruct (w_ticker w); try done.
    destruct (tickerTick (w_conn w)) as [c t]. injection Hstep as <-. exact Hwo.
  - destruct (waitingOn w cid') as [seq' |] eqn:Hwo';
      destruct (w_ticker w) as [| i sn nw |]; try done.
    case_bool_decide; [| done].
    destruct (rpcCall_wait (w_conn w) seq' (RecvTimeout sn)) as [c p] eqn:E.
    destruct (tickerResume c i nw) as [c2 t]. injection Hstep as <-.
    destruct (decide (cid' = cid)) as [-> | NE]; [| left; apply Hother; exact NE].
    rewrite Hwo in Hwo'. injection Hwo' as <-.
    destruct (Hself (RecvTimeout sn) c c2 p (w_reader w) t E) as [? | (buf & err & k' & ? & ? & ?)];
      [left; done |].
    right. exists (RecvTimeout sn), buf, err, k'. repeat split; try done.
    right. right. exists i, sn, nw. done.
  - destruct (waitingOn w cid') as [seq' |] eqn:Hwo';
      destruct (errCh (w_conn w)) eqn:Hech; try done.
    destruct (rpcCall_wait (w_conn w) seq' RecvErrCh) as [c p] eqn:E.
    simpl in E. injection E as <- <-. injection Hstep as <-.
    destruct (decide (cid' = cid)) as [-> | NE]; [| left; apply Hother; exact NE].
    rewrite Hwo in Hwo'. injection Hwo' as <-.
    right. exists RecvErrCh, None, (err (w_conn w)). eexists.
    split; [reflexivity |]. simpl. rewrite setCaller_lookup, Hk.
    destruct (decide (cid = cid)); [| done]. simpl.
    split; [reflexivity |]. split; [reflexivity |]. right. left. done.
  - left. destruct (w_callers w !! cid') as [[nt p] |] eqn:Hk'; [| done].
    destruct p as [| seq' buf err |]; try done.
    destruct (rpcCall_finish _ _ _ _) as [[c r] |]; [| done]. injection Hstep as <-.
    apply Hother. intros ->. rewrite Hk in Hk'. injection Hk' as ->. done.
  - left. injection Hstep as <-. exact Hwo.
  - left. apply step_LFinalize in Hstep as [_ ->]. exact Hwo.
  - left. apply step_LLoginErr in Hstep as (? & ? & ? & _ & _ & ->). exact Hwo.
Qed.

(** C7. A waiter on [seq] leaves its loop only on a reply that carries [seq]
    (with that reply's buffer), on the failure channel (with the stored
    error), or on a timeout signal that carries [seq] (with Timeout); a reply
    or timeout signal with another sequence leaves the connection and the
    waiter as they were; the loop's result is that of the first event that
    resolves it; and in the step relation a caller waiting on [seq] is still
    waiting on [seq] after any step, unless the step is its own receive of
    one of these three events. *)
Theorem waiter_resolves_on_own_events `{RPCCodec} (c : connection) (seq : Z) :
  (forall ev r,
     select_case c seq ev = Some r <->
       (exists b, ev = RecvReply b /\ rseq b = seq /\ r = (Some (bufp b), None))
       \/ (ev = RecvErrCh /\ r = (None, err c))
       \/ (ev = RecvTimeout seq
           /\ r = (None, Some (BindingsError "Request timeout" ErrTimeout))))
  /\ (forall b, rseq b <> seq -> rpcCall_wait c seq (RecvReply b) = (c, CWait seq))
  /\ (forall t, t <> seq -> rpcCall_wait c seq (RecvTimeout t) = (c, CWait seq))
  /\ (forall evs r rest,
        for_loop c seq evs = Some (r, rest) <->
        exists pre ev, evs = pre ++ ev :: rest
                       /\ Forall (fun e => select_case c seq e = None) pre
                       /\ select_case c seq ev = Some r)
  /\ (forall l w w' cid,
        waitingOn w cid = Some seq -> step l w = Some w' ->
        waitingOn w' cid = Some seq
        \/ exists buf er k',
             w_callers w' !! cid = Some k' /\ pc k' = CPush seq buf er
             /\ ((exists i b, l = LReply cid /\ w_reader w = RSend i b
                              /\ rseq b = seq /\ buf = Some (bufp b) /\ er = None)
                 \/ (l = LErrCh cid /\ errCh (w_conn w) = true
                     /\ buf = None /\ er = err (w_conn w))
                 \/ (exists i nw, l = LTimeout cid /\ w_ticker w = TSend i seq nw
                                  /\ buf = None
                                  /\ er = Some (BindingsError "Request timeout"
                                                  ErrTimeout)))).
Proof.
  assert (Hcase : forall c ev r,
     select_case c seq ev = Some r <->
       (exists b, ev = RecvReply b /\ rseq b = seq /\ r = (Some (bufp b), None))
       \/ (ev = RecvErrCh /\ r = (None, err c))
       \/ (ev = RecvTimeout seq
           /\ r = (None, Some (BindingsError "Request timeout" ErrTimeout)))).
  2: split; [apply Hcase | split; [| split; [| split]]].
  - clear c. intros c ev r. destruct ev as [b | | t]; simpl.
    + destruct (Z.eqb_spec (rseq b) seq) as [E | NE]; split.
      * intros [= <-]. left. eauto.
      * intros [(b' & [= <-] & _ & ->) | [[? _] | [? _]]]; done.
      * done.
      * intros [(b' & [= <-] & E & _) | [[? _] | [? _]]]; done.
    + split.
      * intros [= <-]. right. left. done.
      * intros [(b' & ? & _) | [[_ ->] | [? _]]]; done.
    + destruct (Z.eqb_spec t seq) as [E | NE]; split.
      * intros [= <-]. right. right. subst. done.
      * intros [(b' & ? & _) | [[? _] | [_ ->]]]; done.
      * done.
      * intros [(b' & ? & _) | [[? _] | [[= E] _]]]; done.
  - intros b NE. unfold rpcCall_wait. simpl.
    destruct (Z.eqb_spec (rseq b) seq); done.
  - intros t NE. unfold rpcCall_wait. simpl.
    destruct (Z.eqb_spec t seq); done.
  - induction evs as [| ev evs IH]; intros r rest; simpl.
    + split; [done |]. intros (pre & ev & E & _). destruct pre; done.
    + destruct (select_case c seq ev) as [r0 |] eqn:Hsel.
      * split.
        -- intros [= <- <-]. exists [], ev. done.
        -- intros (pre & ev' & E & Hpre & Hev). destruct pre as [| p pre].
           ++ simpl in E. injection E as <- <-. congruence.
           ++ simpl in E. injection E as <- _. inversion Hpre; congruence.
      * rewrite IH. split.
        -- intros (pre & ev' & -> & Hpre & Hev). exists (ev :: pre), ev'.
           split; [done |]. split; [constructor; done | done].
        -- intros (pre & ev' & E & Hpre & Hev). destruct pre as [| p pre].
           ++ simpl in E. injection E as <- <-. congruence.
           ++ simpl in E. injection E as <- ->. inversion Hpre; subst. eauto.
  - intros l w w' cid Hwo Hstep.
    destruct (step_waiter l w w' cid seq Hwo Hstep)
      as [? | (ev & buf & err & k' & Hs & Hk' & Hp' & Hl)]; [left; done |].
    right. exists buf, err, k'. split; [exact Hk' |]. split; [exact Hp' |].
    apply Hcase in Hs.
    destruct Hl as [(i & b & -> & Hrd & ->) | [(-> & Hech & ->) | (i & t & nw & -> & Htk & ->)]].
    + left. destruct Hs as [(b' & [= <-] & Hb & [= -> ->]) | [[? _] | [? _]]]; try done.
      exists i, b. done.
    + right. left. destruct Hs as [(b' & ? & _) | [[_ [= -> ->]] | [? _]]]; try done.
    + right. right. destruct Hs as [(b' & ? & _) | [[? _] | [[= ->] [= -> ->]]]]; try done.
      exists i, nw. done.
Qed.

(** ** The reader *)

Lemma ReadFull_app (hdr rest : list byte) :
  ReadFull (hdr ++ rest) (length hdr) = (hdr, rest, None).
Proof.
  unfold ReadFull. rewrite length_app.
  destruct (Nat.leb_spec (length hdr) (length hdr + length rest)); [| lia].
  rewrite take_app_length, drop_app_length. reflexivity.
Qed.

Lemma getLE_nonneg (bs : list byte) : 0 <= getLE bs.
Proof.
  induction bs as [| b bs IH]; simpl; [lia |].
  apply Z.lor_nonneg. split.
  - unfold byteZ. lia.
  - apply Z.shiftl_nonneg. exact IH.
Qed.

Lemma decodeHdr_nonneg (hdr : list byte) (magic version size rseq : Z) :
  decodeHdr hdr = (magic, version, size, rseq) ->
  0 <= magic /\ 0 <= version /\ 0 <= size /\ 0 <= rseq.
Proof.
  unfold decodeHdr, GetUInt32, GetUInt16. intros [= <- <- <- <-].
  repeat split; apply getLE_nonneg.
Qed.

(** [readReply] on a stream that holds a whole header, by the header's
    fields. *)
Lemma readReply_header (c : connection) (hdr rest : list byte)
    (magic version size rseq : Z) :
  rdBuf c = hdr ++ rest -> length hdr = Z.to_nat cprotoHdrLen ->
  decodeHdr hdr = (magic, version, size, rseq) ->
  readReply c =
    let c := set_rdBuf c rest in
    if negb (magic =? cprotoMagic) then (c, ReplyErr (InvalidMagic magic))
    else if version <? cprotoMinCompatVersion
    then (c, ReplyErr (UnsupportedVersion version))
    else if negb (seqNumIsValid rseq) then (c, ReplyErr (InvalidSeqNum rseq))
    else if negb (loadSeqNum c (slotOf rseq) =? rseq)
    then (set_rdBuf c (CopyN_Discard rest size), ReplyDiscarded)
    else
      let '(answ, rest, e) := ReadFull rest (Z.to_nat size) in
      let c := set_rdBuf c rest in
      match e with
      | Some e => (c, ReplyErr e)
      | None => (c, ReplySend (slotOf rseq) {| rseq := rseq; bufp := {| buf := answ |} |})
      end.
Proof.
  intros Hbuf Hlen Hdec. unfold readReply. rewrite Hbuf, <- Hlen, ReadFull_app.
  unfold decodeHdr in Hdec.
  destruct (GetUInt32 hdr) as [m s1]. destruct (GetUInt16 s1) as [v s2].
  destruct (GetUInt16 s2) as [r0 s3]. destruct (GetUInt32 s3) as [sz s4].
  destruct (GetUInt32 s4) as [rs s5]. injection Hdec as -> -> -> ->.
  reflexivity.
Qed.

(** C6. A header read in full is rejected with a protocol error exactly when
    its magic is not [0xEEDD1132], or its version is below [0x101], or its
    sequence is not in [[0, MAX)]; the magic is judged first, then the
    version, then the sequence; a header that passes the three checks raises
    no protocol error; and every error of [readReply] makes [readLoop] call
    [onError] and return, which leaves the connection failed: on a connection
    without stored error it stores this error, closes the socket and closes
    the failure channel. *)
Theorem header_rejected_iff (c : connection) (hdr rest : list byte)
    (magic version size rseq : Z) :
  rdBuf c = hdr ++ rest -> length hdr = Z.to_nat cprotoHdrLen ->
  decodeHdr hdr = (magic, version, size, rseq) ->
  ((exists e, (readReply c).2 = ReplyErr e /\ isProtocolError e = true) <->
     magic <> 0xEEDD1132 \/ version < 0x101 \/ ~ (0 <= rseq < maxSeqNum))
  /\ (magic <> 0xEEDD1132 -> (readReply c).2 = ReplyErr (InvalidMagic magic))
  /\ (magic = 0xEEDD1132 -> version < 0x101 ->
      (readReply c).2 = ReplyErr (UnsupportedVersion version))
  /\ (magic = 0xEEDD1132 -> 0x101 <= version -> ~ (0 <= rseq < maxSeqNum) ->
      (readReply c).2 = ReplyErr (InvalidSeqNum rseq))
  /\ (forall e, (readReply c).2 = ReplyErr e ->
      (readLoop_iter c).2 = RExit
      /\ hasError (readLoop_iter c).1 = true
      /\ (err c = None ->
          err (readLoop_iter c).1 = Some e
          /\ errCh (readLoop_iter c).1 = true
          /\ conn (readLoop_iter c).1
             = (fun k => {| closeCalls := S (closeCalls k) |}) <$> conn c)).
Proof.
  intros Hbuf Hlen Hdec.
  destruct (decodeHdr_nonneg _ _ _ _ _ Hdec) as (_ & _ & _ & Hrs).
  rewrite (readReply_header c hdr rest magic version size rseq Hbuf Hlen Hdec).
  change cprotoMagic with 0xEEDD1132. change cprotoMinCompatVersion with 0x101.
  cbv zeta.
  assert (Hvalid : seqNumIsValid rseq = true <-> 0 <= rseq < maxSeqNum).
  { rewrite seqNumIsValid_lt. lia. }
  split; [| split; [| split; [| split]]].
  - destruct (Z.eqb_spec magic 0xEEDD1132) as [Em | Em]; simpl.
    2: { split; [tauto | intros _; eexists; split; reflexivity]. }
    destruct (Z.ltb_spec version 0x101) as [Ev | Ev]; simpl.
    1: { split; [tauto | intros _; eexists; split; reflexivity]. }
    destruct (seqNumIsValid rseq) eqn:Es; simpl.
    2: { split; [intros _; right; right; intros Hr; apply Hvalid in Hr; done
                | intros _; eexists; split; reflexivity]. }
    assert (Hok : 0 <= rseq < maxSeqNum) by (apply Hvalid; reflexivity).
    split; [| intros [? | [? | ?]]; try lia; done].
    intros (e & He & Hp). exfalso.
    destruct (negb _); simpl in He; [done |].
    destruct (ReadFull rest (Z.to_nat size)) as [[answ rest'] [e0 |]] eqn:HRF;
      simpl in He; [| done].
    injection He as <-. unfold ReadFull in HRF.
    destruct (Z.to_nat size <=? length rest)%nat; [done |].
    destruct rest; simplify_eq; done.
  - intros Em. destruct (Z.eqb_spec magic 0xEEDD1132); [done | reflexivity].
  - intros Em Ev. destruct (Z.eqb_spec magic 0xEEDD1132); [| done]. simpl.
    destruct (Z.ltb_spec version 0x101); [reflexivity | lia].
  - intros Em Ev Hr. destruct (Z.eqb_spec magic 0xEEDD1132); [| done]. simpl.
    destruct (Z.ltb_spec version 0x101); [lia |].
    destruct (seqNumIsValid rseq) eqn:Es; [| reflexivity].
    exfalso. apply Hr, Hvalid. reflexivity.
  - intros e He. unfold readLoop_iter.
    rewrite (readReply_header c hdr rest magic version size rseq Hbuf Hlen Hdec).
    change cprotoMagic with 0xEEDD1132. change cprotoMinCompatVersion with 0x101.
    cbv zeta.
    match type of He with (?X).2 = _ => destruct X as [c1 a] eqn:Hrr end.
    simpl in He. subst a. simpl.
    assert (Herr : err c1 = err c /\ conn c1 = conn c).
    { clear -Hrr.
      destruct (negb (magic =? _)); [injection Hrr as <- _; done |].
      destruct (version <? _); [injection Hrr as <- _; done |].
      destruct (negb (seqNumIsValid rseq)); [injection Hrr as <- _; done |].
      destruct (negb (loadSeqNum _ _ =? rseq)); [injection Hrr as <- _; done |].
      destruct (ReadFull rest _) as [[answ rest'] [e0 |]]; injection Hrr as <- _; done. }
    destruct Herr as [Herr Hconn].
    split; [reflexivity |]. split; [apply onError_hasError |].
    intros Hnone. rewrite onError_first by congruence. simpl. rewrite Hconn. done.
Qed.

Lemma header_rejected_old_version :
  (readReply (w_conn (connected (frameHeader 0x100 0 7)))).2
  = ReplyErr (UnsupportedVersion 0x100).
Proof.
  refine (proj1 (proj2 (proj2
            (header_rejected_iff (w_conn (connected (frameHeader 0x100 0 7)))
               (frameHeader 0x100 0 7) [] cprotoMagic 0x100 0 7 _ _ _))) _ _).
  - reflexivity.
  - reflexivity.
  - vm_compute. reflexivity.
  - reflexivity.
  - lia.
Defined.

Lemma drop_split_length {A} (l : list A) (n : Z) :
  0 <= n <= Z.of_nat (length l) ->
  exists p, l = p ++ drop (Z.to_nat n) l /\ Z.of_nat (length p) = n.
Proof.
  intros Hn. exists (take (Z.to_nat n) l). split.
  - symmetry. apply take_drop.
  - rewrite length_take. lia.
Qed.

(** C5 (amended). After a header that passes the magic, version and
    sequence checks but whose sequence is not the current one of its slot,
    [readReply] takes the payload size in bytes off the stream, or all the
    bytes left when the stream ends before that, and drops them; it returns
    no error in either case, sends on no reply channel (the reader is back at
    the head of its loop and no caller changes), and only the inbound stream
    of the connection changes. *)
Theorem stale_reply_drained `{RPCCodec} (c : connection) (hdr rest : list byte)
    (magic version size rseq : Z) :
  rdBuf c = hdr ++ rest -> length hdr = Z.to_nat cprotoHdrLen ->
  decodeHdr hdr = (magic, version, size, rseq) ->
  headerAccepted magic version rseq ->
  loadSeqNum c (slotOf rseq) <> rseq ->
  readReply c = (set_rdBuf c (drop (Z.to_nat size) rest), ReplyDiscarded)
  /\ readLoop_iter c = (set_rdBuf c (drop (Z.to_nat size) rest), RRun)
  /\ (size <= Z.of_nat (length rest) ->
      exists payload, rest = payload ++ drop (Z.to_nat size) rest
                      /\ Z.of_nat (length payload) = size)
  /\ (Z.of_nat (length rest) <= size -> drop (Z.to_nat size) rest = [])
  /\ (forall w, w_conn w = c -> w_reader w = RRun ->
      step LRead w =
        Some {| w_conn := set_rdBuf c (drop (Z.to_nat size) rest);
                w_reader := RRun; w_ticker := w_ticker w;
                w_callers := w_callers w |}).
Proof.
  intros Hbuf Hlen Hdec (Hm & Hv & Hr) Hstale.
  destruct (decodeHdr_nonneg _ _ _ _ _ Hdec) as (_ & _ & Hsz & _).
  assert (Hrr : readReply c
                = (set_rdBuf c (drop (Z.to_nat size) rest), ReplyDiscarded)).
  { rewrite (readReply_header c hdr rest magic version size rseq Hbuf Hlen Hdec).
    cbv zeta. subst magic. rewrite Z.eqb_refl. simpl.
    destruct (Z.ltb_spec version cprotoMinCompatVersion); [lia |].
    assert (Es : seqNumIsValid rseq = true) by (apply seqNumIsValid_lt; lia).
    rewrite Es. simpl.
    change (loadSeqNum (set_rdBuf c rest) (slotOf rseq)) with (loadSeqNum c (slotOf rseq)).
    destruct (Z.eqb_spec (loadSeqNum c (slotOf rseq)) rseq); [done |]. reflexivity. }
  split; [exact Hrr |].
  assert (Hit : readLoop_iter c = (set_rdBuf c (drop (Z.to_nat size) rest), RRun)).
  { unfold readLoop_iter. rewrite Hrr. reflexivity. }
  split; [exact Hit |]. split; [| split].
  - intros Hle. apply drop_split_length. lia.
  - intros Hge. apply drop_ge. lia.
  - intros w Hw Hrd. simpl. rewrite Hrd, Hw, Hit. reflexivity.
Qed.

Lemma stale_reply_drained_late :
  readReply (w_conn (connected (replyFrame 40 [Byte.x01; Byte.x02] ++ [Byte.x03])))
  = (w_conn (connected [Byte.x03]), ReplyDiscarded).
Proof.
  refine (proj1 (@stale_reply_drained specCodec
            (w_conn (connected (replyFrame 40 [Byte.x01; Byte.x02] ++ [Byte.x03])))
            (frameHeader cprotoVersion 2 40) [Byte.x01; Byte.x02; Byte.x03]
            cprotoMagic cprotoVersion 2 40 _ _ _ _ _)).
  - reflexivity.
  - reflexivity.
  - vm_compute. reflexivity.
  - unfold headerAccepted. vm_compute. intuition discriminate.
  - vm_compute. discriminate.
Defined.

(** C5 as stated fails: a server that sends the header of a stale reply
    announcing four payload bytes and then one byte before it closes has that
    one byte drained, not four, and [readReply] still returns no error. *)
Lemma stale_reply_short_stream : ~ stale_reply_drains_exactly.
Proof.
  intros Hclaim.
  destruct (Hclaim (w_conn (connected (frameHeader cprotoVersion 4 40 ++ [Byte.x00])))
              (frameHeader cprotoVersion 4 40) [Byte.x00] cprotoMagic cprotoVersion 4 40)
    as (payload & rest' & Hrest & Hlen & _).
  - reflexivity.
  - reflexivity.
  - vm_compute. reflexivity.
  - unfold headerAccepted. vm_compute. intuition discriminate.
  - vm_compute. discriminate.
  - apply (f_equal (@length byte)) in Hrest. rewrite length_app in Hrest.
    simpl in Hrest. lia.
Qed.

(** ** Submission *)

Lemma encodeArgs_filter `{RPCCodec} (args : list arg) (in_ : rpcEncoder) :
  encodeArgs in_ args = encodeArgs in_ (List.filter argSupported args).
Proof.
  unfold encodeArgs. revert in_.
  induction args as [| a args IH]; intros in_; simpl; [reflexivity |].
  destruct a; simpl; apply IH.
Qed.

(** C1 (amended). A value of a kind other than the supported ones is
    skipped by the argument loop: the call behaves as the call without that
    value, and the frame handed to the writer is the frame of the remaining
    arguments.  The only return before the frame is written is Canceled, for
    an expired context; every other call with a sequence at hand appends its
    frame to the write buffer and asserts the kick. *)
Theorem unsupported_args_skipped `{RPCCodec} (c : connection) (ctx : option Z)
    (cmd netTimeout : Z) (args : list arg) :
  rpcCall_submit c ctx cmd netTimeout args
  = rpcCall_submit c ctx cmd netTimeout (List.filter argSupported args)
  /\ (forall seq t, encodeFrame cmd seq args t
                    = encodeFrame cmd seq (List.filter argSupported args) t)
  /\ (forall c' r,
        rpcCall_submit c ctx cmd netTimeout args = Some (c', CDone r) ->
        r = Return None (Some (BindingsError "Request was canceled" ErrCanceled))
        /\ wrBuf c' = wrBuf c
        /\ exists d, ctx = Some d /\ Z.quot d millisecond <= 0)
  /\ (forall c' seq,
        rpcCall_submit c ctx cmd netTimeout args = Some (c', CWait seq) ->
        exists t, wrBuf c' = wrBuf c ++ encodeFrame cmd seq (List.filter argSupported args) t
                  /\ wrKick c' = true)
  /\ (forall seq rest, seqs c = seq :: rest -> ctx = None ->
        exists c', rpcCall_submit c ctx cmd netTimeout args = Some (c', CWait seq)).
Proof.
  assert (Hframe : forall seq t, encodeFrame cmd seq args t
                     = encodeFrame cmd seq (List.filter argSupported args) t).
  { intros seq t. unfold encodeFrame. rewrite <- encodeArgs_filter. reflexivity. }
  split; [| split; [exact Hframe | split; [| split]]].
  - unfold rpcCall_submit. destruct (seqs c) as [| seq rest]; [reflexivity |].
    rewrite Hframe. reflexivity.
  - intros c' r. unfold rpcCall_submit. destruct (seqs c) as [| seq rest]; [done |].
    destruct ctx as [d |]; [| done].
    destruct (Z.leb_spec (Z.quot d millisecond) 0); [| done].
    intros [= <- <-]. split; [reflexivity |]. split; [reflexivity |]. eauto.
  - intros c' seq'. unfold rpcCall_submit. destruct (seqs c) as [| seq rest]; [done |].
    match goal with |- context [if ?b then Some (_, CDone _) else _] => destruct b end;
      [done |].
    intros [= <- <-]. eexists. rewrite <- Hframe. split; [| reflexivity].
    simpl. destruct (negb (netTimeout =? 0)); reflexivity.
  - intros seq rest Hq ->. unfold rpcCall_submit. rewrite Hq. eauto.
Qed.

(** C1 as stated fails: [ping] with one argument of an unsupported type on a
    fresh connection returns no error at submission; it enters the wait loop
    with its frame in the write buffer. *)
Lemma unsupported_arg_not_rejected : ~ @unsupported_arg_rejected specCodec.
Proof.
  intros Hclaim.
  destruct (rpcCall_submit (w_conn (connected [])) None cmdPing 0 [ArgOther "float64"])
    as [[c' p] |] eqn:E; [| vm_compute in E; discriminate].
  destruct (Hclaim (w_conn (connected [])) c' None cmdPing 0
              [ArgOther "float64"] p eq_refl E) as [[e He] _].
  vm_compute in E. injection E as <- <-. discriminate He.
Qed.

(** ** What each piece of code leaves alone *)

Lemma loadSeqNum_storeDeadline (c : connection) (i j : nat) (v : Z) :
  loadSeqNum (storeDeadline c i v) j = loadSeqNum c j.
Proof.
  unfold loadSeqNum at 1. unfold storeDeadline. simpl.
  destruct (decide (i = j)) as [-> | NE].
  - destruct (decide (j < length (requests c))%nat) as [Hlt | Hge].
    + rewrite list_lookup_insert_eq by exact Hlt. reflexivity.
    + rewrite list_insert_ge by lia. reflexivity.
  - rewrite list_lookup_insert_ne by exact NE. reflexivity.
Qed.

Lemma loadSeqNum_storeSeqNum_eq (c : connection) (i : nat) (v : Z) :
  (i < length (requests c))%nat -> loadSeqNum (storeSeqNum c i v) i = v.
Proof.
  intros Hlt. unfold loadSeqNum, storeSeqNum. simpl.
  rewrite list_lookup_insert_eq by exact Hlt. reflexivity.
Qed.

Lemma loadSeqNum_storeSeqNum_ne (c : connection) (i j : nat) (v : Z) :
  i <> j -> loadSeqNum (storeSeqNum c i v) j = loadSeqNum c j.
Proof.
  intros NE. unfold loadSeqNum, storeSeqNum. simpl.
  rewrite list_lookup_insert_ne by exact NE. reflexivity.
Qed.

Lemma loadDeadline_storeSeqNum (c : connection) (i j : nat) (v : Z) :
  loadDeadline (storeSeqNum c i v) j = loadDeadline c j.
Proof.
  unfold loadDeadline at 1. unfold storeSeqNum. simpl.
  destruct (decide (i = j)) as [-> | NE].
  - destruct (decide (j < length (requests c))%nat) as [Hlt | Hge].
    + rewrite list_lookup_insert_eq by exact Hlt. reflexivity.
    + rewrite list_insert_ge by lia. reflexivity.
  - rewrite list_lookup_insert_ne by exact NE. reflexivity.
Qed.

Lemma length_storeSeqNum (c : connection) (i : nat) (v : Z) :
  length (requests (storeSeqNum c i v)) = length (requests c).
Proof. unfold storeSeqNum. simpl. apply length_insert. Qed.

Lemma length_storeDeadline (c : connection) (i : nat) (v : Z) :
  length (requests (storeDeadline c i v)) = length (requests c).
Proof. unfold storeDeadline. simpl. apply length_insert. Qed.

Lemma onError_keeps (c : connection) (e : error) :
  seqs (onError c e) = seqs c /\ requests (onError c e) = requests c.
Proof.
  unfold onError, closeConn. destruct (err c); [done |]. simpl.
  destruct (conn c); simpl; destruct (errCh c); done.
Qed.

Lemma readReply_keeps (c : connection) :
  exists rb, (readReply c).1 = set_rdBuf c rb.
Proof.
  unfold readReply.
  destruct (ReadFull (rdBuf c) (Z.to_nat cprotoHdrLen)) as [[hdr rest] [e |]];
    [eexists; reflexivity |].
  destruct (GetUInt32 hdr) as [m s1].
  destruct (negb (m =? cprotoMagic)); [eexists; reflexivity |].
  destruct (GetUInt16 s1) as [v s2]. destruct (GetUInt16 s2) as [r0 s3].
  destruct (GetUInt32 s3) as [sz s4]. destruct (GetUInt32 s4) as [rs s5].
  destruct (v <? cprotoMinCompatVersion); [eexists; reflexivity |].
  destruct (negb (seqNumIsValid rs)); [eexists; reflexivity |].
  destruct (negb (loadSeqNum _ _ =? rs)); [eexists; reflexivity |].
  destruct (ReadFull _ _) as [[answ rest'] [e |]]; eexists; reflexivity.
Qed.

Lemma readLoop_iter_keeps (c : connection) :
  seqs (readLoop_iter c).1 = seqs c /\ requests (readLoop_iter c).1 = requests c.
Proof.
  unfold readLoop_iter. destruct (readReply_keeps c) as [rb Hrb].
  destruct (readReply c) as [c1 [e | | reqID b]]; simpl in *; subst c1; try done.
  destruct (onError_keeps (set_rdBuf c rb) e) as [-> ->]. done.
Qed.

Lemma tickerScan_keeps (n i : nat) (nw : Z) (c : connection) :
  seqs (tickerScan n i nw c).1 = seqs c
  /\ length (requests (tickerScan n i nw c).1) = length (requests c)
  /\ forall j, loadSeqNum (tickerScan n i nw c).1 j = loadSeqNum c j.
Proof.
  revert i. induction n as [| n IH]; intros i; simpl; [done |].
  destruct (negb (seqNumIsValid (loadSeqNum c i))); [apply IH |].
  destruct (negb (loadDeadline c i =? 0) && (nw >=? loadDeadline c i)); [| apply IH].
  simpl. split; [reflexivity |]. split; [apply length_storeDeadline |].
  intros j. apply loadSeqNum_storeDeadline.
Qed.

Lemma tickerTick_keeps (c : connection) :
  seqs (tickerTick c).1 = seqs c
  /\ length (requests (tickerTick c).1) = length (requests c)
  /\ forall j, loadSeqNum (tickerTick c).1 j = loadSeqNum c j.
Proof.
  unfold tickerTick. destruct (errCh c || termCh c); [done |].
  apply (tickerScan_keeps _ 0 _ (set_now c _)).
Qed.

(** ** The slot table stays consistent *)

Lemma slotOf_lt (s : Z) : (slotOf s < Z.to_nat queueSize)%nat.
Proof.
  unfold slotOf. assert (0 <= s mod queueSize < queueSize)
    by (apply Z.mod_pos_bound; unfold queueSize; lia). lia.
Qed.

Lemma omap_insert_same (ks : list caller) (cid : nat) (k k' : caller) :
  ks !! cid = Some k -> heldSeq k' = heldSeq k ->
  omap heldSeq (<[cid := k']> ks) = omap heldSeq ks.
Proof.
  revert cid. induction ks as [| a ks IH]; intros [| cid] Hk Hh; simpl in *; try done.
  - injection Hk as ->. rewrite Hh. reflexivity.
  - destruct (heldSeq a); [f_equal |]; apply (IH cid Hk Hh).
Qed.

Lemma omap_insert_release (ks : list caller) (cid : nat) (k k' : caller) (s : Z) :
  ks !! cid = Some k -> heldSeq k = Some s -> heldSeq k' = None ->
  omap heldSeq ks ≡ₚ s :: omap heldSeq (<[cid := k']> ks).
Proof.
  revert cid. induction ks as [| a ks IH]; intros [| cid] Hk Hs Hn; simpl in *; try done.
  - injection Hk as ->. rewrite Hs, Hn. reflexivity.
  - destruct (heldSeq a) as [t |].
    + etrans; [apply Permutation_skip, (IH cid Hk Hs Hn) | apply Permutation_swap].
    + apply (IH cid Hk Hs Hn).
Qed.

Lemma held_elem (ks : list caller) (cid : nat) (k : caller) (s : Z) :
  ks !! cid = Some k -> heldSeq k = Some s -> s ∈ omap heldSeq ks.
Proof.
  intros Hk Hs. apply list_elem_of_omap. exists k. split; [| exact Hs].
  apply list_elem_of_lookup. eauto.
Qed.

Lemma held_distinct (ks : list caller) (i j : nat) (a b : caller) (s t : Z) :
  NoDup (slotOf <$> omap heldSeq ks) -> i <> j ->
  ks !! i = Some a -> ks !! j = Some b ->
  heldSeq a = Some s -> heldSeq b = Some t -> slotOf s <> slotOf t.
Proof.
  revert i j. induction ks as [| k ks IH]; intros i j Hnd NE Ha Hb Hs Ht; [done |].
  simpl in Hnd.
  destruct i as [| i], j as [| j]; simpl in *; try done.
  - injection Ha as ->. rewrite Hs in Hnd. simpl in Hnd.
    apply NoDup_cons in Hnd as [Hnot _]. intros E. apply Hnot. rewrite E.
    apply list_elem_of_fmap. exists t. split; [reflexivity |]. eapply held_elem; eauto.
  - injection Hb as ->. rewrite Ht in Hnd. simpl in Hnd.
    apply NoDup_cons in Hnd as [Hnot _]. intros E. apply Hnot. rewrite <- E.
    apply list_elem_of_fmap. exists s. split; [reflexivity |]. eapply held_elem; eauto.
  - apply (IH i j); try done; [| lia].
    destruct (heldSeq k); simpl in Hnd; [apply NoDup_cons in Hnd as [_ ?] |]; done.
Qed.

Lemma consistent_conn (c c' : connection) (ks : list caller) :
  consistent c ks -> seqs c' = seqs c ->
  length (requests c') = length (requests c) ->
  (forall j, loadSeqNum c' j = loadSeqNum c j) ->
  consistent c' ks.
Proof.
  intros (Hlen & Hval & Hnd & Hw) Hs Hl Hld. unfold consistent, owned in *.
  rewrite Hs, Hl. repeat split; try done.
  intros cid k seq Hk Hp. rewrite Hld. eauto.
Qed.

Lemma consistent_wait (c c1 : connection) (ks : list caller) (cid : nat)
    (k : caller) (seq : Z) (ev : selectEvent) (p : callerPc) :
  consistent c ks -> ks !! cid = Some k -> pc k = CWait seq ->
  rpcCall_wait c seq ev = (c1, p) ->
  consistent c1 (<[cid := {| netTimeoutOf := netTimeoutOf k; pc := p |}]> ks).
Proof.
  intros (Hlen & Hval & Hnd & Hw) Hk Hp Hwait.
  assert (Hheld : heldSeq k = Some seq) by (unfold heldSeq; rewrite Hp; reflexivity).
  assert (Hcid : (cid < length ks)%nat) by (eapply lookup_lt_Some; eauto).
  unfold rpcCall_wait in Hwait.
  destruct (select_case c seq ev) as [[b e] |]; injection Hwait as <- <-.
  - unfold consistent, owned in *. simpl.
    rewrite (omap_insert_same ks cid k) by done.
    rewrite length_insert.
    split; [exact Hlen |]. split; [exact Hval |]. split; [exact Hnd |].
    intros cid' k' seq' Hk' Hp'.
    destruct (decide (cid = cid')) as [<- | NE].
    + rewrite list_lookup_insert_eq in Hk' by exact Hcid. injection Hk' as <-. done.
    + rewrite list_lookup_insert_ne in Hk' by exact NE.
      rewrite loadSeqNum_storeSeqNum_ne; [eauto |].
      rewrite fmap_app in Hnd. apply NoDup_app in Hnd as (_ & _ & Hnd).
      apply (held_distinct ks cid cid' k k' seq seq'); try done.
      unfold heldSeq. rewrite Hp'. reflexivity.
  - unfold consistent, owned in *.
    rewrite (omap_insert_same ks cid k) by done.
    split; [exact Hlen |]. split; [exact Hval |]. split; [exact Hnd |].
    intros cid' k' seq' Hk' Hp'.
    destruct (decide (cid = cid')) as [<- | NE].
    + rewrite list_lookup_insert_eq in Hk' by exact Hcid. injection Hk' as <-.
      simpl in Hp'. injection Hp' as <-. eauto.
    + rewrite list_lookup_insert_ne in Hk' by exact NE. eauto.
Qed.

Lemma consistent_push (c : connection) (ks : list caller) (cid : nat)
    (k : caller) (seq : Z) (buf : option NetBuffer) (err : option error)
    (r : rpcResult) :
  consistent c ks -> ks !! cid = Some k -> pc k = CPush seq buf err ->
  consistent (set_seqs c (seqs c ++ [nextSeqNum seq]))
             (<[cid := {| netTimeoutOf := netTimeoutOf k; pc := CDone r |}]> ks).
Proof.
  intros (Hlen & Hval & Hnd & Hw) Hk Hp.
  assert (Hheld : heldSeq k = Some seq) by (unfold heldSeq; rewrite Hp; reflexivity).
  assert (Hcid : (cid < length ks)%nat) by (eapply lookup_lt_Some; eauto).
  set (k' := {| netTimeoutOf := netTimeoutOf k; pc := CDone r |}).
  assert (Hperm := omap_insert_release ks cid k k' seq Hk Hheld eq_refl).
  unfold consistent, owned in *. simpl.
  assert (Hseq : 0 <= seq < maxSeqNum).
  { rewrite Forall_forall in Hval. apply Hval. apply elem_of_app. right.
    eapply held_elem; eauto. }
  rewrite Hperm in Hval, Hnd.
  split; [exact Hlen |]. split; [| split].
  - rewrite <- app_assoc. simpl.
    apply Forall_app in Hval as [Hq Hh]. apply Forall_cons in Hh as [_ Hh].
    apply Forall_app. split; [exact Hq |]. apply Forall_cons. split; [| exact Hh].
    apply nextSeqNum_range. exact Hseq.
  - rewrite <- app_assoc. simpl.
    rewrite !fmap_app in *. rewrite !fmap_cons in *.
    rewrite nextSeqNum_slot by exact Hseq. exact Hnd.
  - intros cid' k2 seq' Hk' Hp'.
    change (loadSeqNum (set_seqs c _) ?i) with (loadSeqNum c i).
    destruct (decide (cid = cid')) as [<- | NE].
    + rewrite list_lookup_insert_eq in Hk' by exact Hcid. injection Hk' as <-. done.
    + rewrite list_lookup_insert_ne in Hk' by exact NE. eauto.
Qed.

Lemma consistent_call `{RPCCodec} (c c' : connection) (ks : list caller)
    (ctx : option Z) (cmd netTimeout : Z) (args : list arg) (p : callerPc) :
  consistent c ks -> rpcCall_submit c ctx cmd netTimeout args = Some (c', p) ->
  consistent c' (ks ++ [{| netTimeoutOf := netTimeout; pc := p |}]).
Proof.
  intros (Hlen & Hval & Hnd & Hw) Hsub. unfold rpcCall_submit in Hsub.
  destruct (seqs c) as [| seq rest] eqn:Hq; [done |].
  unfold consistent, owned in *. rewrite Hq in Hval, Hnd.
  set (c0 := set_seqs c rest) in Hsub.
  set (c1 := if negb (netTimeout =? 0) then _ else c0) in Hsub.
  assert (Hc1 : seqs c1 = rest /\ length (requests c1) = length (requests c)
                /\ forall j, loadSeqNum c1 j = loadSeqNum c j).
  { unfold c1. destruct (negb (netTimeout =? 0)); [| done].
    split; [reflexivity |]. split; [rewrite length_storeDeadline; reflexivity |].
    intros j. rewrite loadSeqNum_storeDeadline. reflexivity. }
  destruct Hc1 as (Hs1 & Hl1 & Hld1). clearbody c1.
  match type of Hsub with (if ?b then _ else _) = _ => destruct b end;
    injection Hsub as <- <-.
  - simpl. rewrite omap_app. simpl. rewrite app_nil_r.
    simpl in Hval, Hnd. apply Forall_cons in Hval as [_ Hval].
    apply NoDup_cons in Hnd as [_ Hnd].
    split; [exact Hlen |]. split; [exact Hval |]. split; [exact Hnd |].
    intros cid k seq' Hk Hp.
    apply lookup_app_Some in Hk as [Hk | [_ Hk]]; [eauto |].
    apply list_lookup_singleton_Some in Hk as [_ <-]. done.
  - 
    simpl. rewrite Hs1, omap_app. simpl. rewrite length_insert, Hl1.
    assert (Hperm : rest ++ omap heldSeq ks ++ [seq] ≡ₚ seq :: rest ++ omap heldSeq ks).
    { rewrite app_assoc. rewrite <- Permutation_cons_append. reflexivity. }
    split; [exact Hlen |]. split; [| split].
    + rewrite Hperm. exact Hval.
    + rewrite Hperm. exact Hnd.
    + intros cid k seq' Hk Hp.
      change (loadSeqNum (write ?x _) ?i) with (loadSeqNum x i).
      apply lookup_app_Some in Hk as [Hk | [_ Hk]].
      * rewrite loadSeqNum_storeSeqNum_ne; [rewrite Hld1; eauto |].
        simpl in Hnd. apply NoDup_cons in Hnd as [Hnot _]. intros E. apply Hnot.
        rewrite E. apply list_elem_of_fmap. exists seq'. split; [reflexivity |].
        apply elem_of_app. right. eapply held_elem; [exact Hk |].
        unfold heldSeq. rewrite Hp. reflexivity.
      * apply list_lookup_singleton_Some in Hk as [_ <-]. simpl in Hp.
        injection Hp as <-. apply loadSeqNum_storeSeqNum_eq.
        rewrite Hl1, Hlen. apply slotOf_lt.
Qed.

Lemma step_consistent `{RPCCodec} (l : label) (w w' : world) :
  consistent (w_conn w) (w_callers w) -> step l w = Some w' ->
  consistent (w_conn w') (w_callers w').
Proof.
  intros Hinv Hstep.
  destruct l as [ctx cmd nt args | | cid | | cid | cid | cid | e | | cid];
    [simpl in Hstep .. | |].
  - destruct (rpcCall_submit (w_conn w) ctx cmd nt args) as [[c p] |] eqn:E; [| done].
    injection Hstep as <-. simpl. eapply consistent_call; eauto.
  - destruct (w_reader w); try done.
    destruct (readLoop_iter_keeps (w_conn w)) as [Hs Hr].
    destruct (readLoop_iter (w_conn w)) as [c r]. injection Hstep as <-.
    simpl in *. apply (consistent_conn (w_conn w)); try done.
    + rewrite Hr. reflexivity.
    + intros j. unfold loadSeqNum. rewrite Hr. reflexivity.
  - destruct (waitingOn w cid) as [seq |] eqn:Hwo;
      destruct (w_reader w) as [| reqID b |]; try done.
    case_bool_decide; [| done].
    destruct (rpcCall_wait (w_conn w) seq (RecvReply b)) as [c p] eqn:E.
    injection Hstep as <-. simpl.
    apply waitingOn_pc in Hwo as (k & Hk & Hp). unfold setCaller. rewrite Hk.
    eapply consistent_wait; eauto.
  - destruct (w_ticker w); try done.
    destruct (tickerTick_keeps (w_conn w)) as (Hs & Hl & Hld).
    destruct (tickerTick (w_conn w)) as [c t]. injection Hstep as <-.
    simpl in *. apply (consistent_conn (w_conn w)); done.
  - destruct (waitingOn w cid) as [seq |] eqn:Hwo;
      destruct (w_ticker w) as [| i sn nw |]; try done.
    case_bool_decide; [| done].
    destruct (rpcCall_wait (w_conn w) seq (RecvTimeout sn)) as [c p] eqn:E.
    unfold tickerResume in Hstep.
    destruct (tickerScan_keeps (length (requests c) - S i) (S i) nw c) as (Hs & Hl & Hld).
    destruct (tickerScan _ _ _ c) as [c2 t]. injection Hstep as <-. simpl in *.
    apply waitingOn_pc in Hwo as (k & Hk & Hp). unfold setCaller. rewrite Hk.
    apply (consistent_conn c); try done. eapply consistent_wait; eauto.
  - destruct (waitingOn w cid) as [seq |] eqn:Hwo;
      destruct (errCh (w_conn w)); try done.
    injection Hstep as <-. simpl.
    apply waitingOn_pc in Hwo as (k & Hk & Hp). unfold setCaller. rewrite Hk.
    apply (consistent_wait (w_conn w) _ _ cid k seq RecvErrCh _ Hinv Hk Hp).
    reflexivity.
  - destruct (w_callers w !! cid) as [[nt p] |] eqn:Hk; [| done].
    destruct p as [| seq buf err |]; try done.
    unfold rpcCall_finish in Hstep.
    destruct (length (seqs (w_conn w)) <? Z.to_nat queueSize)%nat; [| done].
    unfold setCaller in Hstep. rewrite Hk in Hstep.
    destruct err, buf; injection Hstep as <-; simpl;
      apply (consistent_push _ _ cid {| netTimeoutOf := nt; pc := CPush seq _ _ |}
               seq _ _ _ Hinv Hk eq_refl).
  - injection Hstep as <-. simpl.
    destruct (onError_keeps (w_conn w) e) as [Hs Hr].
    apply (consistent_conn (w_conn w)); try done.
    + rewrite Hr. reflexivity.
    + intros j. unfold loadSeqNum. rewrite Hr. reflexivity.
  - apply step_LFinalize in Hstep as [_ ->]. simpl.
    apply (consistent_conn (w_conn w)); done.
  - apply step_LLoginErr in Hstep as (? & ? & ? & _ & _ & ->). simpl.
    apply (consistent_conn (w_conn w)); done.
Qed.

Lemma run_consistent `{RPCCodec} (ls : list label) (w w' : world) :
  consistent (w_conn w) (w_callers w) -> run ls w = Some w' ->
  consistent (w_conn w') (w_callers w').
Proof.
  revert w. induction ls as [| l ls IH]; intros w Hinv Hrun; simpl in Hrun.
  - injection Hrun as <-. exact Hinv.
  - destruct (step l w) as [w1 |] eqn:Hstep; [| done].
    apply (IH w1); [| exact Hrun]. eapply step_consistent; eauto.
Qed.

Lemma connected_consistent (inbound : list byte) :
  consistent (w_conn (connected inbound)) (w_callers (connected inbound)).
Proof.
  unfold consistent.
  change (owned (w_conn (connected inbound)) (w_callers (connected inbound)))
    with (Z.of_nat <$> seq 0 40).
  split; [reflexivity |]. split; [| split].
  - apply Forall_forall. intros s Hs. apply list_elem_of_fmap in Hs as (n & -> & Hn).
    apply elem_of_seq in Hn. unfold maxSeqNum, queueSize in *. lia.
  - apply (bool_decide_unpack _). vm_compute. reflexivity.
  - intros cid k seq Hk. done.
Qed.

Lemma reachable_consistent `{RPCCodec} (w : world) :
  reachable w -> consistent (w_conn w) (w_callers w).
Proof.
  intros (inbound & ls & Hrun).
  eapply run_consistent; [apply connected_consistent | exact Hrun].
Qed.

(** ** Idle slots *)

Lemma loadSeqNum_reset (c : connection) (i j : nat) :
  loadSeqNum c i = maxSeqNum ->
  loadSeqNum (storeSeqNum c j maxSeqNum) i = maxSeqNum.
Proof.
  intros Hidle. destruct (decide (j = i)) as [-> | NE].
  - destruct (decide (i < length (requests c))%nat) as [Hlt | Hge].
    + apply loadSeqNum_storeSeqNum_eq. exact Hlt.
    + unfold storeSeqNum, loadSeqNum in *. simpl.
      rewrite list_insert_ge by lia. exact Hidle.
  - rewrite loadSeqNum_storeSeqNum_ne by exact NE. exact Hidle.
Qed.

Lemma rpcCall_wait_idle (c c' : connection) (seq : Z) (ev : selectEvent)
    (p : callerPc) (i : nat) :
  loadSeqNum c i = maxSeqNum -> rpcCall_wait c seq ev = (c', p) ->
  loadSeqNum c' i = maxSeqNum.
Proof.
  intros Hidle. unfold rpcCall_wait.
  destruct (select_case c seq ev) as [[b e] |]; intros [= <- <-]; [| exact Hidle].
  apply loadSeqNum_reset. exact Hidle.
Qed.

Lemma readReply_send (c c' : connection) (reqID : nat) (b : bufPtr) :
  readReply c = (c', ReplySend reqID b) ->
  seqNumIsValid (rseq b) = true /\ reqID = slotOf (rseq b)
  /\ loadSeqNum c reqID = rseq b.
Proof.
  unfold readReply.
  destruct (ReadFull (rdBuf c) (Z.to_nat cprotoHdrLen)) as [[hdr rest] [e |]]; [done |].
  destruct (GetUInt32 hdr) as [m s1].
  destruct (negb (m =? cprotoMagic)); [done |].
  destruct (GetUInt16 s1) as [v s2]. destruct (GetUInt16 s2) as [r0 s3].
  destruct (GetUInt32 s3) as [sz s4]. destruct (GetUInt32 s4) as [rs s5].
  destruct (v <? cprotoMinCompatVersion); [done |].
  destruct (seqNumIsValid rs) eqn:Es; [| done]. simpl.
  change (loadSeqNum (set_rdBuf c rest) (slotOf rs)) with (loadSeqNum c (slotOf rs)).
  destruct (Z.eqb_spec (loadSeqNum c (slotOf rs)) rs) as [E | NE]; [| done]. simpl.
  destruct (ReadFull _ _) as [[answ rest'] [e |]]; [done |].
  intros [= <- <- <-]. simpl. done.
Qed.

(** C10. The idle sentinel [MAX] is not a valid sequence number, so a
    header that passes sequence validation never carries the sequence field
    of an idle slot: whenever [readReply] goes on to send on a slot's reply
    channel, that slot holds the header's valid sequence, not the sentinel.
    In every reachable state in which slot [i] holds the sentinel, no caller
    waits on a sequence of slot [i], a step that hands a reply to a caller is
    not on slot [i]'s channel, a run of the reader does not end in a send on
    slot [i]'s channel, and the slot still holds the sentinel after the step
    unless the step is a call that acquires a sequence of slot [i]. *)
Theorem idle_slot_never_served `{RPCCodec} :
  seqNumIsValid maxSeqNum = false
  /\ (forall c c' reqID b,
        readReply c = (c', ReplySend reqID b) ->
        seqNumIsValid (rseq b) = true /\ rseq b <> maxSeqNum
        /\ loadSeqNum c reqID = rseq b /\ loadSeqNum c reqID <> maxSeqNum)
  /\ (forall w i,
        reachable w -> loadSeqNum (w_conn w) i = maxSeqNum ->
        (forall cid seq, waitingOn w cid = Some seq -> slotOf seq <> i)
        /\ forall l w',
             step l w = Some w' ->
             (forall cid b, l = LReply cid -> w_reader w <> RSend i b)
             /\ (forall b, l = LRead -> w_reader w' <> RSend i b)
             /\ (loadSeqNum (w_conn w') i = maxSeqNum
                 \/ exists ctx cmd nt args seq rest,
                      l = LCall ctx cmd nt args
                      /\ seqs (w_conn w) = seq :: rest /\ slotOf seq = i)).
Proof.
  split; [reflexivity |]. split.
  { intros c c' reqID b Hrr. apply readReply_send in Hrr as (Hv & -> & Hld).
    assert (rseq b <> maxSeqNum).
    { apply seqNumIsValid_lt in Hv. lia. }
    rewrite Hld. done. }
  intros w i Hreach Hidle.
  assert (Hinv := reachable_consistent w Hreach).
  assert (Hnowait : forall cid seq, waitingOn w cid = Some seq -> slotOf seq <> i).
  { intros cid seq Hwo <-. apply waitingOn_pc in Hwo as (k & Hk & Hp).
    destruct Hinv as (_ & Hval & _ & Hw).
    assert (Hs : 0 <= seq < maxSeqNum).
    { rewrite Forall_forall in Hval. apply Hval. apply elem_of_app. right.
      eapply held_elem; [exact Hk |]. unfold heldSeq. rewrite Hp. reflexivity. }
    rewrite (Hw cid k seq Hk Hp) in Hidle. lia. }
  split; [exact Hnowait |].
  intros l w' Hstep. split; [| split].
  - intros cid b -> Hrd. simpl in Hstep. rewrite Hrd in Hstep.
    destruct (waitingOn w cid) as [seq |] eqn:Hwo; [| done].
    case_bool_decide as Hi; [| done]. exact (Hnowait cid seq Hwo (eq_sym Hi)).
  - intros b -> Hrd. simpl in Hstep.
    destruct (w_reader w); try done.
    unfold readLoop_iter in Hstep.
    destruct (readReply (w_conn w)) as [c1 [e | | reqID b']] eqn:Hrr;
      injection Hstep as <-; simpl in Hrd; try done.
    injection Hrd as -> ->.
    apply readReply_send in Hrr as (Hv & _ & Hld).
    apply seqNumIsValid_lt in Hv. rewrite Hidle in Hld. lia.
  - destruct l as [ctx cmd nt args | | cid | | cid | cid | cid | e | | cid];
      [simpl in Hstep .. | |].
    + unfold rpcCall_submit in Hstep.
      destruct (seqs (w_conn w)) as [| seq rest] eqn:Hq; [done |].
      destruct (decide (slotOf seq = i)) as [Hi | Hi].
      { right. exists ctx, cmd, nt, args, seq, rest. done. }
      left.
      match type of Hstep with
      | match (if ?b then _ else _) with _ => _ end = _ => destruct b
      end; injection Hstep as <-; simpl; [exact Hidle |].
      change (loadSeqNum (write ?x _) ?j) with (loadSeqNum x j).
      rewrite loadSeqNum_storeSeqNum_ne by exact Hi.
      destruct (negb (nt =? 0)); [rewrite loadSeqNum_storeDeadline |]; exact Hidle.
    + left. destruct (w_reader w); try done.
      destruct (readLoop_iter_keeps (w_conn w)) as [_ Hr].
      destruct (readLoop_iter (w_conn w)) as [c r]. injection Hstep as <-.
      simpl in *. unfold loadSeqNum in *. rewrite Hr. exact Hidle.
    + left. destruct (waitingOn w cid) as [seq |];
        destruct (w_reader w) as [| reqID b |]; try done.
      case_bool_decide; [| done].
      destruct (rpcCall_wait (w_conn w) seq (RecvReply b)) as [c p] eqn:E.
      injection Hstep as <-. simpl. eapply rpcCall_wait_idle; eauto.
    + left. destruct (w_ticker w); try done.
      destruct (tickerTick_keeps (w_conn w)) as (_ & _ & Hld).
      destruct (tickerTick (w_conn w)) as [c t]. injection Hstep as <-.
      simpl in *. rewrite Hld. exact Hidle.
    + left. destruct (waitingOn w cid) as [seq |];
        destruct (w_ticker w) as [| j sn nw |]; try done.
      case_bool_decide; [| done].
      destruct (rpcCall_wait (w_conn w) seq (RecvTimeout sn)) as [c p] eqn:E.
      unfold tickerResume in Hstep.
      destruct (tickerScan_keeps (length (requests c) - S j) (S j) nw c) as (_ & _ & Hld).
      destruct (tickerScan _ _ _ c) as [c2 t]. injection Hstep as <-. simpl in *.
      rewrite Hld. eapply rpcCall_wait_idle; eauto.
    + left. destruct (waitingOn w cid) as [seq |];
        destruct (errCh (w_conn w)); try done.
      injection Hstep as <-. simpl. apply loadSeqNum_reset. exact Hidle.
    + left. destruct (w_callers w !! cid) as [[nt p] |]; [| done].
      destruct p as [| seq buf err |]; try done.
      unfold rpcCall_finish in Hstep.
      destruct (length (seqs (w_conn w)) <? Z.to_nat queueSize)%nat; [| done].
      destruct err, buf; injection Hstep as <-; exact Hidle.
    + left. injection Hstep as <-. simpl.
      destruct (onError_keeps (w_conn w) e) as [_ Hr].
      unfold loadSeqNum in *. rewrite Hr. exact Hidle.
    + left. apply step_LFinalize in Hstep as [_ ->]. exact Hidle.
    + left. apply step_LLoginErr in Hstep as (? & ? & ? & _ & _ & ->). exact Hidle.
Qed.

Lemma idle_slot_never_served_answered :
  exists w,
    run answeredRun (connected (replyFrame 0 [])) = Some w
    /\ loadSeqNum (w_conn w) 0 = maxSeqNum
    /\ forall cid seq, waitingOn w cid = Some seq -> slotOf seq <> 0%nat.
Proof.
  destruct (run answeredRun (connected (replyFrame 0 []))) as [w |] eqn:E;
    [| vm_compute in E; discriminate].
  assert (Hidle : loadSeqNum (w_conn w) 0 = maxSeqNum)
    by (vm_compute in E; injection E as <-; reflexivity).
  exists w. split; [reflexivity |]. split; [exact Hidle |].
  exact (proj1 (proj2 (proj2 (@idle_slot_never_served specCodec)) w 0%nat
                  (ex_intro _ (replyFrame 0 []) (ex_intro _ answeredRun E)) Hidle)).
Defined.

(** ** A call canceled at submission *)

Lemma drained_step `{RPCCodec} (l : label) (w w' : world) :
  seqs (w_conn w) = [] -> Forall (fun k => heldSeq k = None) (w_callers w) ->
  step l w = Some w' ->
  seqs (w_conn w') = [] /\ Forall (fun k => heldSeq k = None) (w_callers w').
Proof.
  intros Hq Hks Hstep.
  assert (Hnowait : forall cid, waitingOn w cid = None).
  { intros cid. destruct (waitingOn w cid) as [seq |] eqn:Hwo; [| done].
    apply waitingOn_pc in Hwo as (k & Hk & Hp).
    apply (Forall_lookup_1 _ _ _ _ Hks) in Hk. unfold heldSeq in Hk.
    rewrite Hp in Hk. done. }
  destruct l as [ctx cmd nt args | | cid | | cid | cid | cid | e | | cid];
    [simpl in Hstep .. | |].
  - unfold rpcCall_submit in Hstep. rewrite Hq in Hstep. done.
  - destruct (w_reader w); try done.
    destruct (readLoop_iter_keeps (w_conn w)) as [Hs _].
    destruct (readLoop_iter (w_conn w)) as [c r]. injection Hstep as <-.
    simpl in *. rewrite Hs. done.
  - rewrite Hnowait in Hstep. destruct (w_reader w); done.
  - destruct (w_ticker w); try done.
    destruct (tickerTick_keeps (w_conn w)) as (Hs & _).
    destruct (tickerTick (w_conn w)) as [c t]. injection Hstep as <-.
    simpl in *. rewrite Hs. done.
  - rewrite Hnowait in Hstep. destruct (w_ticker w); done.
  - rewrite Hnowait in Hstep. destruct (errCh (w_conn w)); done.
  - destruct (w_callers w !! cid) as [[nt p] |] eqn:Hk; [| done].
    apply (Forall_lookup_1 _ _ _ _ Hks) in Hk. unfold heldSeq in Hk. simpl in Hk.
    destruct p; done.
  - injection Hstep as <-. simpl.
    destruct (onError_keeps (w_conn w) e) as [-> _]. done.
  - apply step_LFinalize in Hstep as [_ ->]. done.
  - apply step_LLoginErr in Hstep as (? & ? & ? & _ & _ & ->). done.
Qed.

Lemma drained_run `{RPCCodec} (ls : list label) (w w' : world) :
  seqs (w_conn w) = [] -> Forall (fun k => heldSeq k = None) (w_callers w) ->
  run ls w = Some w' ->
  seqs (w_conn w') = [] /\ Forall (fun k => heldSeq k = None) (w_callers w').
Proof.
  revert w. induction ls as [| l ls IH]; intros w Hq Hks Hrun; simpl in Hrun.
  - injection Hrun as <-. done.
  - destruct (step l w) as [w1 |] eqn:Hstep; [| done].
    destruct (drained_step l w w1 Hq Hks Hstep) as [Hq1 Hks1].
    exact (IH w1 Hq1 Hks1 Hrun).
Qed.

(** C2 (the code departs from it). [rpcCall] takes its sequence from the
    queue before it looks at the context, and its Canceled return leaves the
    function without the release that follows the wait loop: the call
    returns Canceled and the only change is that the head of the queue is
    gone.  On a fresh
    connection a call with an expired context returns Canceled with nothing
    written and no slot touched, but the queue has lost sequence 0 and nothing
    was put back; after [queueSize] such calls the queue is empty, stays
    empty in every continuation, and every later call blocks. *)
Theorem canceled_call_loses_sequence `{RPCCodec} (inbound : list byte) :
  (forall c seq rest d cmd nt args,
     seqs c = seq :: rest -> Z.quot d millisecond <= 0 ->
     rpcCall_submit c (Some d) cmd nt args
     = Some (set_seqs c rest,
             CDone (Return None
                      (Some (BindingsError "Request was canceled" ErrCanceled)))))
  /\ step (LCall (expiredCtx 1) cmdPing 0 []) (connected inbound)
  = Some (afterCanceled inbound 1 (Z.of_nat <$> seq 1 39))
  /\ wrBuf (w_conn (afterCanceled inbound 1 (Z.of_nat <$> seq 1 39))) = []
  /\ requests (w_conn (afterCanceled inbound 1 (Z.of_nat <$> seq 1 39)))
     = requests (w_conn (connected inbound))
  /\ (0 ∉ Z.of_nat <$> seq 1 39) /\ (nextSeqNum 0 ∉ Z.of_nat <$> seq 1 39)
  /\ run (canceledCalls 40) (connected inbound) = Some (afterCanceled inbound 40 [])
  /\ (forall ls w,
        run ls (afterCanceled inbound 40 []) = Some w ->
        seqs (w_conn w) = []
        /\ forall ctx cmd nt args, step (LCall ctx cmd nt args) w = None).
Proof.
  split.
  { intros c seq rest d cmd nt args Hq Hd. unfold rpcCall_submit. rewrite Hq.
    destruct (Z.leb_spec (Z.quot d millisecond) 0); [reflexivity | lia]. }
  split; [reflexivity |]. split; [reflexivity |]. split; [reflexivity |].
  split; [apply (bool_decide_unpack _); vm_compute; reflexivity |].
  split; [apply (bool_decide_unpack _); vm_compute; reflexivity |].
  split; [vm_compute; reflexivity |].
  intros ls w Hrun.
  apply drained_run in Hrun as [Hq _]; [| reflexivity |].
  - split; [exact Hq |]. intros ctx cmd nt args. simpl.
    unfold rpcCall_submit. rewrite Hq. reflexivity.
  - apply Forall_replicate. reflexivity.
Qed.

(** ** A deadline left behind in a slot *)

(** C3 (the code departs from it). [rpcCall] stores a deadline only when
    its own is non-zero (a call with deadline 0 leaves every slot's deadline
    as it finds it) and neither the wait loop nor the release clears the
    slot's deadline, so a request without deadline inherits the deadline of
    the slot's previous occupant.  In this run a request with deadline 5 on sequence 0 is
    answered at once; the next request on that slot (sequence 40) has
    deadline 0, finds deadline 5 still stored, and at the fifth tick the
    ticker sends 40 on the slot's timeout channel; the waiter accepts it and
    the call returns Timeout. *)
Theorem stale_deadline_times_out `{RPCCodec} :
  (forall c ctx cmd args c' p j,
     rpcCall_submit c ctx cmd 0 args = Some (c', p) ->
     loadDeadline c' j = loadDeadline c j)
  /\ (forall c seq ev c' p j,
        rpcCall_wait c seq ev = (c', p) -> loadDeadline c' j = loadDeadline c j)
  /\ (forall c seq buf er c' r j,
        rpcCall_finish c seq buf er = Some (c', r) ->
        loadDeadline c' j = loadDeadline c j)
  /\ (exists w,
     run staleDeadlineSetup (connected (replyFrame 0 [])) = Some w
     /\ waitingOn w 40 = Some 40
     /\ netTimeoutOf <$> w_callers w !! 40%nat = Some 0
     /\ loadSeqNum (w_conn w) 0 = 40
     /\ loadDeadline (w_conn w) 0 = 5)
  /\ (exists w,
        run staleDeadlineRun (connected (replyFrame 0 [])) = Some w
        /\ w_callers w !! 40%nat =
             Some {| netTimeoutOf := 0;
                     pc := CDone (Return None
                             (Some (BindingsError "Request timeout" ErrTimeout))) |}).
Proof.
  split; [| split; [| split; [| split]]].
  - intros c ctx cmd args c' p j. unfold rpcCall_submit.
    destruct (seqs c) as [| seq rest]; [done |].
    match goal with |- context [if ?b then Some (_, CDone _) else _] => destruct b end;
      intros [= <- <-]; [reflexivity |].
    simpl negb. cbv iota.
    change (loadDeadline (write ?x _) j) with (loadDeadline x j).
    rewrite loadDeadline_storeSeqNum. reflexivity.
  - intros c seq ev c' p j. unfold rpcCall_wait.
    destruct (select_case c seq ev) as [[b e] |]; intros [= <- <-]; [| reflexivity].
    apply loadDeadline_storeSeqNum.
  - intros c seq buf er c' r j. unfold rpcCall_finish.
    destruct (length (seqs c) <? Z.to_nat queueSize)%nat; [| done].
    destruct er, buf; intros [= <- <-]; reflexivity.
  - eexists. split; [vm_compute; reflexivity |]. repeat split; reflexivity.
  - eexists. split; [vm_compute; reflexivity |]. reflexivity.
Qed.

(** ** The login budget *)

Lemma tickerScan_no_deadline (n i : nat) (nw : Z) (c : connection) :
  (forall j, loadDeadline c j = 0) -> tickerScan n i nw c = (c, TSleep).
Proof.
  intros Hd. revert i. induction n as [| n IH]; intros i; simpl; [reflexivity |].
  rewrite Hd. simpl. destruct (negb (seqNumIsValid (loadSeqNum c i))); apply IH.
Qed.

Lemma tickerTick_no_deadline (c : connection) :
  errCh c = false -> termCh c = false -> (forall j, loadDeadline c j = 0) ->
  tickerTick c = (set_now c (u32 (now c + deadlineCheckPeriodSec)), TSleep).
Proof.
  intros Hech Hterm Hd. unfold tickerTick. rewrite Hech, Hterm.
  cbv beta iota delta [orb]. cbv zeta.
  apply tickerScan_no_deadline. intros j. exact (Hd j).
Qed.

Lemma loadDeadline_emptyConnection (c : connection) (j : nat) :
  requests c = requests emptyConnection -> loadDeadline c j = 0.
Proof.
  intros Hr. unfold loadDeadline. rewrite Hr.
  change (requests emptyConnection)
    with (replicate (Z.to_nat queueSize) {| seqNum := 0; deadline := 0 |}).
  destruct (replicate _ _ !! j) as [r |] eqn:Hj; [| reflexivity].
  apply lookup_replicate in Hj as [-> _]. reflexivity.
Qed.

Lemma emptyConnection_ticks (k : nat) :
  Nat.iter k (fun c => fst (tickerTick c)) emptyConnection
  = set_now emptyConnection (u32 (Z.of_nat k)).
Proof.
  induction k as [| k IH]; [reflexivity |].
  rewrite Nat.iter_succ, IH.
  rewrite tickerTick_no_deadline;
    [| reflexivity | reflexivity
     | intros j; apply loadDeadline_emptyConnection; reflexivity].
  cbv [fst]. unfold set_now. cbn [conn wrBuf wrBuf2 wrKick rdBuf seqs err errCh now termCh requests].
  f_equal. unfold u32, deadlineCheckPeriodSec.
  rewrite Z.add_mod_idemp_l by lia. f_equal. lia.
Qed.

(** Ticks on a connected connection with no deadline stored only advance
    the clock. *)
Lemma connected_ticks (inbound : list byte) (a : Z) (k : nat) :
  0 <= a < 2 ^ 32 ->
  Nat.iter k (fun c => fst (tickerTick c)) (set_now (w_conn (connected inbound)) a)
  = set_now (w_conn (connected inbound)) (u32 (a + Z.of_nat k)).
Proof.
  intros Ha. induction k as [| k IH].
  - simpl. unfold u32. rewrite Z.add_0_r, Z.mod_small by exact Ha. reflexivity.
  - rewrite Nat.iter_succ, IH.
    rewrite tickerTick_no_deadline;
      [| reflexivity | reflexivity
       | intros j; apply loadDeadline_emptyConnection; reflexivity].
    cbv [fst]. unfold set_now.
    cbn [conn wrBuf wrBuf2 wrKick rdBuf seqs err errCh now termCh requests].
    f_equal. unfold u32, deadlineCheckPeriodSec.
    rewrite Z.add_mod_idemp_l by lia. f_equal. lia.
Qed.

(** A login submitted with timeout 0 on a connected connection with an idle
    slot table: its frame is handed to the writer, no deadline is stored, and
    no tick ever finds a slot due. *)
Lemma login_without_deadline `{RPCCodec} (owner : NetCProto) (inbound : list byte)
    (a : Z) :
  exists c1,
    login_submit (set_now (w_conn (connected inbound)) a) owner 0 = Some (c1, CWait 0)
    /\ wrBuf c1 = encodeFrame cmdLogin 0 (loginArgs owner) 0
    /\ wrKick c1 = true
    /\ (forall j, loadDeadline c1 j = 0)
    /\ forall n i nw, (tickerScan n i nw c1).2 = TSleep.
Proof.
  eexists. split; [reflexivity |]. split; [reflexivity |]. split; [reflexivity |].
  simpl.
  assert (Hd : forall j,
            loadDeadline
              (write (storeSeqNum (set_seqs (set_now (w_conn (connected inbound)) a)
                                     (Z.of_nat <$> seq 1 39)) 0 0)
                 (encodeFrame cmdLogin 0 (loginArgs owner) 0)) j = 0).
  { intros j.
    change (loadDeadline (write ?x _) j) with (loadDeadline x j).
    rewrite loadDeadline_storeSeqNum. apply loadDeadline_emptyConnection. reflexivity. }
  split; [exact Hd |]. intros n i nw.
  rewrite tickerScan_no_deadline; [reflexivity | exact Hd].
Qed.

(** C8 (the code departs from it). With login timeout 0 the dial is the one
    without deadline and the login is issued with timeout 0: its frame is
    written, no deadline is stored, and the ticker never signals it.  With a
    non-zero login timeout [T] the dial carries [T]; after it
    [newConnection] loads the clock twice, [now1] for the comparison and
    [now2] for the subtraction, with the ticker running in between.  If
    [now1 >= T] the connection fails with Timeout, nothing is written and no
    sequence is taken.  If [now1 < T] the login is issued with timeout
    [T - now2] (modulo 2^32): when no tick falls between the loads this is
    the remainder [T - now1], the login frame is written and the deadline [T]
    is stored in its slot; but when [now2 = T] the login is issued with
    timeout 0, that is without any deadline, although the budget is spent.
    With a 5 second login timeout and a dial that takes two ticks, with no
    tick between the loads, the login is issued with timeout 3.  With a dial
    that takes four ticks and a fifth tick between the two loads, the clock
    reads 5, and the login is written with timeout 0, stores no deadline and
    is never signalled by the ticker. *)
Theorem login_budget_double_load `{RPCCodec} :
  (forall (owner : NetCProto) (net : network) (inbound : list byte),
     let T := u32 (Z.quot (LoginTimeout owner) second) in
     let now1 := u32 (Z.of_nat (dialTicks net)) in
     let now2 := u32 (now1 + Z.of_nat (loadTicks net)) in
     let c1 := set_now (w_conn (connected inbound)) now1 in
     let c2 := set_now (w_conn (connected inbound)) now2 in
     let timedOut := onError c1 (BindingsError "Connect timeout" ErrTimeout) in
     dial net (dialCallOf T) = DialOk inbound ->
     (T = 0 ->
        dialCallOf T = Dial
        /\ newConnection owner net = NCLogin c1 0
        /\ exists c3,
             login_submit c1 owner 0 = Some (c3, CWait 0)
             /\ wrBuf c3 = encodeFrame cmdLogin 0 (loginArgs owner) 0
             /\ (forall j, loadDeadline c3 j = 0)
             /\ forall n i nw, (tickerScan n i nw c3).2 = TSleep)
     /\ (T <> 0 -> dialCallOf T = DialTimeout T)
     /\ (T <> 0 -> T <= now1 ->
         newConnection owner net = NCReturn timedOut None
         /\ err timedOut = Some (BindingsError "Connect timeout" ErrTimeout)
         /\ wrBuf timedOut = []
         /\ seqs timedOut = seqs emptyConnection)
     /\ (T <> 0 -> now1 < T ->
         newConnection owner net = NCLogin c2 (u32 (T - now2))
         /\ (loadTicks net = 0%nat ->
             c2 = c1 /\ u32 (T - now2) = T - now1
             /\ exists c3,
                  login_submit c1 owner (T - now1) = Some (c3, CWait 0)
                  /\ wrBuf c3 = encodeFrame cmdLogin 0 (loginArgs owner) 0
                  /\ now c3 = now1
                  /\ loadDeadline c3 0 = T)
         /\ (now2 = T ->
             newConnection owner net = NCLogin c2 0
             /\ now c2 = T
             /\ exists c3,
                  login_submit c2 owner 0 = Some (c3, CWait 0)
                  /\ wrBuf c3 = encodeFrame cmdLogin 0 (loginArgs owner) 0
                  /\ (forall j, loadDeadline c3 j = 0)
                  /\ forall n i nw, (tickerScan n i nw c3).2 = TSleep)))
  /\ u32 (Z.quot (LoginTimeout owner5s) second) = 5
  /\ newConnection owner5s slowNet = NCLogin (set_now (w_conn (connected [])) 2) 3
  /\ dial racedNet (DialTimeout 5) = DialOk []
  /\ newConnection owner5s racedNet = NCLogin (set_now (w_conn (connected [])) 5) 0
  /\ exists c3,
       login_submit (set_now (w_conn (connected [])) 5) owner5s 0 = Some (c3, CWait 0)
       /\ wrBuf c3 = encodeFrame cmdLogin 0 (loginArgs owner5s) 0
       /\ now c3 = 5
       /\ (forall j, loadDeadline c3 j = 0)
       /\ forall n i nw, (tickerScan n i nw c3).2 = TSleep.
Proof.
  split.
  - intros owner net inbound T now1 now2 c1 c2 timedOut Hdial.
    assert (HT : 0 <= T < 2 ^ 32) by (apply Z.mod_pos_bound; lia).
    assert (H1 : 0 <= now1 < 2 ^ 32) by (apply Z.mod_pos_bound; lia).
    assert (H2 : 0 <= now2 < 2 ^ 32) by (apply Z.mod_pos_bound; lia).
    assert (Hconn : connect emptyConnection T net = (c1, None)).
    { unfold connect. rewrite Hdial, emptyConnection_ticks. reflexivity. }
    assert (Hnc : newConnection owner net =
                  if negb (T =? 0)
                  then if T >? now1 then NCLogin c2 (u32 (T - now2))
                       else NCReturn timedOut None
                  else NCLogin c1 T).
    { assert (Ht : Nat.iter (loadTicks net) (fun c => fst (tickerTick c)) c1 = c2)
        by apply (connected_ticks inbound now1 (loadTicks net) H1).
      unfold newConnection. fold T. rewrite Hconn. cbv zeta. rewrite Ht.
      reflexivity. }
    split; [| split; [| split]].
    + intros HT0. rewrite Hnc, HT0. split; [reflexivity |]. split; [reflexivity |].
      destruct (login_without_deadline owner inbound now1)
        as (c3 & Hsub & Hwr & _ & Hd & Hscan).
      exists c3. done.
    + intros HT0. unfold dialCallOf. destruct (Z.eqb_spec T 0); [done | reflexivity].
    + intros HT0 Hle. rewrite Hnc.
      destruct (Z.eqb_spec T 0); [done |]. simpl.
      destruct (Z.gtb_spec T now1); [lia |]. done.
    + intros HT0 Hlt.
      assert (Hlogin : newConnection owner net = NCLogin c2 (u32 (T - now2))).
      { rewrite Hnc. destruct (Z.eqb_spec T 0); [done |]. simpl.
        destruct (Z.gtb_spec T now1); [reflexivity | lia]. }
      split; [exact Hlogin |]. split.
      * intros Hno.
        assert (E2 : now2 = now1).
        { unfold now2. rewrite Hno. simpl. rewrite Z.add_0_r.
          apply Z.mod_small. exact H1. }
        split; [unfold c2; rewrite E2; reflexivity |].
        split; [rewrite E2; apply Z.mod_small; lia |].
        unfold login_submit, rpcCall_submit. simpl.
        destruct (Z.eqb_spec (T - now1) 0); [lia |]. simpl.
        eexists. split; [reflexivity |]. split; [reflexivity |].
        split; [reflexivity |].
        change (loadDeadline (write ?x _) 0) with (loadDeadline x 0).
        rewrite loadDeadline_storeSeqNum. unfold loadDeadline, storeDeadline. simpl.
        unfold u32. rewrite Z.mod_small by lia. lia.
      * intros E2.
        assert (E0 : u32 (T - now2) = 0) by (rewrite E2, Z.sub_diag; reflexivity).
        split; [rewrite Hlogin, E0; reflexivity |]. split; [exact E2 |].
        destruct (login_without_deadline owner inbound now2)
          as (c3 & Hsub & Hwr & _ & Hd & Hscan).
        exists c3. done.
  - split; [reflexivity |]. split; [vm_compute; reflexivity |].
    split; [reflexivity |]. split; [vm_compute; reflexivity |].
    destruct (login_without_deadline owner5s [] 5)
      as (c3 & Hsub & Hwr & _ & Hd & Hscan).
    exists c3. split; [exact Hsub |]. split; [exact Hwr |]. split; [| done].
    unfold login_submit in Hsub. simpl in Hsub. injection Hsub as <-. reflexivity.
Qed.

(** * Further properties of the connection *)

(** ** Slots and the queue *)

Lemma nodup_bounded_length (l : list nat) (n : nat) :
  NoDup l -> (forall x, x ∈ l -> (x < n)%nat) -> (length l <= n)%nat.
Proof.
  intros Hnd Hb.
  assert (Hle : (length l <= length (seq 0 n))%nat); [| by rewrite length_seq in Hle].
  apply submseteq_length. apply NoDup_submseteq; [exact Hnd |].
  intros x Hx. apply elem_of_seq. specialize (Hb x Hx). lia.
Qed.

Lemma owned_length (c : connection) (ks : list caller) :
  consistent c ks -> (length (owned c ks) <= Z.to_nat queueSize)%nat.
Proof.
  intros (_ & _ & Hnd & _). rewrite <- (length_fmap slotOf).
  apply nodup_bounded_length; [exact Hnd |].
  intros x Hx. apply list_elem_of_fmap in Hx as (s & -> & _). apply slotOf_lt.
Qed.

Lemma holder_room (c : connection) (ks : list caller) (cid : nat) (k : caller) (s : Z) :
  consistent c ks -> ks !! cid = Some k -> heldSeq k = Some s ->
  (length (seqs c) < Z.to_nat queueSize)%nat.
Proof.
  intros Hc Hk Hs. pose proof (owned_length c ks Hc) as Hlen.
  unfold owned in Hlen. rewrite length_app in Hlen.
  assert (0 < length (omap heldSeq ks))%nat; [| lia].
  pose proof (held_elem ks cid k s Hk Hs) as Hin.
  destruct (omap heldSeq ks); [| simpl; lia]. inversion Hin.
Qed.

(** X1. In every reachable state the slot table has [queueSize] slots;
    every sequence in the queue or in a caller's hands is in [[0, MAX)]; no
    two sequences in the queue, no queued and held sequence, and no two
    callers' sequences share a slot; and a caller in its wait loop has its
    sequence published in its slot. *)
Theorem slots_exclusive `{RPCCodec} (w : world) :
  reachable w ->
  length (requests (w_conn w)) = Z.to_nat queueSize
  /\ NoDup (slotOf <$> seqs (w_conn w))
  /\ (forall s, s ∈ seqs (w_conn w) -> 0 <= s < maxSeqNum)
  /\ (forall cid k s,
        w_callers w !! cid = Some k -> heldSeq k = Some s ->
        0 <= s < maxSeqNum
        /\ forall q, q ∈ seqs (w_conn w) -> slotOf q <> slotOf s)
  /\ (forall i j a b s t,
        i <> j -> w_callers w !! i = Some a -> w_callers w !! j = Some b ->
        heldSeq a = Some s -> heldSeq b = Some t -> slotOf s <> slotOf t)
  /\ (forall cid seq,
        waitingOn w cid = Some seq -> loadSeqNum (w_conn w) (slotOf seq) = seq).
Proof.
  intros Hreach. destruct (reachable_consistent w Hreach) as (Hlen & Hval & Hnd & Hw).
  unfold owned in *. rewrite fmap_app in Hnd.
  apply NoDup_app in Hnd as (Hq & Hdisj & Hh).
  apply Forall_app in Hval as [Hvq Hvh]. rewrite Forall_forall in Hvq, Hvh.
  split; [exact Hlen |]. split; [exact Hq |]. split; [exact Hvq |].
  split; [| split].
  - intros cid k s Hk Hs. pose proof (held_elem _ _ _ _ Hk Hs) as Hin.
    split; [apply Hvh; exact Hin |].
    intros q Hqin E. apply (Hdisj (slotOf q)).
    + apply list_elem_of_fmap. eauto.
    + rewrite E. apply list_elem_of_fmap. eauto.
  - intros i j a b s t. apply held_distinct. exact Hh.
  - intros cid seq Hwo. apply waitingOn_pc in Hwo as (k & Hk & Hp). eauto.
Qed.

Lemma slots_exclusive_fresh : NoDup (slotOf <$> seqs (w_conn (connected []))).
Proof.
  refine (proj1 (proj2 (@slots_exclusive specCodec (connected []) _))).
  exists [], []. reflexivity.
Defined.

(** X2. In every reachable state the queue and the callers together hold at
    most [queueSize] sequences, so the send [c.seqs <- nextSeqNum(seq)] of a
    caller that has left its wait loop never blocks: its release step is
    enabled, appends the successor to the queue and leaves the caller
    returned. *)
Theorem release_never_blocks `{RPCCodec} (w : world) (cid : nat) (k : caller)
    (seq : Z) (buf : option NetBuffer) (er : option error) :
  reachable w -> w_callers w !! cid = Some k -> pc k = CPush seq buf er ->
  (length (seqs (w_conn w)) + length (omap heldSeq (w_callers w))
   <= Z.to_nat queueSize)%nat
  /\ exists w' r,
       step (LPush cid) w = Some w'
       /\ seqs (w_conn w') = seqs (w_conn w) ++ [nextSeqNum seq]
       /\ w_callers w' !! cid
          = Some {| netTimeoutOf := netTimeoutOf k; pc := CDone r |}
       /\ r = match er, buf with
              | Some e, _ => Return buf (Some e)
              | None, Some b => Return buf (parseArgs b)
              | None, None => NilBuffer
              end.
Proof.
  intros Hreach Hk Hp. pose proof (reachable_consistent w Hreach) as Hc.
  split.
  { pose proof (owned_length _ _ Hc) as Hlen. unfold owned in Hlen.
    rewrite length_app in Hlen. exact Hlen. }
  assert (Hroom : (length (seqs (w_conn w)) < Z.to_nat queueSize)%nat).
  { apply (holder_room _ _ cid k seq Hc Hk). unfold heldSeq. rewrite Hp. reflexivity. }
  apply Nat.ltb_lt in Hroom.
  destruct k as [nt p]. simpl in Hp. subst p.
  simpl. rewrite Hk. unfold rpcCall_finish. rewrite Hroom.
  assert (Hset : forall r, setCaller w cid (CDone r) !! cid
                           = Some {| netTimeoutOf := nt; pc := CDone r |}).
  { intros r. rewrite setCaller_lookup, Hk. destruct (decide (cid = cid)); done. }
  destruct er as [e |], buf as [b |]; eexists; eexists;
    (split; [reflexivity |]); simpl; (split; [reflexivity |]);
    (split; [apply Hset | reflexivity]).
Qed.

Lemma release_never_blocks_answered :
  exists w w',
    run answeredRun (connected (replyFrame 0 [])) = Some w
    /\ step (LPush 0) w = Some w'
    /\ seqs (w_conn w') = seqs (w_conn w) ++ [nextSeqNum 0].
Proof.
  destruct (run answeredRun (connected (replyFrame 0 []))) as [w |] eqn:E;
    [| vm_compute in E; discriminate].
  assert (Hk : w_callers w !! 0%nat
               = Some {| netTimeoutOf := 5; pc := CPush 0 (Some {| buf := [] |}) None |})
    by (vm_compute in E; injection E as <-; reflexivity).
  destruct (proj2 (@release_never_blocks specCodec w 0%nat _ 0 _ _
                     (ex_intro _ (replyFrame 0 []) (ex_intro _ answeredRun E))
                     Hk eq_refl)) as (w' & r & Hstep & Hq & _).
  exists w, w'. split; [reflexivity |]. split; [exact Hstep | exact Hq].
Defined.

(** X3. Releasing a slot [k] times in a row moves its sequence [s] to
    [(s + 40 k) mod MAX]; the sequence comes back to [s] exactly when [k] is
    a multiple of 10,000,000, so a slot does not reuse a sequence before it
    has gone through ten million others. *)
Theorem nextSeqNum_iter (s : Z) (k : nat) :
  0 <= s < maxSeqNum ->
  Nat.iter k nextSeqNum s = (s + queueSize * Z.of_nat k) mod maxSeqNum
  /\ (Nat.iter k nextSeqNum s = s <-> Z.of_nat k mod 10000000 = 0).
Proof.
  intros Hs.
  assert (Hiter : forall n, Nat.iter n nextSeqNum s
                            = (s + queueSize * Z.of_nat n) mod maxSeqNum).
  { induction n as [| n IH].
    - simpl. rewrite Z.mul_0_r, Z.add_0_r. symmetry. apply Z.mod_small. exact Hs.
    - rewrite Nat.iter_succ, IH.
      assert (Hr : 0 <= (s + queueSize * Z.of_nat n) mod maxSeqNum < maxSeqNum)
        by (apply Z.mod_pos_bound; unfold maxSeqNum, queueSize; lia).
      replace (s + queueSize * Z.of_nat (S n))
        with (s + queueSize * Z.of_nat n + queueSize) by lia.
      rewrite <- (Z.add_mod_idemp_l (s + queueSize * Z.of_nat n))
        by (unfold maxSeqNum, queueSize; lia).
      set (x := (s + queueSize * Z.of_nat n) mod maxSeqNum) in *.
      destruct (nextSeqNum_cases x Hr) as [[Hlt ->] | [Hge ->]].
      + symmetry. apply Z.mod_small. unfold queueSize in *. lia.
      + replace (x + queueSize) with (x + queueSize - maxSeqNum + 1 * maxSeqNum) at 2
          by lia.
        rewrite Z.mod_add by (unfold maxSeqNum, queueSize; lia).
        symmetry. apply Z.mod_small. unfold maxSeqNum, queueSize in *. lia. }
  split; [apply Hiter |]. rewrite Hiter.
  unfold maxSeqNum, queueSize in *. split.
  - intros Hback.
    pose proof (Z.div_mod (s + 40 * Z.of_nat k) (40 * 10000000) ltac:(lia)) as Hdm.
    rewrite Hback in Hdm.
    set (d := (s + 40 * Z.of_nat k) / (40 * 10000000)) in Hdm.
    assert (Hk : Z.of_nat k = d * 10000000) by lia.
    rewrite Hk. apply Z.mod_mul. lia.
  - intros Hmult.
    pose proof (Z.div_mod (Z.of_nat k) 10000000 ltac:(lia)) as Hdm.
    rewrite Hmult in Hdm.
    set (d := Z.of_nat k / 10000000) in Hdm.
    replace (s + 40 * Z.of_nat k) with (s + d * (40 * 10000000)) by lia.
    rewrite Z.mod_add by lia. apply Z.mod_small. lia.
Qed.

Lemma nextSeqNum_iter_three :
  Nat.iter 3 nextSeqNum 399999950 = (399999950 + queueSize * 3) mod maxSeqNum.
Proof.
  refine (proj1 (nextSeqNum_iter 399999950 3 _)).
  unfold maxSeqNum, queueSize. lia.
Defined.

(** ** Callers *)

Lemma rpcCall_wait_pc (c c' : connection) (seq : Z) (ev : selectEvent) (p : callerPc) :
  rpcCall_wait c seq ev = (c', p) ->
  p = CWait seq \/ exists b e, p = CPush seq b e.
Proof.
  unfold rpcCall_wait. destruct (select_case c seq ev) as [[b e] |]; intros [= <- <-]; eauto.
Qed.

(** X4. A step never removes a caller and never changes its deadline
    argument; it leaves a caller where it is, or takes it from the wait loop
    on [s] to the release of [s], or from the release to its return; a
    caller that has returned keeps its result in every later state. *)
Theorem caller_progress `{RPCCodec} (l : label) (w w' : world) (cid : nat) (k : caller) :
  w_callers w !! cid = Some k -> step l w = Some w' ->
  exists k',
    w_callers w' !! cid = Some k'
    /\ netTimeoutOf k' = netTimeoutOf k
    /\ (k' = k
        \/ (exists s b e, pc k = CWait s /\ pc k' = CPush s b e)
        \/ (exists s b e r, pc k = CPush s b e /\ pc k' = CDone r))
    /\ (forall r, pc k = CDone r -> forall ls w'', run ls w' = Some w'' ->
          w_callers w'' !! cid = Some k).
Proof.
  assert (Hstep1 : forall l w w' cid k,
            w_callers w !! cid = Some k -> step l w = Some w' ->
            exists k', w_callers w' !! cid = Some k'
              /\ netTimeoutOf k' = netTimeoutOf k
              /\ (k' = k
                  \/ (exists s b e, pc k = CWait s /\ pc k' = CPush s b e)
                  \/ (exists s b e r, pc k = CPush s b e /\ pc k' = CDone r))).
  { clear l w w' cid k. intros l w w' cid k Hk Hstep.
    assert (Hset : forall cid' p,
              (cid' = cid ->
                 p = pc k
                 \/ (exists s b e, pc k = CWait s /\ p = CPush s b e)
                 \/ (exists s b e r, pc k = CPush s b e /\ p = CDone r)) ->
              exists k', setCaller w cid' p !! cid = Some k'
                /\ netTimeoutOf k' = netTimeoutOf k
                /\ (k' = k
                    \/ (exists s b e, pc k = CWait s /\ pc k' = CPush s b e)
                    \/ (exists s b e r, pc k = CPush s b e /\ pc k' = CDone r))).
    { intros cid' p Hp. rewrite setCaller_lookup.
      destruct (decide (cid = cid')) as [<- | NE]; [| eauto].
      rewrite Hk. simpl. eexists. split; [reflexivity |]. split; [reflexivity |].
      destruct (Hp eq_refl) as [-> | [H1 | H1]]; [left; destruct k; reflexivity | |];
        simpl; eauto. }
    destruct l as [ctx cmd nt args | | cid' | | cid' | cid' | cid' | e | | cid'];
      [simpl in Hstep .. | |].
    - destruct (rpcCall_submit _ _ _ _ _) as [[c p] |]; [| done].
      injection Hstep as <-. simpl. exists k. split; [| eauto].
      rewrite lookup_app_l; [exact Hk | eapply lookup_lt_Some; eauto].
    - destruct (w_reader w); try done.
      destruct (readLoop_iter (w_conn w)) as [c r]. injection Hstep as <-. eauto.
    - destruct (waitingOn w cid') as [seq' |] eqn:Hwo';
        destruct (w_reader w) as [| i b |]; try done.
      case_bool_decide; [| done].
      destruct (rpcCall_wait (w_conn w) seq' (RecvReply b)) as [c p] eqn:E.
      injection Hstep as <-. simpl. apply Hset. intros ->.
      apply waitingOn_pc in Hwo' as (k0 & Hk0 & Hp0). rewrite Hk in Hk0.
      injection Hk0 as <-. rewrite Hp0.
      destruct (rpcCall_wait_pc _ _ _ _ _ E) as [-> | (b' & e' & ->)]; eauto 10.
    - destruct (w_ticker w); try done.
      destruct (tickerTick (w_conn w)) as [c t]. injection Hstep as <-. eauto.
    - destruct (waitingOn w cid') as [seq' |] eqn:Hwo';
        destruct (w_ticker w) as [| i sn nw |]; try done.
      case_bool_decide; [| done].
      destruct (rpcCall_wait (w_conn w) seq' (RecvTimeout sn)) as [c p] eqn:E.
      destruct (tickerResume c i nw) as [c2 t]. injection Hstep as <-. simpl.
      apply Hset. intros ->.
      apply waitingOn_pc in Hwo' as (k0 & Hk0 & Hp0). rewrite Hk in Hk0.
      injection Hk0 as <-. rewrite Hp0.
      destruct (rpcCall_wait_pc _ _ _ _ _ E) as [-> | (b' & e' & ->)]; eauto 10.
    - destruct (waitingOn w cid') as [seq' |] eqn:Hwo';
        destruct (errCh (w_conn w)); try done.
      injection Hstep as <-. simpl. apply Hset. intros ->.
      apply waitingOn_pc in Hwo' as (k0 & Hk0 & Hp0). rewrite Hk in Hk0.
      injection Hk0 as <-. rewrite Hp0. eauto 10.
    - destruct (w_callers w !! cid') as [[nt p] |] eqn:Hk'; [| done].
      destruct p as [| seq' buf err |]; try done.
      destruct (rpcCall_finish _ _ _ _) as [[c r] |]; [| done].
      injection Hstep as <-. simpl. apply Hset. intros ->.
      rewrite Hk in Hk'. injection Hk' as ->. simpl. eauto 10.
    - injection Hstep as <-. eauto.
    - apply step_LFinalize in Hstep as [_ ->]. eauto.
    - apply step_LLoginErr in Hstep as (? & ? & ? & _ & _ & ->). eauto. }
  intros Hk Hstep.
  destruct (Hstep1 l w w' cid k Hk Hstep) as (k' & Hk' & Hnt & Hadv).
  exists k'. split; [exact Hk' |]. split; [exact Hnt |]. split; [exact Hadv |].
  intros r Hdone.
  assert (k' = k) as ->.
  { destruct Hadv as [? | [(s & b & e & Hp & _) | (s & b & e & r' & Hp & _)]];
      [done | congruence | congruence]. }
  clear Hadv Hnt Hstep Hk. intros ls. revert w' Hk'.
  induction ls as [| l1 ls IH]; intros w1 Hk1 w2 Hrun; simpl in Hrun.
  - injection Hrun as <-. exact Hk1.
  - destruct (step l1 w1) as [w3 |] eqn:Hs1; [| done].
    destruct (Hstep1 l1 w1 w3 cid k Hk1 Hs1) as (k3 & Hk3 & _ & Hadv3).
    assert (k3 = k) as ->.
    { destruct Hadv3 as [? | [(s & b & e & Hp & _) | (s & b & e & r' & Hp & _)]];
        [done | congruence | congruence]. }
    apply (IH w3); [exact Hk3 | exact Hrun].
Qed.

Lemma caller_progress_answered :
  exists w w' k',
    run answeredRun (connected (replyFrame 0 [])) = Some w
    /\ step (LPush 0) w = Some w'
    /\ w_callers w' !! 0%nat = Some k' /\ netTimeoutOf k' = 5.
Proof.
  destruct (run answeredRun (connected (replyFrame 0 []))) as [w |] eqn:E;
    [| vm_compute in E; discriminate].
  assert (Hk : w_callers w !! 0%nat
               = Some {| netTimeoutOf := 5; pc := CPush 0 (Some {| buf := [] |}) None |})
    by (vm_compute in E; injection E as <-; reflexivity).
  destruct (step (LPush 0) w) as [w' |] eqn:Hs;
    [| exfalso; vm_compute in E; injection E as <-; vm_compute in Hs; discriminate].
  destruct (@caller_progress specCodec (LPush 0) w w' 0%nat _ Hk Hs)
    as (k' & Hk' & Hnt & _).
  exists w, w', k'. split; [reflexivity |]. split; [exact Hs |].
  split; [exact Hk' | exact Hnt].
Defined.

(** ** Failure *)

Lemma tickerScan_failure (n i : nat) (nw : Z) (c : connection) :
  err (tickerScan n i nw c).1 = err c /\ errCh (tickerScan n i nw c).1 = errCh c.
Proof.
  revert i. induction n as [| n IH]; intros i; simpl; [done |].
  destruct (negb (seqNumIsValid (loadSeqNum c i))); [apply IH |].
  destruct (negb (loadDeadline c i =? 0) && (nw >=? loadDeadline c i)); [done | apply IH].
Qed.

Lemma onError_failure (c : connection) (e : error) :
  (forall e0, err c = Some e0 -> err (onError c e) = Some e0)
  /\ (errCh c = true -> errCh (onError c e) = true)
  /\ (err (onError c e) <> None).
Proof.
  destruct (err c) as [e0 |] eqn:Herr.
  - rewrite onError_failed by congruence. rewrite Herr. done.
  - rewrite onError_first by exact Herr. simpl. done.
Qed.

(** What a step does to the stored error and the failure channel: nothing,
    or what one [onError] does, or it is [login]'s store, which replaces the
    stored error and leaves the channel alone. *)
Lemma step_failure `{RPCCodec} (l : label) (w w' : world) :
  step l w = Some w' ->
  (err (w_conn w') = err (w_conn w) /\ errCh (w_conn w') = errCh (w_conn w))
  \/ (exists c e, err c = err (w_conn w) /\ errCh c = errCh (w_conn w)
                  /\ err (w_conn w') = err (onError c e)
                  /\ errCh (w_conn w') = errCh (onError c e))
  \/ (exists cid e, l = LLoginErr cid /\ err (w_conn w') = Some e
                    /\ errCh (w_conn w') = errCh (w_conn w)).
Proof.
  intros Hstep.
  destruct l as [ctx cmd nt args | | cid | | cid | cid | cid | e | | cid];
    [simpl in Hstep .. | |].
  - left. unfold rpcCall_submit in Hstep.
    destruct (seqs (w_conn w)) as [| seq rest]; [done |].
    match type of Hstep with
    | match (if ?b then _ else _) with _ => _ end = _ => destruct b
    end; injection Hstep as <-; simpl; [done |].
    destruct (negb (nt =? 0)); done.
  - destruct (w_reader w); try done. unfold readLoop_iter in Hstep.
    destruct (readReply_keeps (w_conn w)) as [rb Hrb].
    destruct (readReply (w_conn w)) as [c1 [e | | reqID b]]; simpl in Hrb; subst c1;
      injection Hstep as <-; simpl; [| left; done | left; done].
    right. left. exists (set_rdBuf (w_conn w) rb), e. done.
  - left. destruct (waitingOn w cid) as [seq |];
      destruct (w_reader w) as [| reqID b |]; try done.
    case_bool_decide; [| done]. unfold rpcCall_wait in Hstep.
    destruct (select_case _ _ _) as [[b0 e0] |]; injection Hstep as <-; done.
  - left. destruct (w_ticker w); try done. unfold tickerTick in Hstep.
    destruct (errCh (w_conn w) || termCh (w_conn w)); [injection Hstep as <-; done |].
    pose proof (tickerScan_failure (length (requests (w_conn w))) 0
                  (u32 (now (w_conn w) + deadlineCheckPeriodSec))
                  (set_now (w_conn w) (u32 (now (w_conn w) + deadlineCheckPeriodSec))))
      as Hf.
    destruct (tickerScan _ _ _ _) as [c t]. injection Hstep as <-. exact Hf.
  - left. destruct (waitingOn w cid) as [seq |];
      destruct (w_ticker w) as [| i sn nw |]; try done.
    case_bool_decide; [| done].
    destruct (rpcCall_wait (w_conn w) seq (RecvTimeout sn)) as [c p] eqn:E.
    unfold tickerResume in Hstep.
    pose proof (tickerScan_failure (length (requests c) - S i) (S i) nw c) as Hf.
    destruct (tickerScan _ _ _ c) as [c2 t]. injection Hstep as <-. simpl in *.
    unfold rpcCall_wait in E.
    destruct (select_case _ _ _) as [[b0 e0] |]; injection E as <- <-; exact Hf.
  - left. destruct (waitingOn w cid) as [seq |];
      destruct (errCh (w_conn w)) eqn:Hech; try done.
    injection Hstep as <-. simpl. rewrite Hech. done.
  - left. destruct (w_callers w !! cid) as [[nt p] |]; [| done].
    destruct p as [| seq buf er |]; try done. unfold rpcCall_finish in Hstep.
    destruct (length (seqs (w_conn w)) <? Z.to_nat queueSize)%nat; [| done].
    destruct er, buf; injection Hstep as <-; done.
  - right. left. injection Hstep as <-. exists (w_conn w), e. done.
  - left. apply step_LFinalize in Hstep as [_ ->]. done.
  - right. right. apply step_LLoginErr in Hstep as (k & buf & e & _ & _ & ->).
    exists cid. eexists. done.
Qed.

Lemma run_failure `{RPCCodec} (ls : list label) (w w' : world) :
  (errCh (w_conn w) = true -> err (w_conn w) <> None) ->
  run ls w = Some w' ->
  (errCh (w_conn w') = true -> err (w_conn w') <> None)
  /\ (err (w_conn w) <> None -> err (w_conn w') <> None)
  /\ (forall e, Forall (fun l => forall cid, l <> LLoginErr cid) ls ->
                err (w_conn w) = Some e -> err (w_conn w') = Some e)
  /\ (errCh (w_conn w) = true -> errCh (w_conn w') = true).
Proof.
  revert w. induction ls as [| l ls IH]; intros w Hinv Hrun; simpl in Hrun.
  - injection Hrun as <-. done.
  - destruct (step l w) as [w1 |] eqn:Hstep; [| done].
    assert (H1 : (errCh (w_conn w1) = true -> err (w_conn w1) <> None)
                 /\ (err (w_conn w) <> None -> err (w_conn w1) <> None)
                 /\ (forall e, (forall cid, l <> LLoginErr cid) ->
                               err (w_conn w) = Some e -> err (w_conn w1) = Some e)
                 /\ (errCh (w_conn w) = true -> errCh (w_conn w1) = true)).
    { destruct (step_failure l w w1 Hstep)
        as [[He Hc] | [(c & e & He & Hc & He' & Hc') | (cid & e & -> & He & Hc)]].
      - rewrite He, Hc. done.
      - destruct (onError_failure c e) as (Hs & Hcl & Hne).
        rewrite He', Hc'. rewrite He, Hc in *.
        split; [done |]. split; [done |]. split; [| done].
        intros e0 _. apply Hs.
      - rewrite He, Hc. split; [done |]. split; [done |]. split; [| done].
        intros e0 Hl. exfalso. exact (Hl cid eq_refl). }
    destruct H1 as (Hinv1 & Hne1 & Hs1 & Hc1).
    destruct (IH w1 Hinv1 Hrun) as (Hinv' & Hne' & Hs' & Hc').
    split; [exact Hinv' |]. split; [auto |]. split; [| auto].
    intros e Hls Herr. inversion Hls as [| ? ? Hl Hls']; subst.
    apply Hs'; [exact Hls' |]. apply Hs1; [exact Hl | exact Herr].
Qed.

(** X5. Once the failure channel is closed the connection stores an error,
    and in every later state the channel is still closed and an error is
    still stored; so every waiter, now or later, can leave its loop through
    the failure channel, and when it does it leaves with the error stored at
    that moment.  No [onError] call replaces the stored error, whatever error
    it is called with: along a run, the stored error is the same as long as
    [login] does not store the error of its own call, which it does without
    the lock and without looking at what is stored: when the call of [login]
    has returned an error, the store is enabled and puts that error (as
    "Login timeout" when it is a Timeout) in place of the stored one, the
    channel staying closed. *)
Theorem failure_stays `{RPCCodec} (w : world) :
  reachable w -> errCh (w_conn w) = true ->
  (exists e, err (w_conn w) = Some e)
  /\ forall ls w',
       run ls w = Some w' ->
       errCh (w_conn w') = true
       /\ (Forall (fun l => forall cid, l <> LLoginErr cid) ls ->
           err (w_conn w') = err (w_conn w))
       /\ (exists e',
            err (w_conn w') = Some e'
            /\ forall cid seq,
                 waitingOn w' cid = Some seq ->
                 exists w'',
                   step (LErrCh cid) w' = Some w''
                   /\ pc <$> w_callers w'' !! cid = Some (CPush seq None (Some e')))
       /\ forall cid k buf e,
            w_callers w' !! cid = Some k -> pc k = CDone (Return buf (Some e)) ->
            exists w'',
              step (LLoginErr cid) w' = Some w''
              /\ errCh (w_conn w'') = true
              /\ err (w_conn w'')
                 = Some (if hasCode e ErrTimeout
                         then BindingsError "Login timeout" ErrTimeout
                         else e).
Proof.
  intros (inbound & ls0 & Hrun0) Hclosed.
  assert (H0 : errCh (w_conn (connected inbound)) = true ->
               err (w_conn (connected inbound)) <> None) by (simpl; discriminate).
  destruct (run_failure ls0 _ w H0 Hrun0) as (Hinv & _ & _ & _).
  destruct (err (w_conn w)) as [e |] eqn:Herr; [| exfalso; exact (Hinv Hclosed eq_refl)].
  split; [exists e; reflexivity |].
  intros ls w' Hrun.
  assert (H1 : errCh (w_conn w) = true -> err (w_conn w) <> None)
    by (rewrite Herr; done).
  destruct (run_failure ls w w' H1 Hrun) as (_ & Hne & Hs & Hc).
  specialize (Hc Hclosed).
  split; [exact Hc |]. split.
  { intros Hls. apply Hs; [exact Hls | exact Herr]. }
  split.
  - destruct (err (w_conn w')) as [e' |] eqn:Herr';
      [| exfalso; apply Hne; [rewrite Herr |]; done].
    exists e'. split; [reflexivity |].
    intros cid seq Hwo. simpl. rewrite Hc, Hwo. eexists. split; [reflexivity |].
    simpl. rewrite setCaller_lookup.
    apply waitingOn_pc in Hwo as (k & Hk & _). rewrite Hk, Herr'.
    destruct (decide (cid = cid)); done.
  - intros cid [nt p] buf e0 Hk Hp. simpl in Hp. subst p.
    simpl. rewrite Hk. eexists. split; [reflexivity |]. simpl. done.
Qed.

Lemma failure_stays_login :
  exists w w',
    run failedLoginRun (connected []) = Some w
    /\ err (w_conn w) = Some IoEOF
    /\ run lateLoginRun w = Some w'
    /\ errCh (w_conn w') = true
    /\ err (w_conn w') = Some (BindingsError "Login timeout" ErrTimeout).
Proof.
  destruct (run failedLoginRun (connected [])) as [w |] eqn:E;
    [| vm_compute in E; discriminate].
  destruct (run lateLoginRun w) as [w' |] eqn:E';
    [| vm_compute in E; injection E as <-; vm_compute in E'; discriminate].
  assert (Hclosed : errCh (w_conn w) = true)
    by (vm_compute in E; injection E as <-; reflexivity).
  assert (Herr : err (w_conn w) = Some IoEOF)
    by (vm_compute in E; injection E as <-; reflexivity).
  assert (Herr' : err (w_conn w') = Some (BindingsError "Login timeout" ErrTimeout))
    by (vm_compute in E; injection E as <-; vm_compute in E'; injection E' as <-;
        reflexivity).
  destruct (@failure_stays specCodec w
              (ex_intro _ [] (ex_intro _ failedLoginRun E)) Hclosed) as (_ & Hlater).
  destruct (Hlater lateLoginRun w' E') as (Hc & _).
  exists w, w'. done.
Defined.

(** ** Replies *)

(** [readReply] after an accepted header that carries its slot's current
    sequence: the payload read decides. *)
Lemma readReply_current (c : connection) (hdr rest : list byte)
    (magic version size rseq : Z) :
  rdBuf c = hdr ++ rest -> length hdr = Z.to_nat cprotoHdrLen ->
  decodeHdr hdr = (magic, version, size, rseq) ->
  headerAccepted magic version rseq ->
  loadSeqNum c (slotOf rseq) = rseq ->
  readReply c =
    let '(answ, rest0, e) := ReadFull rest (Z.to_nat size) in
    match e with
    | Some e => (set_rdBuf c rest0, ReplyErr e)
    | None => (set_rdBuf c rest0,
               ReplySend (slotOf rseq) {| rseq := rseq; bufp := {| buf := answ |} |})
    end.
Proof.
  intros Hbuf Hlen Hdec (Hm & Hv & Hr) Hcur.
  rewrite (readReply_header c hdr rest magic version size rseq Hbuf Hlen Hdec).
  cbv zeta. subst magic. rewrite Z.eqb_refl. simpl.
  destruct (Z.ltb_spec version cprotoMinCompatVersion); [lia |].
  assert (Es : seqNumIsValid rseq = true) by (apply seqNumIsValid_lt; lia).
  rewrite Es. simpl.
  change (loadSeqNum (set_rdBuf c rest) (slotOf rseq)) with (loadSeqNum c (slotOf rseq)).
  rewrite Hcur, Z.eqb_refl. simpl.
  destruct (ReadFull rest (Z.to_nat size)) as [[answ rest0] [e |]]; reflexivity.
Qed.

(** X6. After a header that passes the three checks and carries the current
    sequence of its slot, [readReply] reads the announced number of payload
    bytes: when the stream holds them it ends in the send of exactly these
    bytes, tagged with the header's sequence, on the slot's reply channel,
    with the stream advanced past the frame; when the stream ends first it
    returns [io.EOF] (nothing left after the header) or
    [io.ErrUnexpectedEOF], the stream is used up, and [readLoop] fails the
    connection. *)
Theorem matching_reply_read (c : connection) (hdr rest : list byte)
    (magic version size rseq : Z) :
  rdBuf c = hdr ++ rest -> length hdr = Z.to_nat cprotoHdrLen ->
  decodeHdr hdr = (magic, version, size, rseq) ->
  headerAccepted magic version rseq ->
  loadSeqNum c (slotOf rseq) = rseq ->
  (forall payload rest',
     rest = payload ++ rest' -> Z.of_nat (length payload) = size ->
     readReply c = (set_rdBuf c rest',
                    ReplySend (slotOf rseq)
                      {| rseq := rseq; bufp := {| buf := payload |} |})
     /\ readLoop_iter c
        = (set_rdBuf c rest',
           RSend (slotOf rseq) {| rseq := rseq; bufp := {| buf := payload |} |}))
  /\ (Z.of_nat (length rest) < size ->
      readReply c = (set_rdBuf c [],
                     ReplyErr (match rest with
                               | [] => IoEOF
                               | _ :: _ => IoErrUnexpectedEOF
                               end))
      /\ (readLoop_iter c).2 = RExit
      /\ hasError (readLoop_iter c).1 = true).
Proof.
  intros Hbuf Hlen Hdec Hacc Hcur.
  destruct (decodeHdr_nonneg _ _ _ _ _ Hdec) as (_ & _ & Hsz & _).
  pose proof (readReply_current c hdr rest magic version size rseq
                Hbuf Hlen Hdec Hacc Hcur) as Hrr.
  split.
  - intros payload rest' -> Hpl.
    assert (Hn : Z.to_nat size = length payload) by lia.
    rewrite Hn, ReadFull_app in Hrr.
    split; [exact Hrr |]. unfold readLoop_iter. rewrite Hrr. reflexivity.
  - intros Hshort. unfold ReadFull in Hrr.
    destruct (Nat.leb_spec (Z.to_nat size) (length rest)); [lia |].
    split; [exact Hrr |]. unfold readLoop_iter. rewrite Hrr.
    split; [reflexivity |]. apply onError_hasError.
Qed.

Lemma matching_reply_read_first :
  readReply (w_conn (connected (replyFrame 0 [Byte.x07] ++ [Byte.x09])))
  = (w_conn (connected [Byte.x09]),
     ReplySend 0 {| rseq := 0; bufp := {| buf := [Byte.x07] |} |}).
Proof.
  refine (proj1 (proj1 (matching_reply_read
            (w_conn (connected (replyFrame 0 [Byte.x07] ++ [Byte.x09])))
            (frameHeader cprotoVersion 1 0) [Byte.x07; Byte.x09]
            cprotoMagic cprotoVersion 1 0 _ _ _ _ _) [Byte.x07] [Byte.x09] _ _)).
  - reflexivity.
  - reflexivity.
  - vm_compute. reflexivity.
  - unfold headerAccepted. vm_compute. intuition discriminate.
  - reflexivity.
  - reflexivity.
  - reflexivity.
Defined.

(** X7. In a reachable state in which the reader is at the head of its loop
    and caller [cid] waits on [seq], a well-formed reply frame for [seq] at
    the head of the stream reaches that caller: the reader's run, the
    hand-over and the release are all enabled; the caller returns the frame's
    payload with the result of [parseArgs]; its slot holds the idle sentinel;
    the successor of [seq] is at the back of the queue; and the reader is
    back at the head of its loop with the stream past the frame. *)
Theorem reply_reaches_caller `{RPCCodec} (w : world) (cid : nat) (seq : Z)
    (hdr payload rest : list byte) (version : Z) :
  reachable w -> w_reader w = RRun -> waitingOn w cid = Some seq ->
  rdBuf (w_conn w) = hdr ++ payload ++ rest ->
  length hdr = Z.to_nat cprotoHdrLen ->
  decodeHdr hdr = (cprotoMagic, version, Z.of_nat (length payload), seq) ->
  cprotoMinCompatVersion <= version ->
  exists w',
    run [LRead; LReply cid; LPush cid] w = Some w'
    /\ pc <$> w_callers w' !! cid
       = Some (CDone (Return (Some {| buf := payload |})
                        (parseArgs {| buf := payload |})))
    /\ seqs (w_conn w') = seqs (w_conn w) ++ [nextSeqNum seq]
    /\ loadSeqNum (w_conn w') (slotOf seq) = maxSeqNum
    /\ rdBuf (w_conn w') = rest
    /\ w_reader w' = RRun.
Proof.
  intros Hreach Hrd Hwo Hbuf Hlen Hdec Hv.
  pose proof (reachable_consistent w Hreach) as Hc.
  destruct (proj1 (waitingOn_pc w cid seq) Hwo) as (k & Hk & Hp).
  assert (Hheld : heldSeq k = Some seq) by (unfold heldSeq; rewrite Hp; reflexivity).
  assert (Hseq : 0 <= seq < maxSeqNum).
  { destruct Hc as (_ & Hval & _). rewrite Forall_forall in Hval. apply Hval.
    apply elem_of_app. right. eapply held_elem; eauto. }
  assert (Hcur : loadSeqNum (w_conn w) (slotOf seq) = seq).
  { destruct Hc as (_ & _ & _ & Hw). eauto. }
  assert (Hroom := holder_room _ _ cid k seq Hc Hk Hheld).
  assert (Hslot : (slotOf seq < length (requests (w_conn w)))%nat).
  { destruct Hc as (-> & _). apply slotOf_lt. }
  assert (Hit : readLoop_iter (w_conn w)
                = (set_rdBuf (w_conn w) rest,
                   RSend (slotOf seq) {| rseq := seq; bufp := {| buf := payload |} |})).
  { unfold readLoop_iter.
    rewrite (readReply_current (w_conn w) hdr (payload ++ rest) cprotoMagic version
               (Z.of_nat (length payload)) seq Hbuf Hlen Hdec);
      [| unfold headerAccepted; done | exact Hcur].
    rewrite Nat2Z.id, ReadFull_app. reflexivity. }
  set (c1 := set_rdBuf (w_conn w) rest).
  set (b := {| rseq := seq; bufp := {| buf := payload |} |}).
  set (w1 := {| w_conn := c1; w_reader := RSend (slotOf seq) b;
                w_ticker := w_ticker w; w_callers := w_callers w |}).
  assert (Hs1 : step LRead w = Some w1).
  { simpl. rewrite Hrd, Hit. reflexivity. }
  set (k2 := {| netTimeoutOf := netTimeoutOf k; pc := CPush seq (Some {| buf := payload |}) None |}).
  set (w2 := {| w_conn := storeSeqNum c1 (slotOf seq) maxSeqNum; w_reader := RRun;
                w_ticker := w_ticker w; w_callers := <[cid := k2]> (w_callers w) |}).
  assert (Hs2 : step (LReply cid) w1 = Some w2).
  { cbn [step w_reader w1]. change (waitingOn w1 cid) with (waitingOn w cid).
    rewrite Hwo. rewrite bool_decide_eq_true_2 by reflexivity.
    unfold rpcCall_wait, select_case. cbn [rseq b bufp]. rewrite Z.eqb_refl.
    unfold w2, setCaller. cbn [w_callers w1 w_conn w_ticker]. rewrite Hk. reflexivity. }
  assert (Hk2 : w_callers w2 !! cid = Some k2).
  { unfold w2. cbn [w_callers]. apply list_lookup_insert_eq. eapply lookup_lt_Some; eauto. }
  set (k3 := {| netTimeoutOf := netTimeoutOf k;
                pc := CDone (Return (Some {| buf := payload |})
                               (parseArgs {| buf := payload |})) |}).
  set (w3 := {| w_conn := set_seqs (storeSeqNum c1 (slotOf seq) maxSeqNum)
                            (seqs (w_conn w) ++ [nextSeqNum seq]);
                w_reader := RRun; w_ticker := w_ticker w;
                w_callers := <[cid := k3]> (<[cid := k2]> (w_callers w)) |}).
  assert (Hs3 : step (LPush cid) w2 = Some w3).
  { cbn [step]. rewrite Hk2. unfold k2 at 1. cbn [pc].
    unfold rpcCall_finish.
    change (seqs (w_conn w2)) with (seqs (w_conn w)).
    apply Nat.ltb_lt in Hroom. rewrite Hroom.
    unfold setCaller. rewrite Hk2. reflexivity. }
  exists w3. split.
  { cbn [run]. rewrite Hs1, Hs2, Hs3. reflexivity. }
  split.
  { unfold w3. cbn [w_callers]. rewrite list_lookup_insert_eq; [reflexivity |].
    rewrite length_insert. eapply lookup_lt_Some; eauto. }
  split; [reflexivity |]. split; [| split; reflexivity].
  unfold w3. cbn [w_conn].
  change (loadSeqNum (set_seqs ?x _) ?i) with (loadSeqNum x i).
  apply loadSeqNum_storeSeqNum_eq. exact Hslot.
Qed.

Lemma reply_reaches_caller_ping :
  exists w w',
    run pingRun (connected (replyFrame 0 [Byte.x07])) = Some w
    /\ run [LRead; LReply 0; LPush 0] w = Some w'
    /\ pc <$> w_callers w' !! 0%nat
       = Some (CDone (Return (Some {| buf := [Byte.x07] |}) None)).
Proof.
  destruct (run pingRun (connected (replyFrame 0 [Byte.x07]))) as [w |] eqn:E;
    [| vm_compute in E; discriminate].
  assert (Hw : w_reader w = RRun /\ waitingOn w 0 = Some 0
               /\ rdBuf (w_conn w) = frameHeader cprotoVersion 1 0 ++ [Byte.x07] ++ [])
    by (vm_compute in E; injection E as <-; repeat split; reflexivity).
  destruct Hw as (Hrd & Hwo & Hbuf).
  destruct (@reply_reaches_caller specCodec w 0%nat 0
              (frameHeader cprotoVersion 1 0) [Byte.x07] [] cprotoVersion
              (ex_intro _ _ (ex_intro _ pingRun E)) Hrd Hwo Hbuf)
    as (w' & Hrun & Hpc & _).
  - reflexivity.
  - vm_compute. reflexivity.
  - vm_compute. discriminate.
  - exists w, w'. split; [reflexivity |]. split; [exact Hrun | exact Hpc].
Defined.

(** ** The ticker *)

Lemma tickerScan_spec (n i : nat) (nw : Z) (c : connection) :
  match tickerScan n i nw c with
  | (c', TSend j s nw') =>
      (i <= j < i + n)%nat /\ overdue c nw j = true
      /\ (forall k, (i <= k < j)%nat -> overdue c nw k = false)
      /\ s = loadSeqNum c j /\ nw' = nw /\ c' = storeDeadline c j 0
  | (c', TSleep) =>
      c' = c /\ forall k, (i <= k < i + n)%nat -> overdue c nw k = false
  | (_, TExit) => False
  end.
Proof.
  revert i. induction n as [| n IH]; intros i; simpl.
  - split; [reflexivity |]. intros k Hk. lia.
  - assert (Hnot : overdue c nw i = false ->
             match tickerScan n (S i) nw c with
             | (c', TSend j s nw') =>
                 (i <= j < i + S n)%nat /\ overdue c nw j = true
                 /\ (forall k, (i <= k < j)%nat -> overdue c nw k = false)
                 /\ s = loadSeqNum c j /\ nw' = nw /\ c' = storeDeadline c j 0
             | (c', TSleep) =>
                 c' = c /\ forall k, (i <= k < i + S n)%nat -> overdue c nw k = false
             | (_, TExit) => False
             end).
    { intros Hi. specialize (IH (S i)).
      destruct (tickerScan n (S i) nw c) as [c' [| j s nw' |]]; [| | done].
      - destruct IH as [-> Hall]. split; [reflexivity |]. intros k Hk.
        destruct (decide (k = i)) as [-> | NE]; [exact Hi | apply Hall; lia].
      - destruct IH as (Hj & Hov & Hlow & Hs & Hn & Hc').
        split; [lia |]. split; [exact Hov |]. split; [| done].
        intros k Hk. destruct (decide (k = i)) as [-> | NE]; [exact Hi | apply Hlow; lia]. }
    unfold overdue in Hnot at 1.
    destruct (seqNumIsValid (loadSeqNum c i)) eqn:Ev; simpl in *; [| apply Hnot; reflexivity].
    destruct (negb (loadDeadline c i =? 0) && (nw >=? loadDeadline c i)) eqn:Ed;
      [| apply Hnot; reflexivity].
    split; [lia |]. split; [unfold overdue; rewrite Ev; exact Ed |].
    split; [intros k Hk; lia | done].
Qed.

(** X8. A tick of the deadline ticker: with the failure or the termination
    channel closed it returns and changes nothing.  Otherwise it adds one
    second to [now] modulo 2^32 and looks for the first slot, by index, with a
    valid sequence and a non-zero deadline that [now] has reached: if there
    is none only [now] has changed; if there is one, only [now] and that
    slot's deadline, now zero, have changed, and the ticker is at the send of
    that slot's sequence on that slot's timeout channel. *)
Theorem tick_fires_first_overdue (c : connection) :
  (errCh c || termCh c = true -> tickerTick c = (c, TExit))
  /\ (errCh c = false -> termCh c = false ->
      match tickerTick c with
      | (c', TSend j s nw') =>
          (j < length (requests c))%nat
          /\ overdue c (u32 (now c + 1)) j = true
          /\ (forall k, (k < j)%nat -> overdue c (u32 (now c + 1)) k = false)
          /\ s = loadSeqNum c j /\ nw' = u32 (now c + 1)
          /\ c' = storeDeadline (set_now c (u32 (now c + 1))) j 0
          /\ loadDeadline c' j = 0
      | (c', TSleep) =>
          c' = set_now c (u32 (now c + 1))
          /\ forall k, (k < length (requests c))%nat ->
                       overdue c (u32 (now c + 1)) k = false
      | (_, TExit) => False
      end).
Proof.
  split.
  - intros Hx. unfold tickerTick. rewrite Hx. reflexivity.
  - intros Hech Hterm. unfold tickerTick. rewrite Hech, Hterm.
    cbv beta iota delta [orb]. cbv zeta.
    change deadlineCheckPeriodSec with 1.
    set (nw := u32 (now c + 1)).
    pose proof (tickerScan_spec (length (requests (set_now c nw))) 0 nw (set_now c nw)) as Hs.
    destruct (tickerScan _ 0 nw (set_now c nw)) as [c' [| j s nw' |]]; [| | done].
    + destruct Hs as [-> Hall]. split; [reflexivity |]. intros k Hk.
      apply (Hall k). simpl. lia.
    + destruct Hs as (Hj & Hov & Hlow & -> & -> & ->). simpl in Hj.
      split; [lia |]. split; [exact Hov |].
      split; [intros k Hk; apply (Hlow k); lia |].
      split; [reflexivity |]. split; [reflexivity |]. split; [reflexivity |].
      unfold loadDeadline, storeDeadline. simpl.
      rewrite list_lookup_insert_eq by lia. reflexivity.
Qed.

Lemma tickerScan_now (n i : nat) (nw : Z) (c : connection) :
  now (tickerScan n i nw c).1 = now c.
Proof.
  pose proof (tickerScan_spec n i nw c) as Hs.
  destruct (tickerScan n i nw c) as [c' [| j s nw' |]]; [| | done].
  - destruct Hs as [-> _]. reflexivity.
  - destruct Hs as (_ & _ & _ & _ & _ & ->). reflexivity.
Qed.

Lemma loadDeadline_storeDeadline_ne (c : connection) (i j : nat) (v : Z) :
  i <> j -> loadDeadline (storeDeadline c i v) j = loadDeadline c j.
Proof.
  intros NE. unfold loadDeadline, storeDeadline. simpl.
  rewrite list_lookup_insert_ne by exact NE. reflexivity.
Qed.

Lemma tickerScan_deadline_before (n i : nat) (nw : Z) (c : connection) (j : nat) :
  (j < i)%nat -> loadDeadline (tickerScan n i nw c).1 j = loadDeadline c j.
Proof.
  intros Hj. pose proof (tickerScan_spec n i nw c) as Hs.
  destruct (tickerScan n i nw c) as [c' [| k s nw' |]]; [| | done].
  - destruct Hs as [-> _]. reflexivity.
  - destruct Hs as (Hk & _ & _ & _ & _ & ->). simpl.
    apply loadDeadline_storeDeadline_ne. lia.
Qed.

(** X9. In a reachable state that has not failed or been finalized, with
    the ticker between ticks, let caller [cid] wait on [seq] and let its slot
    be the first one that is due at the next tick.  Then the tick, the
    hand-over of the timeout signal and the release are all enabled; the
    caller returns "Request timeout" with code Timeout and no buffer; its
    slot holds the idle sentinel and a cleared deadline; the successor of
    [seq] is at the back of the queue; and [now] has advanced by one. *)
Theorem deadline_reaches_caller `{RPCCodec} (w : world) (cid : nat) (seq : Z) :
  reachable w -> w_ticker w = TSleep -> waitingOn w cid = Some seq ->
  errCh (w_conn w) = false -> termCh (w_conn w) = false ->
  overdue (w_conn w) (u32 (now (w_conn w) + 1)) (slotOf seq) = true ->
  (forall k, (k < slotOf seq)%nat ->
             overdue (w_conn w) (u32 (now (w_conn w) + 1)) k = false) ->
  exists w',
    run [LTick; LTimeout cid; LPush cid] w = Some w'
    /\ pc <$> w_callers w' !! cid
       = Some (CDone (Return None (Some (BindingsError "Request timeout" ErrTimeout))))
    /\ seqs (w_conn w') = seqs (w_conn w) ++ [nextSeqNum seq]
    /\ loadSeqNum (w_conn w') (slotOf seq) = maxSeqNum
    /\ loadDeadline (w_conn w') (slotOf seq) = 0
    /\ now (w_conn w') = u32 (now (w_conn w) + 1).
Proof.
  intros Hreach Htk Hwo Hech Hterm Hov Hlow.
  pose proof (reachable_consistent w Hreach) as Hc.
  destruct (proj1 (waitingOn_pc w cid seq) Hwo) as (k & Hk & Hp).
  assert (Hheld : heldSeq k = Some seq) by (unfold heldSeq; rewrite Hp; reflexivity).
  assert (Hcur : loadSeqNum (w_conn w) (slotOf seq) = seq).
  { destruct Hc as (_ & _ & _ & Hw). eauto. }
  assert (Hroom := holder_room _ _ cid k seq Hc Hk Hheld).
  assert (Hslot : (slotOf seq < length (requests (w_conn w)))%nat).
  { destruct Hc as (-> & _). apply slotOf_lt. }
  set (nw := u32 (now (w_conn w) + 1)) in *.
  set (c1 := storeDeadline (set_now (w_conn w) nw) (slotOf seq) 0).
  assert (Htick : tickerTick (w_conn w) = (c1, TSend (slotOf seq) seq nw)).
  { unfold tickerTick. rewrite Hech, Hterm. cbv beta iota delta [orb]. cbv zeta.
    change deadlineCheckPeriodSec with 1. fold nw.
    pose proof (tickerScan_spec (length (requests (set_now (w_conn w) nw))) 0 nw
                  (set_now (w_conn w) nw)) as Hs.
    destruct (tickerScan _ 0 nw (set_now (w_conn w) nw)) as [c' [| j s nw' |]];
      [| | done].
    - destruct Hs as [_ Hall]. specialize (Hall (slotOf seq)).
      change (overdue (set_now (w_conn w) nw) nw (slotOf seq))
        with (overdue (w_conn w) nw (slotOf seq)) in Hall.
      rewrite Hov in Hall. simpl in Hall. discriminate Hall. lia.
    - destruct Hs as (Hj & Hovj & Hlowj & -> & -> & ->).
      change (overdue (set_now (w_conn w) nw) nw j)
        with (overdue (w_conn w) nw j) in Hovj.
      assert (j = slotOf seq) as ->.
      { destruct (Nat.lt_trichotomy j (slotOf seq)) as [Hlt | [-> | Hgt]].
        - rewrite (Hlow j Hlt) in Hovj. discriminate.
        - reflexivity.
        - specialize (Hlowj (slotOf seq)).
          change (overdue (set_now (w_conn w) nw) nw (slotOf seq))
            with (overdue (w_conn w) nw (slotOf seq)) in Hlowj.
          rewrite Hov in Hlowj. discriminate Hlowj. lia. }
      change (loadSeqNum (set_now (w_conn w) nw) (slotOf seq))
        with (loadSeqNum (w_conn w) (slotOf seq)).
      rewrite Hcur. reflexivity. }
  set (w1 := {| w_conn := c1; w_reader := w_reader w;
                w_ticker := TSend (slotOf seq) seq nw; w_callers := w_callers w |}).
  assert (Hs1 : step LTick w = Some w1).
  { simpl. rewrite Htk, Htick. reflexivity. }
  set (c1' := storeSeqNum c1 (slotOf seq) maxSeqNum).
  pose proof (tickerScan_keeps (length (requests c1') - S (slotOf seq))
                (S (slotOf seq)) nw c1') as (Hq2 & Hl2 & Hld2).
  pose proof (tickerScan_now (length (requests c1') - S (slotOf seq))
                (S (slotOf seq)) nw c1') as Hn2.
  pose proof (tickerScan_deadline_before (length (requests c1') - S (slotOf seq))
                (S (slotOf seq)) nw c1' (slotOf seq) ltac:(lia)) as Hd2.
  destruct (tickerScan (length (requests c1') - S (slotOf seq)) (S (slotOf seq)) nw c1')
    as [c2 t] eqn:Hres. simpl in Hq2, Hl2, Hld2, Hn2, Hd2.
  set (k2 := {| netTimeoutOf := netTimeoutOf k;
                pc := CPush seq None (Some (BindingsError "Request timeout" ErrTimeout)) |}).
  set (w2 := {| w_conn := c2; w_reader := w_reader w; w_ticker := t;
                w_callers := <[cid := k2]> (w_callers w) |}).
  assert (Hs2 : step (LTimeout cid) w1 = Some w2).
  { cbn [step w_ticker w1]. change (waitingOn w1 cid) with (waitingOn w cid).
    rewrite Hwo. rewrite bool_decide_eq_true_2 by reflexivity.
    unfold rpcCall_wait, select_case. rewrite Z.eqb_refl.
    unfold tickerResume.
    change (storeSeqNum (w_conn w1) (slotOf seq) maxSeqNum) with c1'.
    rewrite Hres.
    unfold w2, setCaller. change (w_callers w1) with (w_callers w).
    rewrite Hk. reflexivity. }
  assert (Hk2 : w_callers w2 !! cid = Some k2).
  { unfold w2. cbn [w_callers]. apply list_lookup_insert_eq. eapply lookup_lt_Some; eauto. }
  set (k3 := {| netTimeoutOf := netTimeoutOf k;
                pc := CDone (Return None
                               (Some (BindingsError "Request timeout" ErrTimeout))) |}).
  set (w3 := {| w_conn := set_seqs c2 (seqs (w_conn w) ++ [nextSeqNum seq]);
                w_reader := w_reader w; w_ticker := t;
                w_callers := <[cid := k3]> (<[cid := k2]> (w_callers w)) |}).
  assert (Hs3 : step (LPush cid) w2 = Some w3).
  { cbn [step]. rewrite Hk2. unfold k2 at 1. cbn [pc].
    unfold rpcCall_finish. cbn [w_conn w2]. rewrite Hq2.
    change (seqs c1') with (seqs (w_conn w)).
    apply Nat.ltb_lt in Hroom. rewrite Hroom.
    unfold setCaller. rewrite Hk2. reflexivity. }
  exists w3. split.
  { cbn [run]. rewrite Hs1, Hs2, Hs3. reflexivity. }
  split.
  { unfold w3. cbn [w_callers]. rewrite list_lookup_insert_eq; [reflexivity |].
    rewrite length_insert. eapply lookup_lt_Some; eauto. }
  split; [reflexivity |].
  split; [| split].
  - unfold w3. cbn [w_conn].
    change (loadSeqNum (set_seqs ?x _) ?i) with (loadSeqNum x i).
    rewrite Hld2. apply loadSeqNum_storeSeqNum_eq.
    unfold c1. rewrite length_storeDeadline. exact Hslot.
  - unfold w3. cbn [w_conn].
    change (loadDeadline (set_seqs ?x _) ?i) with (loadDeadline x i).
    rewrite Hd2. unfold c1'. rewrite loadDeadline_storeSeqNum.
    unfold c1, loadDeadline, storeDeadline. simpl.
    rewrite list_lookup_insert_eq by exact Hslot. reflexivity.
  - unfold w3. cbn [w_conn]. simpl. rewrite Hn2. reflexivity.
Qed.

Lemma deadline_reaches_caller_one_second :
  exists w w',
    run deadlineRun (connected []) = Some w
    /\ run [LTick; LTimeout 0; LPush 0] w = Some w'
    /\ now (w_conn w') = 1.
Proof.
  destruct (run deadlineRun (connected [])) as [w |] eqn:E;
    [| vm_compute in E; discriminate].
  assert (Hw : w_ticker w = TSleep /\ waitingOn w 0 = Some 0
               /\ errCh (w_conn w) = false /\ termCh (w_conn w) = false
               /\ overdue (w_conn w) (u32 (now (w_conn w) + 1)) (slotOf 0) = true)
    by (vm_compute in E; injection E as <-; repeat split; reflexivity).
  destruct Hw as (Htk & Hwo & Hech & Hterm & Hov).
  destruct (@deadline_reaches_caller specCodec w 0%nat 0
              (ex_intro _ _ (ex_intro _ deadlineRun E)) Htk Hwo Hech Hterm Hov)
    as (w' & Hrun & _ & _ & _ & _ & Hnow).
  - intros k Hk. change (slotOf 0) with 0%nat in Hk. lia.
  - exists w, w'. split; [reflexivity |]. split; [exact Hrun |].
    rewrite Hnow. vm_compute in E. injection E as <-. reflexivity.
Defined.

(** ** The writer *)

Lemma onError_bufs (c : connection) (e : error) :
  wrBuf (onError c e) = wrBuf c /\ wrBuf2 (onError c e) = wrBuf2 c
  /\ wrKick (onError c e) = wrKick c.
Proof.
  destruct (err c) as [e0 |] eqn:Herr.
  - rewrite onError_failed by congruence. done.
  - rewrite onError_first by exact Herr. done.
Qed.

(** [write] is its two halves, one after the other. *)
Lemma write_append_kick (c : connection) (b : list byte) :
  write c b = kickSend (appendBuf c b).
Proof. reflexivity. Qed.

Lemma wstep_ok (l : wlabel) (o o' : outbound) (log : list byte) :
  outboundOk o log -> wstep l o = Some o' ->
  outboundOk o' (log ++ match l with WAppend b => b | _ => [] end).
Proof.
  intros (Hlog & Hsel & Hkick) Hstep. unfold outboundOk.
  destruct l as [b | | wake | | res | e]; simpl in Hstep.
  - injection Hstep as <-. simpl. split; [| split; [exact Hsel |]].
    + rewrite <- Hlog. rewrite !app_assoc. reflexivity.
    + intros _ _. right. lia.
  - rewrite app_nil_r. destruct (o_kicking o) as [| n]; [done |].
    injection Hstep as <-. simpl. split; [exact Hlog |]. split; [exact Hsel |].
    intros _ _. left. reflexivity.
  - rewrite app_nil_r.
    destruct (o_writer o) eqn:Hpc; try done. specialize (Hsel (or_introl eq_refl)).
    destruct wake; simpl in Hstep.
    + destruct (errCh (o_conn o)); [| done]. injection Hstep as <-. simpl.
      split; [exact Hlog |]. split; intros [? | ?]; done.
    + destruct (wrKick (o_conn o)); [| done]. injection Hstep as <-. simpl.
      split; [exact Hlog |]. split; [intros _; exact Hsel |].
      intros [? | ?]; done.
  - rewrite app_nil_r.
    destruct (o_writer o) eqn:Hpc; try done. specialize (Hsel (or_intror eq_refl)).
    unfold writeLoop_locked in Hstep.
    destruct (wrBuf (o_conn o)) as [| x rest] eqn:Hwb.
    + destruct (err (o_conn o)); injection Hstep as <-; simpl; rewrite Hwb;
        (split; [exact Hlog |]); (split; [intros _; exact Hsel | done]).
    + injection Hstep as <-. simpl. rewrite Hsel, Hwb.
      split; [| split].
      * rewrite <- Hlog, Hsel. rewrite app_nil_r. reflexivity.
      * intros [? | ?]; done.
      * done.
  - rewrite app_nil_r.
    destruct (o_writer o) eqn:Hpc; try done.
    destruct res as [| n e]; simpl in Hstep; injection Hstep as <-; simpl.
    + split; [| split; [done |]].
      * rewrite <- Hlog. rewrite <- app_assoc. reflexivity.
      * intros _. apply Hkick. right. reflexivity.
    + destruct (onError_bufs (set_wrBuf2 (o_conn o) (drop n (wrBuf2 (o_conn o)))) e)
        as (-> & -> & _). simpl.
      split; [| split; intros [? | ?]; done]. rewrite <- Hlog, <- app_assoc.
      rewrite (app_assoc (take n _)), take_drop. reflexivity.
  - rewrite app_nil_r. injection Hstep as <-. simpl.
    destruct (onError_bufs (o_conn o) e) as (-> & -> & ->). done.
Qed.

Lemma wrun_ok (ls : list wlabel) (o o' : outbound) (log : list byte) :
  outboundOk o log -> wrun ls o = Some o' -> outboundOk o' (log ++ written ls).
Proof.
  revert o log. induction ls as [| l ls IH]; intros o log Hok Hrun; simpl in Hrun.
  - injection Hrun as <-. unfold written. simpl. rewrite app_nil_r. exact Hok.
  - destruct (wstep l o) as [o1 |] eqn:Hstep; [| done].
    pose proof (wstep_ok l o o1 log Hok Hstep) as Hok1.
    specialize (IH o1 _ Hok1 Hrun).
    replace (log ++ written (l :: ls))
      with ((log ++ match l with WAppend b => b | _ => [] end) ++ written ls);
      [exact IH |].
    rewrite <- app_assoc. f_equal. unfold written. destruct l; reflexivity.
Qed.

Lemma outboundStart_ok (inbound : list byte) : outboundOk (outboundStart inbound) [].
Proof. unfold outboundOk. simpl. done. Qed.

(** X10. Along every run of the outbound side, whatever the interleaving of
    [write] calls (each an append and, later, a kick), writer wake-ups,
    socket writes that succeed or fail part-way, and [onError] calls: the
    bytes on the socket, then the bytes of the buffer being flushed, then the
    bytes of the buffer being filled are exactly the bytes handed to [write],
    in the order they were handed over; nothing is lost, repeated or
    reordered; and the flush buffer is empty whenever the writer is at its
    [select]. *)
Theorem outbound_in_order (inbound : list byte) (ls : list wlabel) (o : outbound) :
  wrun ls (outboundStart inbound) = Some o ->
  o_sent o ++ wrBuf2 (o_conn o) ++ wrBuf (o_conn o) = written ls
  /\ (exists rest, written ls = o_sent o ++ rest)
  /\ (o_writer o = WSelect -> wrBuf2 (o_conn o) = []).
Proof.
  intros Hrun.
  destruct (wrun_ok ls _ o [] (outboundStart_ok inbound) Hrun) as (Hlog & Hsel & _).
  simpl in Hlog. split; [exact Hlog |]. split; [| intros Hpc; apply Hsel; left; exact Hpc].
  eexists. symmetry. exact Hlog.
Qed.

Lemma outbound_in_order_flush :
  exists o, wrun flushRun (outboundStart []) = Some o
            /\ o_sent o ++ wrBuf2 (o_conn o) ++ wrBuf (o_conn o) = written flushRun.
Proof.
  destruct (wrun flushRun (outboundStart [])) as [o |] eqn:E;
    [| vm_compute in E; discriminate].
  exists o. split; [reflexivity |].
  exact (proj1 (outbound_in_order [] flushRun o E)).
Defined.

(** X11. No wake-up is lost.  [write] appends under the lock and kicks after
    it has released the lock, so between the two the bytes are pending with
    no kick asserted and the writer cannot wake; but in every state of the
    outbound side in which the writer is at its [select] and bytes are
    pending, the kick is asserted or a goroutine that has appended is still
    to make its kick.  That kick is enabled (it never blocks) and asserts the
    kick without touching the buffers.  With the kick asserted the wake-up is
    enabled; under the lock the writer swaps the buffers, and a socket write
    that succeeds then puts exactly the pending bytes on the socket, after
    those already there, and leaves the writer at its [select] with both
    buffers empty. *)
Theorem pending_bytes_get_flushed (inbound : list byte) (ls : list wlabel)
    (o : outbound) :
  wrun ls (outboundStart inbound) = Some o ->
  o_writer o = WSelect -> wrBuf (o_conn o) <> [] ->
  (wrKick (o_conn o) = true \/ (0 < o_kicking o)%nat)
  /\ (wrKick (o_conn o) = false ->
      wstep (WWake WakeKick) o = None
      /\ exists o1,
           wstep WKick o = Some o1
           /\ wrKick (o_conn o1) = true
           /\ wrBuf (o_conn o1) = wrBuf (o_conn o)
           /\ wrBuf2 (o_conn o1) = wrBuf2 (o_conn o)
           /\ o_writer o1 = WSelect /\ o_sent o1 = o_sent o)
  /\ exists o',
       wrun ((if wrKick (o_conn o) then [] else [WKick])
             ++ [WWake WakeKick; WLocked; WSock WriteOk]) o = Some o'
       /\ o_sent o' = o_sent o ++ wrBuf (o_conn o)
       /\ o_sent o' = written ls
       /\ wrBuf (o_conn o') = [] /\ wrBuf2 (o_conn o') = []
       /\ wrKick (o_conn o') = false
       /\ o_writer o' = WSelect.
Proof.
  intros Hrun Hpc Hpend.
  destruct (wrun_ok ls _ o [] (outboundStart_ok inbound) Hrun) as (Hlog & Hsel & Hkick).
  specialize (Hsel (or_introl Hpc)). specialize (Hkick (or_introl Hpc) Hpend).
  simpl in Hlog. rewrite Hsel in Hlog. simpl in Hlog.
  split; [exact Hkick |].
  destruct (wrBuf (o_conn o)) as [| x rest] eqn:Hwb; [done |].
  destruct (wrKick (o_conn o)) eqn:Hk.
  - split; [done |]. simpl. rewrite Hpc. simpl. rewrite Hk. simpl.
    unfold writeLoop_locked. simpl. rewrite Hwb. simpl.
    eexists. split; [reflexivity |]. simpl. rewrite Hsel. done.
  - destruct Hkick as [? | Hn]; [done |].
    destruct (o_kicking o) as [| n] eqn:Hkn; [lia |].
    split.
    + intros _. simpl. rewrite Hpc. simpl. rewrite Hk, Hkn. split; [reflexivity |].
      eexists. split; [reflexivity |]. simpl. done.
    + simpl. rewrite Hkn. simpl. rewrite Hpc. simpl.
      unfold writeLoop_locked. simpl. rewrite Hwb. simpl.
      eexists. split; [reflexivity |]. simpl. rewrite Hsel. done.
Qed.

Lemma pending_bytes_get_flushed_appended :
  exists o o',
    wrun appendedRun (outboundStart []) = Some o
    /\ wrKick (o_conn o) = false
    /\ wrun [WKick; WWake WakeKick; WLocked; WSock WriteOk] o = Some o'
    /\ o_sent o' = [Byte.x01; Byte.x02].
Proof.
  destruct (wrun appendedRun (outboundStart [])) as [o |] eqn:E;
    [| vm_compute in E; discriminate].
  assert (Hpc : o_writer o = WSelect)
    by (vm_compute in E; injection E as <-; reflexivity).
  assert (Hpend : wrBuf (o_conn o) <> [])
    by (vm_compute in E; injection E as <-; discriminate).
  assert (Hk : wrKick (o_conn o) = false)
    by (vm_compute in E; injection E as <-; reflexivity).
  destruct (pending_bytes_get_flushed [] appendedRun o E Hpc Hpend)
    as (_ & _ & o' & Hflush & _ & Hsent & _).
  rewrite Hk in Hflush. exists o, o'. done.
Defined.

(** ** Establishment *)

(** X12. When [login]'s call fails on a connection that has not failed (a
    timeout, or a reply that [parseArgs] rejects), [login] writes the error
    into [c.err] itself ("Login timeout" for an error with code Timeout, else
    the error as it is) and returns the call's error; the [onError] that
    [newConnection] then calls finds an error stored and does nothing: the
    connection reports an error, but its failure channel is still open and
    its socket has not been closed, and no later [onError] changes that. *)
Theorem failed_login_leaves_channel_open (c : connection) (e : error) :
  err c = None -> errCh c = false ->
  (login_return c (Some e)).2 = Some e
  /\ newConnection_return (login_return c (Some e)).1 (Some e)
     = ((login_return c (Some e)).1, Some e)
  /\ err (login_return c (Some e)).1
     = Some (if hasCode e ErrTimeout
             then BindingsError "Login timeout" ErrTimeout else e)
  /\ hasError (login_return c (Some e)).1 = true
  /\ errCh (login_return c (Some e)).1 = false
  /\ conn (login_return c (Some e)).1 = conn c
  /\ forall e', onError (login_return c (Some e)).1 e' = (login_return c (Some e)).1.
Proof.
  intros Herr Hech. simpl.
  split; [reflexivity |]. split.
  { unfold newConnection_return. rewrite onError_failed; [reflexivity | simpl; done]. }
  split; [reflexivity |]. split; [reflexivity |]. split; [exact Hech |].
  split; [reflexivity |]. intros e'. apply onError_failed. simpl. done.
Qed.

Lemma failed_login_leaves_channel_open_timeout :
  errCh (login_return (w_conn (connected []))
           (Some (BindingsError "Request timeout" ErrTimeout))).1 = false.
Proof.
  refine (proj1 (proj2 (proj2 (proj2 (proj2
            (failed_login_leaves_channel_open (w_conn (connected []))
               (BindingsError "Request timeout" ErrTimeout) _ _)))))); reflexivity.
Defined.

(** X13. When the dial fails, [newConnection] returns the error without
    reaching the login, a network timeout turned into "Connect timeout" with
    code Timeout and any other error as it is; the connection it returns
    stores that error, has its failure channel closed and no socket, has
    written nothing, and still has every sequence in its queue. *)
Theorem dial_failure_fails_connection (owner : NetCProto) (net : network) (e : error) :
  dial net (dialCallOf (u32 (Z.quot (LoginTimeout owner) second))) = DialFail e ->
  exists c,
    newConnection owner net
    = NCReturn c (Some (match e with
                        | NetError true _ => BindingsError "Connect timeout" ErrTimeout
                        | _ => e
                        end))
    /\ err c = Some (match e with
                     | NetError true _ => BindingsError "Connect timeout" ErrTimeout
                     | _ => e
                     end)
    /\ errCh c = true /\ conn c = None
    /\ wrBuf c = [] /\ rdBuf c = [] /\ seqs c = seqs emptyConnection.
Proof.
  intros Hdial. unfold newConnection, connect.
  rewrite Hdial, emptyConnection_ticks.
  eexists. split; [reflexivity |].
  rewrite onError_first by reflexivity. simpl. done.
Qed.

Lemma dial_failure_fails_connection_timeout :
  exists c, newConnection owner5s deadNet
            = NCReturn c (Some (BindingsError "Connect timeout" ErrTimeout))
            /\ errCh c = true.
Proof.
  destruct (dial_failure_fails_connection owner5s deadNet
              (NetError true "i/o timeout") eq_refl) as (c & Hnc & _ & Hech & _).
  exists c. split; [exact Hnc | exact Hech].
Defined.

(** ** Submission *)

Lemma quot_millisecond_nonpos (d : Z) : Z.quot d millisecond <= 0 <-> d < millisecond.
Proof.
  unfold millisecond. destruct (Z.lt_ge_cases d 0) as [Hneg | Hpos].
  - split; [lia |]. intros _.
    replace d with (- (- d)) by lia. rewrite Z.quot_opp_l by lia.
    pose proof (Z.quot_pos (- d) 1000000 ltac:(lia) ltac:(lia)). lia.
  - rewrite Z.quot_div_nonneg by lia. split.
    + intros Hq. destruct (Z.lt_ge_cases d 1000000) as [? | Hge]; [done |].
      pose proof (Z.div_le_mono 1000000 d 1000000 ltac:(lia) Hge) as Hm.
      rewrite Z.div_same in Hm by lia. lia.
    + intros Hlt. rewrite Z.div_small by lia. lia.
Qed.

(** X14. With a sequence at hand, [rpcCall] returns Canceled at submission
    exactly when its context has a deadline less than one millisecond away
    (passed or not): the remaining time is cut to whole milliseconds before
    the test.  A context with at least one millisecond left, or without
    deadline, always enters the wait loop on the acquired sequence, with a
    frame that carries the remaining whole milliseconds (0 without
    deadline). *)
Theorem canceled_iff_under_millisecond `{RPCCodec} (c : connection) (ctx : option Z)
    (cmd netTimeout : Z) (args : list arg) (seq : Z) (rest : list Z) :
  seqs c = seq :: rest ->
  (rpcCall_submit c ctx cmd netTimeout args
   = Some (set_seqs c rest,
           CDone (Return None (Some (BindingsError "Request was canceled" ErrCanceled))))
   <-> exists d, ctx = Some d /\ d < 1000000)
  /\ ((forall d, ctx = Some d -> 1000000 <= d) ->
      exists c',
        rpcCall_submit c ctx cmd netTimeout args = Some (c', CWait seq)
        /\ wrBuf c' = wrBuf c
                      ++ encodeFrame cmd seq args
                           (match ctx with Some d => d / 1000000 | None => 0 end)).
Proof.
  intros Hq. unfold rpcCall_submit. rewrite Hq. split.
  - destruct ctx as [d |].
    + pose proof (quot_millisecond_nonpos d) as Hd. unfold millisecond in *.
      destruct (Z.leb_spec (Z.quot d 1000000) 0) as [Hle | Hgt].
      * split; [intros _; exists d; split; [reflexivity | lia] | reflexivity].
      * split; [intros [=] |]. intros (d' & [= <-] & Hlt). lia.
    + split; [intros [=] | intros (d & [=] & _)].
  - intros Hctx.
    assert (Hgo : match ctx with
                  | Some _ => match ctx with Some d => Z.quot d millisecond | None => 0 end <=? 0
                  | None => false
                  end = false).
    { destruct ctx as [d |]; [| reflexivity].
      pose proof (quot_millisecond_nonpos d) as Hd. specialize (Hctx d eq_refl).
      unfold millisecond in *. destruct (Z.leb_spec (Z.quot d 1000000) 0); [lia | reflexivity]. }
    rewrite Hgo. eexists. split; [reflexivity |].
    assert (Hms : match ctx with Some d => Z.quot d millisecond | None => 0 end
                  = match ctx with Some d => d / 1000000 | None => 0 end).
    { destruct ctx as [d |]; [| reflexivity].
      specialize (Hctx d eq_refl). unfold millisecond. apply Z.quot_div_nonneg; lia. }
    rewrite Hms. destruct (negb (netTimeout =? 0)); reflexivity.
Qed.

Lemma canceled_iff_under_millisecond_half :
  rpcCall_submit (w_conn (connected [])) (Some 500000) cmdPing 0 []
  = Some (set_seqs (w_conn (connected [])) (Z.of_nat <$> seq 1 39),
          CDone (Return None (Some (BindingsError "Request was canceled" ErrCanceled)))).
Proof.
  refine (proj2 (proj1 (@canceled_iff_under_millisecond specCodec
            (w_conn (connected [])) (Some 500000) cmdPing 0 [] 0
            (Z.of_nat <$> seq 1 39) eq_refl)) _).
  exists 500000. split; [reflexivity | lia].
Defined.

(** ** The ticker while it is blocked *)

Lemma onError_now (c : connection) (e : error) : now (onError c e) = now c.
Proof.
  destruct (err c) as [e0 |] eqn:Herr.
  - rewrite onError_failed by congruence. reflexivity.
  - rewrite onError_first by exact Herr. reflexivity.
Qed.

(** Only a tick and the receive of a timeout signal move the ticker or the
    clock. *)
Lemma step_keeps_clock `{RPCCodec} (l : label) (w w' : world) :
  step l w = Some w' -> l <> LTick -> (forall cid, l <> LTimeout cid) ->
  w_ticker w' = w_ticker w /\ now (w_conn w') = now (w_conn w).
Proof.
  intros Hstep Hnt Hnto.
  destruct l as [ctx cmd nt args | | cid | | cid | cid | cid | e | | cid];
    [simpl in Hstep .. | |].
  - unfold rpcCall_submit in Hstep.
    destruct (seqs (w_conn w)) as [| seq rest]; [done |].
    match type of Hstep with
    | match (if ?b then _ else _) with _ => _ end = _ => destruct b
    end; injection Hstep as <-; simpl; [done |].
    destruct (negb (nt =? 0)); done.
  - destruct (w_reader w); try done. unfold readLoop_iter in Hstep.
    destruct (readReply_keeps (w_conn w)) as [rb Hrb].
    destruct (readReply (w_conn w)) as [c1 [e | | reqID b]]; simpl in Hrb; subst c1;
      injection Hstep as <-; simpl; try done.
    split; [reflexivity |]. rewrite onError_now. reflexivity.
  - destruct (waitingOn w cid) as [seq |];
      destruct (w_reader w) as [| reqID b |]; try done.
    case_bool_decide; [| done]. unfold rpcCall_wait in Hstep.
    destruct (select_case _ _ _) as [[b0 e0] |]; injection Hstep as <-; done.
  - done.
  - exfalso. exact (Hnto cid eq_refl).
  - destruct (waitingOn w cid) as [seq |];
      destruct (errCh (w_conn w)); try done.
    injection Hstep as <-. done.
  - destruct (w_callers w !! cid) as [[nt p] |]; [| done].
    destruct p as [| seq buf er |]; try done. unfold rpcCall_finish in Hstep.
    destruct (length (seqs (w_conn w)) <? Z.to_nat queueSize)%nat; [| done].
    destruct er, buf; injection Hstep as <-; done.
  - injection Hstep as <-. simpl. split; [reflexivity |]. apply onError_now.
  - apply step_LFinalize in Hstep as [_ ->]. done.
  - apply step_LLoginErr in Hstep as (? & ? & ? & _ & _ & ->). done.
Qed.

(** X15. While the ticker is blocked in the send of a timeout signal on
    slot [i], it does nothing else: every step other than the receive of that
    signal by a caller waiting on slot [i] leaves the ticker in the same send
    and [now] where it is, so no tick happens and no other deadline is
    examined until the signal has been taken. *)
Theorem ticker_blocked_until_received `{RPCCodec} (l : label) (w w' : world)
    (i : nat) (s nw : Z) :
  w_ticker w = TSend i s nw -> step l w = Some w' ->
  (w_ticker w' = TSend i s nw /\ now (w_conn w') = now (w_conn w))
  \/ exists cid seq, l = LTimeout cid /\ waitingOn w cid = Some seq /\ slotOf seq = i.
Proof.
  intros Htk Hstep.
  destruct l as [ctx cmd nt args | | cid | | cid | cid | cid | e | | cid];
    try (left; rewrite <- Htk; apply (step_keeps_clock _ w w' Hstep); done).
  - simpl in Hstep. rewrite Htk in Hstep. done.
  - right. simpl in Hstep. rewrite Htk in Hstep.
    destruct (waitingOn w cid) as [seq |] eqn:Hwo; [| done].
    case_bool_decide as Hi; [| done]. exists cid, seq. done.
Qed.

Lemma ticker_blocked_until_received_read :
  exists w w',
    run blockedRun (connected []) = Some w
    /\ step LRead w = Some w'
    /\ w_ticker w' = TSend 0 0 1.
Proof.
  destruct (run blockedRun (connected [])) as [w |] eqn:E;
    [| vm_compute in E; discriminate].
  assert (Htk : w_ticker w = TSend 0 0 1)
    by (vm_compute in E; injection E as <-; reflexivity).
  destruct (step LRead w) as [w' |] eqn:Hs;
    [| exfalso; vm_compute in E; injection E as <-; vm_compute in Hs; discriminate].
  exists w, w'. split; [reflexivity |]. split; [exact Hs |].
  destruct (@ticker_blocked_until_received specCodec LRead w w' 0%nat 0 1 Htk Hs)
    as [[Ht _] | (cid & seq & Hl & _)]; [exact Ht | discriminate Hl].
Defined.

(** ** Finalize *)

Lemma ticker_exit_stays `{RPCCodec} (ls : list label) (w w' : world) :
  w_ticker w = TExit -> run ls w = Some w' ->
  w_ticker w' = TExit /\ now (w_conn w') = now (w_conn w)
  /\ Forall (fun l => l <> LTick /\ forall cid, l <> LTimeout cid) ls.
Proof.
  revert w. induction ls as [| l ls IH]; intros w Htk Hrun; simpl in Hrun.
  - injection Hrun as <-. done.
  - destruct (step l w) as [w1 |] eqn:Hstep; [| done].
    assert (Hl : l <> LTick /\ forall cid, l <> LTimeout cid).
    { split.
      - intros ->. simpl in Hstep. rewrite Htk in Hstep. done.
      - intros cid ->. simpl in Hstep. rewrite Htk in Hstep.
        destruct (waitingOn w cid); done. }
    destruct (step_keeps_clock l w w1 Hstep (proj1 Hl) (proj2 Hl)) as [Ht1 Hn1].
    rewrite Htk in Ht1.
    destruct (IH w1 Ht1 Hrun) as (Ht' & Hn' & Hall).
    split; [exact Ht' |]. split; [congruence |]. constructor; done.
Qed.

(** X16. The first [Finalize] (one on a connection whose termination
    channel is still open) only closes that channel: it stores no error,
    closes neither the failure channel nor the socket, and resolves no
    caller.  The ticker, when it is between ticks, returns at its next tick
    without advancing [now]; from then on no tick and no timeout signal ever
    happens again, so a request still waiting can no longer resolve by
    timeout.  A second [Finalize] closes a closed channel, which panics: it
    is no step of the connection. *)
Theorem finalize_stops_ticker `{RPCCodec} (w : world) :
  w_ticker w = TSleep -> termCh (w_conn w) = false ->
  exists w2,
    run [LFinalize; LTick] w = Some w2
    /\ w2 = {| w_conn := set_termCh (w_conn w) true; w_reader := w_reader w;
               w_ticker := TExit; w_callers := w_callers w |}
    /\ Finalize (w_conn w2) = None
    /\ step LFinalize w2 = None
    /\ forall ls w3,
         run ls w2 = Some w3 ->
         w_ticker w3 = TExit /\ now (w_conn w3) = now (w_conn w)
         /\ Forall (fun l => l <> LTick /\ forall cid, l <> LTimeout cid) ls.
Proof.
  intros Htk Hterm. eexists. split.
  { simpl. unfold Finalize. rewrite Hterm. simpl. rewrite Htk.
    unfold tickerTick. simpl. rewrite orb_true_r. reflexivity. }
  split; [reflexivity |]. split; [reflexivity |]. split; [reflexivity |].
  intros ls w3 Hrun.
  exact (ticker_exit_stays ls
           {| w_conn := set_termCh (w_conn w) true; w_reader := w_reader w;
              w_ticker := TExit; w_callers := w_callers w |} w3 eq_refl Hrun).
Qed.

Lemma finalize_stops_ticker_fresh :
  exists w2, run [LFinalize; LTick] (connected []) = Some w2 /\ w_ticker w2 = TExit.
Proof.
  destruct (@finalize_stops_ticker specCodec (connected []) eq_refl eq_refl)
    as (w2 & Hrun & -> & _).
  eexists. split; [exact Hrun | reflexivity].
Defined.

(** ** Edges of the reader *)

(** X17. A stream that ends inside a header: with fewer than 16 bytes left
    [readReply] takes what is there and returns [io.EOF] when that is nothing
    and [io.ErrUnexpectedEOF] otherwise; [readLoop] calls [onError] with it
    and returns, so a connection without stored error now stores this error
    and has its failure channel closed. *)
Theorem short_header_fails (c : connection) :
  (length (rdBuf c) < Z.to_nat cprotoHdrLen)%nat ->
  readReply c
  = (set_rdBuf c [],
     ReplyErr (match rdBuf c with [] => IoEOF | _ :: _ => IoErrUnexpectedEOF end))
  /\ (readLoop_iter c).2 = RExit
  /\ hasError (readLoop_iter c).1 = true
  /\ (err c = None ->
      err (readLoop_iter c).1
      = Some (match rdBuf c with [] => IoEOF | _ :: _ => IoErrUnexpectedEOF end)
      /\ errCh (readLoop_iter c).1 = true).
Proof.
  intros Hshort.
  assert (Hrr : readReply c
                = (set_rdBuf c [],
                   ReplyErr (match rdBuf c with
                             | [] => IoEOF
                             | _ :: _ => IoErrUnexpectedEOF
                             end))).
  { unfold readReply, ReadFull.
    destruct (Nat.leb_spec (Z.to_nat cprotoHdrLen) (length (rdBuf c))); [lia |].
    reflexivity. }
  split; [exact Hrr |]. unfold readLoop_iter. rewrite Hrr. simpl.
  split; [reflexivity |]. split; [apply onError_hasError |].
  intros Herr. rewrite onError_first by exact Herr. done.
Qed.

Lemma short_header_fails_closed :
  readReply (w_conn (connected []))
  = (w_conn (connected []), ReplyErr IoEOF).
Proof.
  refine (proj1 (short_header_fails (w_conn (connected [])) _)).
  vm_compute. lia.
Defined.

(** X18. The slots start with Go's zero value as their sequence, not with
    the idle sentinel, and 0 is the first sequence handed out.  So a
    well-formed frame for sequence 0 that the reader meets before any request
    was made is not discarded: the reader holds it for slot 0, and the first
    call on the connection, whatever its command and arguments, receives it
    as its reply. *)
Theorem early_reply_taken_by_first_call `{RPCCodec} (hdr payload rest : list byte)
    (version cmd netTimeout : Z) (args : list arg) :
  length hdr = Z.to_nat cprotoHdrLen ->
  decodeHdr hdr = (cprotoMagic, version, Z.of_nat (length payload), 0) ->
  cprotoMinCompatVersion <= version ->
  exists w1 w',
    step LRead (connected (hdr ++ payload ++ rest)) = Some w1
    /\ w_reader w1 = RSend 0 {| rseq := 0; bufp := {| buf := payload |} |}
    /\ run [LCall None cmd netTimeout args; LReply 0; LPush 0] w1 = Some w'
    /\ pc <$> w_callers w' !! 0%nat
       = Some (CDone (Return (Some {| buf := payload |})
                        (parseArgs {| buf := payload |}))).
Proof.
  intros Hlen Hdec Hv.
  set (c0 := w_conn (connected (hdr ++ payload ++ rest))).
  set (b := {| rseq := 0; bufp := {| buf := payload |} |}).
  assert (Hit : readLoop_iter c0 = (set_rdBuf c0 rest, RSend 0 b)).
  { unfold readLoop_iter.
    rewrite (readReply_current c0 hdr (payload ++ rest) cprotoMagic version
               (Z.of_nat (length payload)) 0 eq_refl Hlen Hdec);
      [| unfold headerAccepted, maxSeqNum, queueSize; repeat split; (done || lia)
       | reflexivity].
    rewrite Nat2Z.id, ReadFull_app. reflexivity. }
  set (c1 := set_rdBuf c0 rest).
  set (w1 := {| w_conn := c1; w_reader := RSend 0 b; w_ticker := TSleep;
                w_callers := [] |}).
  assert (Hs1 : step LRead (connected (hdr ++ payload ++ rest)) = Some w1).
  { unfold step. cbn [w_reader connected].
    change (w_conn (connected (hdr ++ payload ++ rest))) with c0.
    rewrite Hit. reflexivity. }
  set (tl := Z.of_nat <$> seq 1 39).
  set (cd := if negb (netTimeout =? 0)
             then storeDeadline (set_seqs c1 tl) 0 (u32 (now (set_seqs c1 tl) + netTimeout))
             else set_seqs c1 tl).
  set (c2 := write (storeSeqNum cd 0 0) (encodeFrame cmd 0 args 0)).
  assert (Hsub : rpcCall_submit c1 None cmd netTimeout args = Some (c2, CWait 0)).
  { unfold rpcCall_submit. change (seqs c1) with (0 :: tl). reflexivity. }
  assert (Hq2 : seqs c2 = tl).
  { unfold c2, cd. destruct (negb (netTimeout =? 0)); reflexivity. }
  set (k1 := {| netTimeoutOf := netTimeout; pc := CWait 0 |}).
  set (w2 := {| w_conn := c2; w_reader := RSend 0 b; w_ticker := TSleep;
                w_callers := [k1] |}).
  assert (Hs2 : step (LCall None cmd netTimeout args) w1 = Some w2).
  { unfold step. change (w_conn w1) with c1. rewrite Hsub. reflexivity. }
  set (k2 := {| netTimeoutOf := netTimeout;
                pc := CPush 0 (Some {| buf := payload |}) None |}).
  set (w3 := {| w_conn := storeSeqNum c2 0 maxSeqNum; w_reader := RRun;
                w_ticker := TSleep; w_callers := [k2] |}).
  assert (Hs3 : step (LReply 0) w2 = Some w3).
  { reflexivity. }
  set (k3 := {| netTimeoutOf := netTimeout;
                pc := CDone (Return (Some {| buf := payload |})
                               (parseArgs {| buf := payload |})) |}).
  set (w4 := {| w_conn := set_seqs (storeSeqNum c2 0 maxSeqNum) (tl ++ [nextSeqNum 0]);
                w_reader := RRun; w_ticker := TSleep; w_callers := [k3] |}).
  assert (Hs4 : step (LPush 0) w3 = Some w4).
  { unfold step. change (w_callers w3 !! 0%nat) with (Some k2). cbn [pc k2].
    unfold rpcCall_finish. change (seqs (w_conn w3)) with (seqs c2). rewrite Hq2.
    reflexivity. }
  exists w1, w4. split; [exact Hs1 |]. split; [reflexivity |].
  split; [| reflexivity].
  cbn [run]. rewrite Hs2, Hs3, Hs4. reflexivity.
Qed.

Lemma early_reply_taken_by_first_call_ping :
  exists w1 w',
    step LRead (connected (replyFrame 0 [Byte.x07])) = Some w1
    /\ run [LCall None cmdPing 0 []; LReply 0; LPush 0] w1 = Some w'
    /\ pc <$> w_callers w' !! 0%nat
       = Some (CDone (Return (Some {| buf := [Byte.x07] |}) None)).
Proof.
  destruct (@early_reply_taken_by_first_call specCodec
              (frameHeader cprotoVersion 1 0) [Byte.x07] [] cprotoVersion cmdPing 0 [])
    as (w1 & w' & Hs1 & _ & Hrun & Hpc).
  - reflexivity.
  - vm_compute. reflexivity.
  - vm_compute. discriminate.
  - exists w1, w'. split; [exact Hs1 |]. split; [exact Hrun | exact Hpc].
Defined.

(** ** What a submission touches *)

(** X19. A call that enters the wait loop on [seq] took [seq] from the head
    of the queue and published it in its own slot; that slot's deadline is
    [now + netTimeout] modulo 2^32 when [netTimeout] is not 0 and is left as
    it was found when it is 0; every other slot keeps its sequence and its
    deadline; and the clock, the stored error, the failure channel, the
    socket and the inbound stream are untouched. *)
Theorem submit_touches_own_slot `{RPCCodec} (c c' : connection) (ctx : option Z)
    (cmd netTimeout : Z) (args : list arg) (seq : Z) :
  length (requests c) = Z.to_nat queueSize ->
  rpcCall_submit c ctx cmd netTimeout args = Some (c', CWait seq) ->
  seqs c = seq :: seqs c'
  /\ loadSeqNum c' (slotOf seq) = seq
  /\ loadDeadline c' (slotOf seq)
     = (if netTimeout =? 0 then loadDeadline c (slotOf seq)
        else u32 (now c + netTimeout))
  /\ (forall j, j <> slotOf seq ->
        loadSeqNum c' j = loadSeqNum c j /\ loadDeadline c' j = loadDeadline c j)
  /\ now c' = now c /\ err c' = err c /\ errCh c' = errCh c
  /\ conn c' = conn c /\ rdBuf c' = rdBuf c
  /\ length (requests c') = length (requests c).
Proof.
  intros Hlen Hsub. unfold rpcCall_submit in Hsub.
  destruct (seqs c) as [| s rest] eqn:Hq; [done |].
  match type of Hsub with (if ?b then _ else _) = _ => destruct b end; [done |].
  injection Hsub as <- <-.
  assert (Hslot : (slotOf s < length (requests c))%nat)
    by (rewrite Hlen; apply slotOf_lt).
  destruct (Z.eqb_spec netTimeout 0) as [Hz | Hnz]; simpl negb; cbv iota.
  - split; [reflexivity |].
    change (loadSeqNum (write ?x _) ?i) with (loadSeqNum x i).
    change (loadDeadline (write ?x _) ?i) with (loadDeadline x i).
    split; [apply loadSeqNum_storeSeqNum_eq; exact Hslot |].
    split; [rewrite loadDeadline_storeSeqNum; reflexivity |].
    split.
    { intros j Hj.
      change (loadSeqNum (write ?x _) ?i) with (loadSeqNum x i).
      change (loadDeadline (write ?x _) ?i) with (loadDeadline x i).
      rewrite loadSeqNum_storeSeqNum_ne by congruence.
      rewrite loadDeadline_storeSeqNum. done. }
    simpl. rewrite length_insert. done.
  - split; [reflexivity |].
    change (loadSeqNum (write ?x _) ?i) with (loadSeqNum x i).
    change (loadDeadline (write ?x _) ?i) with (loadDeadline x i).
    split.
    { apply loadSeqNum_storeSeqNum_eq. rewrite length_storeDeadline. exact Hslot. }
    split.
    { rewrite loadDeadline_storeSeqNum. unfold loadDeadline, storeDeadline. simpl.
      rewrite list_lookup_insert_eq by exact Hslot. reflexivity. }
    split.
    { intros j Hj.
      change (loadSeqNum (write ?x _) ?i) with (loadSeqNum x i).
      change (loadDeadline (write ?x _) ?i) with (loadDeadline x i).
      rewrite loadSeqNum_storeSeqNum_ne by congruence.
      rewrite loadDeadline_storeSeqNum, loadSeqNum_storeDeadline.
      rewrite loadDeadline_storeDeadline_ne by congruence. done. }
    simpl. rewrite !length_insert. done.
Qed.

Lemma submit_touches_own_slot_first :
  exists c', rpcCall_submit (w_conn (connected [])) None cmdPing 7 [] = Some (c', CWait 0)
             /\ loadDeadline c' (slotOf 0) = 7.
Proof.
  destruct (rpcCall_submit (w_conn (connected [])) None cmdPing 7 [])
    as [[c' p] |] eqn:E; [| vm_compute in E; discriminate].
  assert (Hp : p = CWait 0) by (vm_compute in E; injection E as _ <-; reflexivity).
  subst p. exists c'. split; [reflexivity |].
  exact (proj1 (proj2 (proj2 (@submit_touches_own_slot specCodec
           (w_conn (connected [])) c' None cmdPing 7 [] 0 eq_refl E)))).
Defined.

(** X20. Only a submission writes: a step either leaves both write buffers
    and the kick as they are, or it is a call that enters the wait loop, and
    then it appends that call's frame (built from the command, the sequence at
    the head of the queue, the arguments and the context's remaining whole
    milliseconds) to the buffer being filled and asserts the kick.  Replies,
    timeouts, failures and releases put nothing on the wire. *)
Theorem only_submissions_write `{RPCCodec} (l : label) (w w' : world) :
  step l w = Some w' ->
  (wrBuf (w_conn w') = wrBuf (w_conn w) /\ wrBuf2 (w_conn w') = wrBuf2 (w_conn w)
   /\ wrKick (w_conn w') = wrKick (w_conn w))
  \/ exists ctx cmd nt args seq rest,
       l = LCall ctx cmd nt args /\ seqs (w_conn w) = seq :: rest
       /\ wrBuf (w_conn w')
          = wrBuf (w_conn w)
            ++ encodeFrame cmd seq args
                 (match ctx with Some d => Z.quot d millisecond | None => 0 end)
       /\ wrBuf2 (w_conn w') = wrBuf2 (w_conn w)
       /\ wrKick (w_conn w') = true.
Proof.
  intros Hstep.
  destruct l as [ctx cmd nt args | | cid | | cid | cid | cid | e | | cid];
    [simpl in Hstep .. | |].
  - unfold rpcCall_submit in Hstep.
    destruct (seqs (w_conn w)) as [| seq rest] eqn:Hq; [done |].
    match type of Hstep with
    | match (if ?b then _ else _) with _ => _ end = _ => destruct b
    end; injection Hstep as <-; simpl; [left; done |].
    right. exists ctx, cmd, nt, args, seq, rest.
    destruct (negb (nt =? 0)); done.
  - left. destruct (w_reader w); try done. unfold readLoop_iter in Hstep.
    destruct (readReply_keeps (w_conn w)) as [rb Hrb].
    destruct (readReply (w_conn w)) as [c1 [e | | reqID b]]; simpl in Hrb; subst c1;
      injection Hstep as <-; simpl; try done.
    destruct (onError_bufs (set_rdBuf (w_conn w) rb) e) as (-> & -> & ->). done.
  - left. destruct (waitingOn w cid) as [seq |];
      destruct (w_reader w) as [| reqID b |]; try done.
    case_bool_decide; [| done]. unfold rpcCall_wait in Hstep.
    destruct (select_case _ _ _) as [[b0 e0] |]; injection Hstep as <-; done.
  - left. destruct (w_ticker w); try done. unfold tickerTick in Hstep.
    destruct (errCh (w_conn w) || termCh (w_conn w)); [injection Hstep as <-; done |].
    pose proof (tickerScan_spec (length (requests (w_conn w))) 0
                  (u32 (now (w_conn w) + deadlineCheckPeriodSec))
                  (set_now (w_conn w) (u32 (now (w_conn w) + deadlineCheckPeriodSec))))
      as Hs.
    destruct (tickerScan _ _ _ _) as [c [| j s nw' |]]; [| | done];
      injection Hstep as <-; simpl.
    + destruct Hs as [-> _]. done.
    + destruct Hs as (_ & _ & _ & _ & _ & ->). done.
  - left. destruct (waitingOn w cid) as [seq |];
      destruct (w_ticker w) as [| i sn nw |]; try done.
    case_bool_decide; [| done].
    destruct (rpcCall_wait (w_conn w) seq (RecvTimeout sn)) as [c p] eqn:E.
    unfold tickerResume in Hstep.
    pose proof (tickerScan_spec (length (requests c) - S i) (S i) nw c) as Hs.
    destruct (tickerScan _ _ _ c) as [c2 [| j s nw' |]]; [| | done];
      injection Hstep as <-; simpl;
      unfold rpcCall_wait in E;
      destruct (select_case _ _ _) as [[b0 e0] |]; injection E as <- <-.
    + destruct Hs as [-> _]. done.
    + destruct Hs as [-> _]. done.
    + destruct Hs as (_ & _ & _ & _ & _ & ->). done.
    + destruct Hs as (_ & _ & _ & _ & _ & ->). done.
  - left. destruct (waitingOn w cid) as [seq |];
      destruct (errCh (w_conn w)); try done.
    injection Hstep as <-. done.
  - left. destruct (w_callers w !! cid) as [[nt p] |]; [| done].
    destruct p as [| seq buf er |]; try done. unfold rpcCall_finish in Hstep.
    destruct (length (seqs (w_conn w)) <? Z.to_nat queueSize)%nat; [| done].
    destruct er, buf; injection Hstep as <-; done.
  - left. injection Hstep as <-. simpl.
    destruct (onError_bufs (w_conn w) e) as (-> & -> & ->). done.
  - left. apply step_LFinalize in Hstep as [_ ->]. done.
  - left. apply step_LLoginErr in Hstep as (? & ? & ? & _ & _ & ->). done.
Qed.

Lemma only_submissions_write_tick :
  exists w', step LTick (connected []) = Some w' /\ wrBuf (w_conn w') = [].
Proof.
  destruct (step LTick (connected [])) as [w' |] eqn:E;
    [| vm_compute in E; discriminate].
  exists w'. split; [reflexivity |].
  destruct (@only_submissions_write specCodec LTick (connected []) w' E)
    as [(Hb & _) | (ctx & cmd & nt & args & seq & rest & Hl & _)];
    [exact Hb | discriminate Hl].
Defined.
